(** * tonyenc-decrypter: the cipher engine, the file decoder and the batch walker

    A shallow embedding of [decrypter.py]: [decrypt_content] (the byte
    transform), [decrypt_file] (one file, over a model of the file system
    and of the console), [process_directory] (the batch loop) and [main],
    followed by the properties the specification states about them. *)

From Stdlib Require Import ZArith Lia Ascii.
From Stdlib Require Strings.Byte.
From stdpp Require Import gmap strings list.

Import Init.Byte.

Local Open Scope Z_scope.

(** ** Python values *)

(** A Python [bytes] or [bytearray] object: a sequence of integers in
    [range(256)]. *)
Abbreviation byte := Init.Byte.byte.
Abbreviation bytes := (list byte).

#[global] Instance byte_eq_dec : EqDecision byte := Byte.byte_eq_dec.

(** Reading an element of a [bytes] object gives a Python [int]. *)
Definition byte_to_int (b : byte) : Z := Z.of_N (Byte.to_N b).

(** The integers a [bytearray] accepts in an item assignment. *)
Definition int_to_byte (z : Z) : option byte :=
  if (0 <=? z) && (z <? 256) then Byte.of_N (Z.to_N z) else None.

(** The exceptions the modelled code can meet. [MarkupError] is raised
    by the console of [rich] on a text whose markup it cannot read; it
    carries the text of the exception. *)
Inductive exn : Type :=
  | IndexError
  | ValueError
  | FileNotFoundError
  | IsADirectoryError
  | NotADirectoryError
  | FileExistsError
  | MarkupError (text : string).

(** The result of evaluating a Python expression or block: a value, or a
    raised exception. *)
Inductive outcome (A : Type) : Type :=
  | Return (a : A)
  | Raise (e : exn).
Arguments Return {A} a.
Arguments Raise {A} e.

#[global] Instance outcome_ret : MRet outcome := @Return.
#[global] Instance outcome_bind : MBind outcome := fun A B f m =>
  match m with
  | Return a => f a
  | Raise e => Raise e
  end.

(** [seq[i]] for a Python sequence and an [int]: a negative index counts
    from the end, an index out of range raises [IndexError]. *)
Definition getitem {A : Type} (l : list A) (i : Z) : outcome A :=
  let j := if i <? 0 then i + Z.of_nat (length l) else i in
  if j <? 0 then Raise IndexError
  else match l !! Z.to_nat j with
       | Some x => Return x
       | None => Raise IndexError
       end.

(** [data[i] = v] for a [bytearray]: [v] must be in [range(256)]
    ([ValueError]) and [i] in range ([IndexError]). *)
Definition setitem (data : bytes) (i : Z) (v : Z) : outcome bytes :=
  match int_to_byte v with
  | None => Raise ValueError
  | Some b =>
      let j := if i <? 0 then i + Z.of_nat (length data) else i in
      if (j <? 0) || (Z.of_nat (length data) <=? j) then Raise IndexError
      else Return (<[Z.to_nat j := b]> data)
  end.

(** A [for] loop over a list of indices, threading the loop's variables;
    an exception in the body leaves the loop. *)
Fixpoint for_each {S I : Type} (body : S -> I -> outcome S)
    (items : list I) (st : S) : outcome S :=
  match items with
  | [] => Return st
  | i :: items' =>
      match body st i with
      | Return st' => for_each body items' st'
      | Raise e => Raise e
      end
  end.

(** ** The cipher engine: [decrypt_content] *)

(** One iteration of the loop of [decrypt_content] (lines 27-29); the
    loop's variables are [key_idx] and the buffer [data]. *)
Definition decrypt_step (key : bytes) (key_len : Z)
    (st : Z * bytes) (data_idx : nat) : outcome (Z * bytes) :=
  let '(key_idx, data) := st in
  if negb (Z.land (Z.of_nat data_idx) 1 =? 0) then
    k ← getitem key key_idx;
    let key_idx := Z.land (byte_to_int k + Z.of_nat data_idx + key_idx) (key_len - 1) in
    k' ← getitem key key_idx;
    d ← getitem data (Z.of_nat data_idx);
    data' ← setitem data (Z.of_nat data_idx)
              (Z.lxor (byte_to_int k') (Z.land (Z.lnot (byte_to_int d)) 255));
    Return (key_idx, data')
  else Return (key_idx, data).

(** The state of the loop after its first [n] iterations. *)
Definition decrypt_loop (key : bytes) (data : bytes) (n : nat) : outcome (Z * bytes) :=
  for_each (decrypt_step key (Z.of_nat (length key))) (seq 0 n) (0, data).

(** [decrypt_content]: [Return None] is Python's [None] (the header did not
    match), [Return (Some data)] the decoded buffer. *)
Definition decrypt_content (encrypted_content key header : bytes)
    : outcome (option bytes) :=
  if negb (bool_decide (take (length header) encrypted_content = header)) then
    Return None
  else
    let data := drop (length header) encrypted_content in
    if negb (bool_decide (data = [])) then
      st ← decrypt_loop key data (length data);
      Return (Some st.2)
    else Return (Some data).

(** ** The recurrence and the encoder, as the specification words them *)

(** The cursor [keyIdx] after the positions [0 .. n-1] have been visited:
    it starts at 0 and each odd position [i] replaces it by
    [(key[keyIdx] + i + keyIdx) AND (keyLen - 1)]. *)
Fixpoint spec_keyIdx (key : bytes) (n : nat) : option Z :=
  match n with
  | O => Some 0
  | S i =>
      keyIdx ← spec_keyIdx key i;
      if Nat.odd i then
        k ← key !! Z.to_nat keyIdx;
        Some (Z.land (byte_to_int k + Z.of_nat i + keyIdx) (Z.of_nat (length key) - 1))
      else Some keyIdx
  end.

(** The encoder of the specification's round-trip law, from position [i]
    on with cursor [keyIdx]: an odd position advances the cursor and
    stores [(NOT (key[keyIdx] XOR plain[i])) AND 0xFF], an even position is
    copied. *)
Fixpoint spec_encode_from (key : bytes) (i : nat) (keyIdx : Z) (plain : bytes)
    : option bytes :=
  match plain with
  | [] => Some []
  | p :: plain' =>
      if Nat.odd i then
        k ← key !! Z.to_nat keyIdx;
        let keyIdx' := Z.land (byte_to_int k + Z.of_nat i + keyIdx) (Z.of_nat (length key) - 1) in
        k' ← key !! Z.to_nat keyIdx';
        e ← int_to_byte (Z.land (Z.lnot (Z.lxor (byte_to_int k') (byte_to_int p))) 255);
        rest ← spec_encode_from key (S i) keyIdx' plain';
        Some (e :: rest)
      else
        rest ← spec_encode_from key (S i) keyIdx plain';
        Some (p :: rest)
  end.

Definition spec_encode (plain key : bytes) : option bytes :=
  spec_encode_from key 0 0 plain.

(** The recurrence with a true remainder in place of the mask, for
    comparison on keys whose length is not a power of two. *)
Definition spec_step_mod (key : bytes) (key_len : Z)
    (st : Z * bytes) (data_idx : nat) : outcome (Z * bytes) :=
  let '(key_idx, data) := st in
  if negb (Z.land (Z.of_nat data_idx) 1 =? 0) then
    k ← getitem key key_idx;
    let key_idx := (byte_to_int k + Z.of_nat data_idx + key_idx) mod key_len in
    k' ← getitem key key_idx;
    d ← getitem data (Z.of_nat data_idx);
    data' ← setitem data (Z.of_nat data_idx)
              (Z.lxor (byte_to_int k') (Z.land (Z.lnot (byte_to_int d)) 255));
    Return (key_idx, data')
  else Return (key_idx, data).

Definition spec_decode_mod (encoded key header : bytes) : outcome (option bytes) :=
  if negb (bool_decide (take (length header) encoded = header)) then Return None
  else
    let data := drop (length header) encoded in
    st ← for_each (spec_step_mod key (Z.of_nat (length key)))
           (seq 0 (length data)) (0, data);
    Return (Some st.2).

(** ** Paths: the part of [pathlib] the code uses (POSIX flavour) *)

(** A [Path] is the list of its parts; the part ["/"] at the head is the
    root of an absolute path, and the empty list is [Path(".")]. *)
Abbreviation path := (list string).

Fixpoint string_take (n : nat) (s : string) : string :=
  match n, s with
  | S n', String c s' => String c (string_take n' s')
  | _, _ => EmptyString
  end.

Fixpoint string_drop (n : nat) (s : string) : string :=
  match n, s with
  | S n', String _ s' => string_drop n' s'
  | _, _ => s
  end.

(** [c in s] for a one-character [c]. *)
Fixpoint contains_char (c : ascii) (s : string) : bool :=
  match s with
  | EmptyString => false
  | String a s' => Ascii.eqb a c || contains_char c s'
  end.

(** [s.rfind(c)]; [None] stands for Python's [-1]. *)
Fixpoint rfind (c : ascii) (s : string) : option nat :=
  match s with
  | EmptyString => None
  | String a s' =>
      match rfind c s' with
      | Some i => Some (S i)
      | None => if Ascii.eqb a c then Some O else None
      end
  end.

(** [s.startswith(c)] for a one-character [c]. *)
Definition startswith_char (c : ascii) (s : string) : bool :=
  match s with
  | String a _ => Ascii.eqb a c
  | EmptyString => false
  end.

(** [s.endswith(ext)]. *)
Definition endswith (s ext : string) : bool :=
  (String.length ext <=? String.length s)%nat
  && String.eqb (string_drop (String.length s - String.length ext) s) ext.

(** Splitting at every ["/"]. *)
Fixpoint split_sep (s : string) : list string :=
  match s with
  | EmptyString => [EmptyString]
  | String c s' =>
      if Ascii.eqb c "/" then EmptyString :: split_sep s'
      else match split_sep s' with
           | h :: t => String c h :: t
           | [] => [String c EmptyString]
           end
  end.

(** [Path(s)] for a string: empty and ["."] components disappear, a leading
    ["/"] is the root. *)
Definition parse_path (s : string) : path :=
  (if startswith_char "/" s then ["/"%string] else [])
  ++ filter (fun x => x <> EmptyString /\ x <> "."%string) (split_sep s).

Definition is_absolute (p : path) : bool :=
  bool_decide (head p = Some "/"%string).

(** [a / b]: an absolute right operand replaces the left one. *)
Definition joinpath (a b : path) : path :=
  if is_absolute b then b else a ++ b.

(** [p.name]: the last part, or [""] when [p] is the root or [Path(".")]. *)
Definition path_name (p : path) : string :=
  match last p with
  | Some n => if bool_decide (p = ["/"%string]) then EmptyString else n
  | None => EmptyString
  end.

(** [p.parent]. *)
Definition parent (p : path) : path :=
  if bool_decide (p = ["/"%string]) then p else removelast p.

(** [p.suffix]: the last dot of the name and what follows it, unless that
    dot opens or closes the name. *)
Definition name_suffix (name : string) : string :=
  match rfind "." name with
  | Some i =>
      if (0 <? i)%nat && (i <? String.length name - 1)%nat
      then string_drop i name else EmptyString
  | None => EmptyString
  end.

Definition path_suffix (p : path) : string := name_suffix (path_name p).

(** [p.with_suffix(suffix)]. *)
Definition with_suffix (p : path) (suffix : string) : outcome path :=
  if contains_char "/" suffix then Raise ValueError
  else if (negb (String.eqb suffix EmptyString) && negb (startswith_char "." suffix))
          || String.eqb suffix "." then Raise ValueError
  else
    let name := path_name p in
    if String.eqb name EmptyString then Raise ValueError
    else
      let old_suffix := path_suffix p in
      let name :=
        if String.eqb old_suffix EmptyString then name +:+ suffix
        else string_take (String.length name - String.length old_suffix) name +:+ suffix in
      Return (removelast p ++ [name]).

(** [p.relative_to(other)]. *)
Definition relative_to (p other : path) : outcome path :=
  let n := length other in
  if (if (n =? 0)%nat then is_absolute p else negb (bool_decide (take n p = other)))
  then Raise ValueError
  else Return (drop n p).

(** ** The file system, the console and the progress bar *)

Inductive node : Type :=
  | File (content : bytes)
  | Dir.

(** The lines the program prints with [console.print], each with the
    values its f-string interpolates: lines 44, 57 and 89, and those of
    [main] (lines 126, 146, 151, 155, 163, 176, 185 and 191). *)
Inductive message : Type :=
  | MsgSkipping (input_file output_file : path)
  | MsgError (input_file : path) (e : exn)
  | MsgNoFiles (extension : string)
  | MsgInvalidHex
  | MsgDecryptingFile (input_path : path)
  | MsgSuccess (output_file : path)
  | MsgFailed (input_path : path)
  | MsgOutputMustBeDirectory
  | MsgRecursively (input_path : path)
  | MsgComplete (success_count total_count : nat)
  | MsgException (e : exn).

(** What a run does to its environment, oldest event first. [EvPrint] is a
    line that reached the console, [EvTraceback] the traceback that
    [console.print_exception] shows (line 190). *)
Inductive event : Type :=
  | EvExists (p : path)
  | EvRead (p : path)
  | EvMkdir (p : path)
  | EvWrite (p : path) (data : bytes)
  | EvPrint (m : message)
  | EvTraceback (e : exn)
  | EvProgressStart
  | EvProgressAddTask (total : nat)
  | EvProgressDescription (name : string)
  | EvProgressCompleted (completed : nat)
  | EvProgressStop.

Record world : Type := World {
  w_fs : gmap path node;
  w_log : list event
}.

(** The file system is a map from paths, as lists of parts, to nodes: it
    has no links, and a path is looked up as it is written, so that a part
    [..] is not resolved. The current directory and the root always
    exist. *)
Definition fs_lookup (fs : gmap path node) (p : path) : option node :=
  if bool_decide (p = [] \/ p = ["/"%string]) then Some Dir else fs !! p.

Definition is_dir (fs : gmap path node) (p : path) : bool :=
  match fs_lookup fs p with
  | Some Dir => true
  | _ => false
  end.

(** Whether the path goes through a regular file: one of its proper
    prefixes is a file. *)
Definition through_file (fs : gmap path node) (p : path) : bool :=
  existsb (fun n => match fs_lookup fs (take n p) with
                    | Some (File _) => true
                    | _ => false
                    end)
    (seq 1 (length p - 1)).

(** The error of a system call on a path that does not exist: [ENOTDIR]
    when the path goes through a regular file, [ENOENT] otherwise. *)
Definition absent_error (fs : gmap path node) (p : path) : exn :=
  if through_file fs p then NotADirectoryError else FileNotFoundError.

(** [os.mkdir(p)]. *)
Definition os_mkdir (p : path) (fs : gmap path node) : outcome (gmap path node) :=
  match fs_lookup fs p with
  | Some _ => Raise FileExistsError
  | None =>
      match fs_lookup fs (parent p) with
      | Some Dir => Return (<[p := Dir]> fs)
      | Some (File _) => Raise NotADirectoryError
      | None => Raise (absent_error fs p)
      end
  end.

(** [p.mkdir(parents=True, exist_ok=True)] as [pathlib] writes it: try
    [os.mkdir], on [FileNotFoundError] make the parent first and try again,
    and accept any other error when [p] is a directory already. The fuel
    bounds the recursion on the parents. *)
Fixpoint mkdir_rec (fuel : nat) (p : path) (fs : gmap path node)
    : outcome (gmap path node) :=
  match os_mkdir p fs with
  | Return fs' => Return fs'
  | Raise FileNotFoundError =>
      match fuel with
      | O => Raise FileNotFoundError
      | S fuel' =>
          if bool_decide (parent p = p) then Raise FileNotFoundError
          else
            fs1 ← mkdir_rec fuel' (parent p) fs;
            match os_mkdir p fs1 with
            | Return fs2 => Return fs2
            | Raise e => if is_dir fs1 p then Return fs1 else Raise e
            end
      end
  | Raise e => if is_dir fs p then Return fs else Raise e
  end.

(** [open(p, "wb")] followed by the write. *)
Definition fs_write (p : path) (data : bytes) (fs : gmap path node)
    : outcome (gmap path node) :=
  match fs_lookup fs p with
  | Some Dir => Raise IsADirectoryError
  | Some (File _) => Return (<[p := File data]> fs)
  | None =>
      match fs_lookup fs (parent p) with
      | Some Dir => Return (<[p := File data]> fs)
      | Some (File _) => Raise NotADirectoryError
      | None => Raise (absent_error fs p)
      end
  end.

(** [open(p, "rb")] followed by the read. *)
Definition fs_read (p : path) (fs : gmap path node) : outcome bytes :=
  match fs_lookup fs p with
  | Some (File content) => Return content
  | Some Dir => Raise IsADirectoryError
  | None => Raise (absent_error fs p)
  end.

(** Code that reads and changes the world and may raise: the world it
    leaves is kept also when it raises. *)
Definition io (A : Type) : Type := world -> outcome A * world.

#[global] Instance io_ret : MRet io := fun A a w => (Return a, w).
#[global] Instance io_bind : MBind io := fun A B f m w =>
  match m w with
  | (Return a, w') => f a w'
  | (Raise e, w') => (Raise e, w')
  end.

Definition lift {A : Type} (o : outcome A) : io A := fun w => (o, w).

Definition log_event (e : event) (w : world) : world :=
  World (w_fs w) (w_log w ++ [e]).

Definition emit (e : event) : io unit :=
  fun w => (Return tt, log_event e w).

(** [try: m except Exception as e: handler e]. *)
Definition try_except {A : Type} (m : io A) (handler : exn -> io A) : io A :=
  fun w =>
    match m w with
    | (Return a, w') => (Return a, w')
    | (Raise e, w') => handler e w'
    end.

Definition path_exists (p : path) : io bool := fun w =>
  (Return (bool_decide (is_Some (fs_lookup (w_fs w) p))), log_event (EvExists p) w).

Definition read_bytes (p : path) : io bytes := fun w =>
  (fs_read p (w_fs w), log_event (EvRead p) w).

Definition mkdir_parents (p : path) : io unit := fun w =>
  match mkdir_rec (length p) p (w_fs w) with
  | Return fs' => (Return tt, World fs' (w_log w ++ [EvMkdir p]))
  | Raise e => (Raise e, log_event (EvMkdir p) w)
  end.

Definition write_bytes (p : path) (data : bytes) : io unit := fun w =>
  match fs_write p data (w_fs w) with
  | Return fs' => (Return tt, World fs' (w_log w ++ [EvWrite p data]))
  | Raise e => (Raise e, log_event (EvWrite p data) w)
  end.

(** The messages whose text holds a value of the run: a path, the
    extension or the text of an exception. The other lines are constants of
    the source (lines 126 and 163) or hold two counts only (line 185), and
    their markup is well formed. *)
Definition interpolated (m : message) : bool :=
  match m with
  | MsgInvalidHex | MsgOutputMustBeDirectory | MsgComplete _ _ => false
  | _ => true
  end.

Section Console.

(** How [rich] reads a message as console markup. [console.print] parses
    the whole text, interpolated values included: it raises [MarkupError]
    on a closing tag that matches no open one, as in the path [d[/x].php],
    before anything is shown. [None] is a text that renders, [Some text]
    one that raises [MarkupError(text)]. *)
Variable markup_error : message -> option string.

(** [console.print(m)]. *)
Definition console_print (m : message) : io unit := fun w =>
  match (if interpolated m then markup_error m else None) with
  | None => (Return tt, log_event (EvPrint m) w)
  | Some text => (Raise (MarkupError text), w)
  end.

Fixpoint io_for_each {S I : Type} (body : S -> I -> io S)
    (items : list I) (st : S) : io S :=
  match items with
  | [] => mret st
  | i :: items' => st' ← body st i; io_for_each body items' st'
  end.

(** ** The file decoder: [decrypt_file] *)

(** The handler of [decrypt_file] (line 57), followed by the [return
    False] of line 59: the print is not guarded, so an exception it raises
    leaves the function. *)
Definition report_error (input_file : path) (e : exn) : io bool :=
  _ ← console_print (MsgError input_file e);
  mret false.

Definition decrypt_file (input_file output_file : path) (key header : bytes)
    (overwrite : bool) : io bool :=
  try_except
    (skip ← (if negb overwrite then path_exists output_file else (mret false : io bool));
     if (skip : bool) then
       _ ← console_print (MsgSkipping input_file output_file);
       mret false
     else
       encrypted_content ← read_bytes input_file;
       decrypted_content ← lift (decrypt_content encrypted_content key header);
       match decrypted_content with
       | Some ((_ :: _) as decrypted_content) =>
           _ ← mkdir_parents (parent output_file);
           _ ← write_bytes output_file decrypted_content;
           mret true
       | _ => mret false
       end)
    (report_error input_file).

(** ** The batch walker: [process_directory] *)

(** The output path of one matched file (lines 75-81). *)
Definition file_task (input_dir output_dir root_path : path) (file : string)
    : outcome (path * path) :=
  let input_file := joinpath root_path (parse_path file) in
  rel_path ← relative_to input_file input_dir;
  output_file ←
    (if bool_decide (output_dir <> input_dir) then Return (joinpath output_dir rel_path)
     else with_suffix input_file (path_suffix input_file +:+ ".decoded"));
  Return (input_file, output_file).

(** The body of the inner loop (lines 74-83), over the names of the files
    of one directory. *)
Definition collect_file (input_dir output_dir : path) (extension : string)
    (root_path : path) (files_to_process : list (path * path)) (file : string)
    : outcome (list (path * path)) :=
  if endswith file extension then
    task ← file_task input_dir output_dir root_path file;
    Return (files_to_process ++ [task])
  else Return files_to_process.

(** The body of the outer loop (lines 71-73), over what [os.walk] yields:
    for each directory its path, the names of its subdirectories and the
    names of its files. *)
Definition collect_directory (input_dir output_dir : path) (extension : string)
    (files_to_process : list (path * path))
    (entry : path * list string * list string) : outcome (list (path * path)) :=
  let '(root_path, _, files) := entry in
  for_each (collect_file input_dir output_dir extension root_path) files files_to_process.

(** The two nested loops that fill [files_to_process] (lines 70-83). *)
Definition collect_files (input_dir output_dir : path) (extension : string)
    (walk : list (path * list string * list string)) : outcome (list (path * path)) :=
  for_each (collect_directory input_dir output_dir extension) walk [].

(** One iteration of the decoding loop (lines 95-103); the loop's variable
    is [success_count]. The description of the progress bar holds the name
    of the file only: a name has no [/] and so no closing tag, and its
    markup is read without error. The call of [decrypt_file] is not
    guarded: an exception it raises leaves the loop. *)
Definition process_step (key header : bytes) (overwrite : bool)
    (success_count : nat) (item : nat * (path * path)) : io nat :=
  let '(idx, (input_file, output_file)) := item in
  _ ← emit (EvProgressDescription (path_name input_file));
  ok ← decrypt_file input_file output_file key header overwrite;
  let success_count := if (ok : bool) then S success_count else success_count in
  _ ← emit (EvProgressCompleted (idx + 1));
  mret success_count.

(** [with Progress() as progress: body]: the bar is started, and it is
    stopped when the block is left, by its end or by an exception. *)
Definition with_progress {A : Type} (body : io A) : io A := fun w =>
  let r := body (log_event EvProgressStart w) in
  (r.1, log_event EvProgressStop r.2).

Section Walk.

(** [os.walk]: the enumeration of the tree under a directory, in the
    order the file system gives. *)
Variable os_walk : gmap path node -> path -> list (path * list string * list string).

Definition process_directory (input_dir output_dir : path) (key header : bytes)
    (extension : string) (overwrite : bool) : io (nat * nat) :=
  fun w =>
    (files_to_process ← lift (collect_files input_dir output_dir extension
                                (os_walk (w_fs w) input_dir));
     let total_count := length files_to_process in
     if (total_count =? 0)%nat then
       _ ← console_print (MsgNoFiles extension);
       mret (O, O)
     else
       success_count ←
         with_progress
           (_ ← emit (EvProgressAddTask total_count);
            io_for_each (process_step key header overwrite)
              (imap (fun idx task => (idx, task)) files_to_process) O);
       mret (success_count, total_count)) w.

End Walk.

(** ** The loop invariant of [decrypt_content] *)

(** Position [j] of the buffer [out] holds what the specification asks of a
    decoded position: an odd one the key byte under the advanced cursor
    XOR the complement of the input byte, an even one the input byte. *)
Definition decoded_at (key data out : bytes) (j : nat) : Prop :=
  if Nat.odd j then
    exists (keyIdx : Z) (k dv : byte),
      spec_keyIdx key (S j) = Some keyIdx
      /\ key !! Z.to_nat keyIdx = Some k
      /\ data !! j = Some dv
      /\ byte_to_int <$> (out !! j)
         = Some (Z.lxor (byte_to_int k) (Z.land (Z.lnot (byte_to_int dv)) 255))
  else out !! j = data !! j.

(** After [n] iterations: the cursor is the specification's, the first [n]
    positions are decoded and the others untouched. *)
Definition loop_inv (key data : bytes) (n : nat) (key_idx : Z) (d : bytes) : Prop :=
  0 <= key_idx
  /\ spec_keyIdx key n = Some key_idx
  /\ length d = length data
  /\ (forall j, (n <= j)%nat -> d !! j = data !! j)
  /\ (forall j, (j < n)%nat -> decoded_at key data d j).

(** ** Observing a run *)

(** The events a run added to the log: [w] is the world before and [w']
    the world after. *)
Definition events_since (w w' : world) : list event :=
  drop (length (w_log w)) (w_log w').

(** The events that change the file system. *)
Definition is_mutation (e : event) : bool :=
  match e with
  | EvMkdir _ | EvWrite _ _ => true
  | _ => false
  end.

(** The events that read the content of a file. *)
Definition is_read (e : event) : bool :=
  match e with
  | EvRead _ => true
  | _ => false
  end.

(** The world after the test [not overwrite and output_file.exists()]. *)
Definition after_check (output_file : path) (overwrite : bool) (w : world) : world :=
  if overwrite then w else log_event (EvExists output_file) w.

(** A call of [decrypt_file] that did not succeed: it returned [False],
    or the print of its handler raised. *)
Definition failed (r : outcome bool) : Prop :=
  r = Return false \/ exists text : string, r = Raise (MarkupError text).

(** Code whose effect on the file system stays within the relation [R],
    whatever it returns or raises. *)
Definition keeps {A : Type} (R : gmap path node -> gmap path node -> Prop)
    (m : io A) : Prop :=
  forall w : world, R (w_fs w) (w_fs (m w).2).

(** ** Sample worlds *)

(** A directory [in] with an encoded file [in/a.php] (header [AB], body
    [10 20]), a file [in/e.php] that is the header alone, a file [in/x.php]
    with another header, and an earlier output [out/a.php]. *)
Definition sample_fs : gmap path node :=
  <[ ["in"; "a.php"]%string := File [x41; x42; x10; x20] ]>
  (<[ ["in"; "e.php"]%string := File [x41; x42] ]>
  (<[ ["in"; "x.php"]%string := File [x43; x44; x10] ]>
  (<[ ["out"; "a.php"]%string := File [x6f; x6c; x64] ]>
  (<[ ["out"]%string := Dir ]>
  (<[ ["in"]%string := Dir ]> ∅))))).

Definition sample_world : world := World sample_fs [].

(** [str(p)] for a path. *)
Definition path_str (p : path) : string :=
  match p with
  | [] => "."
  | first :: rest =>
      if String.eqb first "/" then "/" +:+ String.concat "/" rest
      else String.concat "/" p
  end.

Fixpoint has_substring (sub s : string) : bool :=
  String.prefix sub s
  || match s with
     | EmptyString => false
     | String _ s' => has_substring sub s'
     end.

(** The texts a message interpolates; of an exception, the text of a
    markup error. *)
Definition interpolations (m : message) : list string :=
  let exn_text (e : exn) : string :=
    match e with
    | MarkupError text => text
    | _ => EmptyString
    end in
  match m with
  | MsgSkipping input_file output_file => [path_str input_file; path_str output_file]
  | MsgError input_file e => [path_str input_file; exn_text e]
  | MsgNoFiles extension => [extension]
  | MsgDecryptingFile p | MsgSuccess p | MsgFailed p | MsgRecursively p => [path_str p]
  | MsgException e => [exn_text e]
  | MsgInvalidHex | MsgOutputMustBeDirectory | MsgComplete _ _ => []
  end.

(** A sample console: it rejects a message when a text it interpolates
    holds the closing tag [[/x]], which no line of the program opens, with
    an error text that quotes the tag as the text of [rich] does; it
    renders every other message. The directory [d[] with the file
    [x].php] makes the path [d[/x].php]. *)
Definition sample_markup_error (m : message) : option string :=
  if existsb (has_substring "[/x]") (interpolations m)
  then Some "closing tag '[/x]' doesn't match any open tag"%string
  else None.

(** ** What [os.walk] yields, and the expected tasks *)

(** A name that [os.walk] can list: one path component. *)
Definition valid_name (s : string) : bool :=
  negb (String.eqb s EmptyString) && negb (String.eqb s ".")
  && negb (contains_char "/" s).

(** An entry of the walk of [input_dir]: the directory lies under
    [input_dir] and the listed files have valid names. *)
Definition walk_entry_ok (input_dir : path)
    (entry : path * list string * list string) : bool :=
  let '(root_path, _, files) := entry in
  bool_decide (take (length input_dir) root_path = input_dir)
  && forallb valid_name (drop (length input_dir) root_path)
  && forallb valid_name files.

Definition walk_ok (input_dir : path)
    (walk : list (path * list string * list string)) : bool :=
  forallb (walk_entry_ok input_dir) walk.

(** The files of the walk whose name ends with the extension, each with
    the directory that lists it, in the order of the walk. *)
Definition matched_files (extension : string)
    (walk : list (path * list string * list string)) : list (path * string) :=
  flat_map
    (fun '(root_path, _, files) =>
       pair root_path <$> filter (fun file => endswith file extension = true) files)
    walk.

(** The output path the specification gives to a matched file. *)
Definition spec_output_path (input_dir output_dir root_path : path) (file : string) : path :=
  if bool_decide (output_dir <> input_dir)
  then output_dir ++ drop (length input_dir) (root_path ++ [file])
  else root_path ++ [file +:+ ".decoded"].

Definition spec_task (input_dir output_dir : path) (m : path * string) : path * path :=
  (m.1 ++ [m.2], spec_output_path input_dir output_dir m.1 m.2).

(** The results of [decrypt_file] on the tasks, one after the other, each
    on the file system the previous ones left. *)
Fixpoint decode_outcomes (key header : bytes) (overwrite : bool)
    (tasks : list (path * path)) (fs : gmap path node) : list bool :=
  match tasks with
  | [] => []
  | (input_file, output_file) :: tasks' =>
      let r := decrypt_file input_file output_file key header overwrite (World fs []) in
      match r.1 with
      | Return true => true
      | _ => false
      end :: decode_outcomes key header overwrite tasks' (w_fs r.2)
  end.

Definition successes (outcomes : list bool) : nat :=
  length (filter (fun b : bool => b = true) outcomes).

(** The console renders what [decrypt_file] may print on a task: the skip
    line and the error line of the handler, whatever the exception. *)
Definition task_renders (task : path * path) : Prop :=
  markup_error (MsgSkipping task.1 task.2) = None
  /\ forall e : exn, markup_error (MsgError task.1 e) = None.

(** A sample of what [os.walk] yields on [in]: two files in [in], one of
    them matching [.php], and one in [in/s]. *)
Definition sample_walk : list (path * list string * list string) :=
  [ (["in"], ["s"], ["a.php"; "b.txt"]);
    (["in"; "s"], [], ["c.php"]) ]%string.

(** [os.walk] on the sample: it yields [sample_walk] whatever it is asked. *)
Definition sample_os_walk (fs : gmap path node) (top : path)
    : list (path * list string * list string) := sample_walk.

(** ** Relations between file systems *)

(** [fs'] has every entry of [fs], unchanged. *)
Definition fs_extends (fs fs' : gmap path node) : Prop :=
  forall (q : path) (n : node), fs_lookup fs q = Some n -> fs_lookup fs' q = Some n.

Definition same_kind (n n' : node) : Prop :=
  match n, n' with
  | File _, File _ => True
  | Dir, Dir => True
  | _, _ => False
  end.

(** [fs'] has every path of [fs], a file where [fs] has a file and a
    directory where [fs] has a directory. *)
Definition fs_keeps_kinds (fs fs' : gmap path node) : Prop :=
  forall (q : path) (n : node),
    fs_lookup fs q = Some n ->
    exists n', fs_lookup fs' q = Some n' /\ same_kind n n'.

(** ** The command line: [main] *)

(** The two ways [binascii.unhexlify] rejects a string: a character that
    is not ASCII raises a plain [ValueError]; an odd length or a character
    that is not a hexadecimal digit raises [binascii.Error], the exception
    the code catches at line 124. *)
Inductive hex_error : Type :=
  | NonAscii
  | BinasciiError.

(** The value of a hexadecimal digit, in either case. *)
Definition hex_digit (c : ascii) : option Z :=
  let n := Z.of_N (N_of_ascii c) in
  if (48 <=? n) && (n <=? 57) then Some (n - 48)
  else if (97 <=? n) && (n <=? 102) then Some (n - 87)
  else if (65 <=? n) && (n <=? 70) then Some (n - 55)
  else None.

Fixpoint unhex_pairs (s : string) : option bytes :=
  match s with
  | EmptyString => Some []
  | String _ EmptyString => None
  | String a (String b s') =>
      top ← hex_digit a;
      bot ← hex_digit b;
      byte ← int_to_byte (16 * top + bot);
      rest ← unhex_pairs s';
      Some (byte :: rest)
  end.

Fixpoint is_ascii_string (s : string) : bool :=
  match s with
  | EmptyString => true
  | String c s' => (Z.of_N (N_of_ascii c) <? 128) && is_ascii_string s'
  end.

(** [binascii.unhexlify(s)] for a string. *)
Definition unhexlify (s : string) : hex_error + bytes :=
  if negb (is_ascii_string s) then inl NonAscii
  else match unhex_pairs s with
       | Some b => inr b
       | None => inl BinasciiError
       end.

Definition is_file (fs : gmap path node) (p : path) : bool :=
  match fs_lookup fs p with
  | Some (File _) => true
  | _ => false
  end.

Definition exists_in (fs : gmap path node) (p : path) : bool :=
  bool_decide (is_Some (fs_lookup fs p)).

(** The output file of the file mode (lines 135-144); [output_path] is
    [None] when [--output] is absent or empty. *)
Definition resolve_output_file (fs : gmap path node) (input_path : path)
    (output_path : option path) : outcome path :=
  match output_path with
  | None => with_suffix input_path (path_suffix input_path +:+ ".decoded")
  | Some output_path =>
      if exists_in fs output_path && is_dir fs output_path
      then Return (joinpath output_path (parse_path (path_name input_path)))
      else Return output_path
  end.

(** The file mode (lines 134-156). *)
Definition main_file_mode (input_path : path) (output_path : option path)
    (key_bytes header_bytes : bytes) (overwrite : bool) : io unit :=
  fun w =>
    (output_file ← lift (resolve_output_file (w_fs w) input_path output_path);
     _ ← console_print (MsgDecryptingFile input_path);
     ok ← decrypt_file input_path output_file key_bytes header_bytes overwrite;
     if (ok : bool) then console_print (MsgSuccess output_file)
     else console_print (MsgFailed input_path)) w.

(** The outer handler of [main] (lines 189-191): the traceback, then the
    error line, whose print is not guarded. *)
Definition main_handler (e : exn) : io unit :=
  _ ← emit (EvTraceback e);
  console_print (MsgException e).

Section Main.

Variable os_walk : gmap path node -> path -> list (path * list string * list string).

(** The output directory of the directory mode (lines 169-173). *)
Definition prepare_output_dir (input_path : path) (output_path : option path)
    : io path :=
  fun w =>
    match output_path with
    | None => (Return input_path, w)
    | Some o =>
        if negb (exists_in (w_fs w) o) then (_ ← mkdir_parents o; mret o) w
        else (Return o, w)
    end.

(** The directory mode (lines 159-187). *)
Definition main_dir_mode (input_path : path) (output_path : option path)
    (key_bytes header_bytes : bytes) (ext : string) (overwrite : bool) : io unit :=
  fun w =>
    let rejected :=
      match output_path with
      | Some o => exists_in (w_fs w) o && negb (is_dir (w_fs w) o)
      | None => false
      end in
    if rejected then console_print MsgOutputMustBeDirectory w
    else
      (output_path ← prepare_output_dir input_path output_path;
       _ ← console_print (MsgRecursively input_path);
       counts ← process_directory os_walk input_path output_path key_bytes
                  header_bytes ext overwrite;
       console_print (MsgComplete counts.1 counts.2)) w.

(** The body of the outer [try] of [main] (lines 121-187). A string that
    is not ASCII makes [unhexlify] raise a plain [ValueError], which the
    inner handler does not catch. The tests [is_file], [is_dir] and
    [exists] of [main] read the file system and leave no event. *)
Definition main_body (input_path : path) (output_path : option path)
    (key header ext : string) (overwrite : bool) : io unit :=
  fun w =>
    match unhexlify key with
    | inl BinasciiError => console_print MsgInvalidHex w
    | inl NonAscii => (Raise ValueError, w)
    | inr key_bytes =>
        match unhexlify header with
        | inl BinasciiError => console_print MsgInvalidHex w
        | inl NonAscii => (Raise ValueError, w)
        | inr header_bytes =>
            if is_file (w_fs w) input_path then
              main_file_mode input_path output_path key_bytes header_bytes overwrite w
            else if is_dir (w_fs w) input_path then
              main_dir_mode input_path output_path key_bytes header_bytes ext overwrite w
            else (Return tt, w)
        end
    end.

(** [main], from the values [click] passes: [input_path] and
    [output_path] are the [Path] objects of lines 130-131, [key] and
    [header] the strings of the options. What it prints and does is in the
    log of the world it leaves; it raises when the error line of the outer
    handler does. *)
Definition main (input_path : path) (output_path : option path)
    (key header ext : string) (overwrite : bool) : io unit :=
  try_except (main_body input_path output_path key header ext overwrite) main_handler.

End Main.

(** ** Integers and bytes *)

Lemma byte_to_int_range (b : byte) : 0 <= byte_to_int b < 256.
Proof.
  unfold byte_to_int. pose proof (Byte.to_N_bounded b). lia.
Qed.

Lemma int_to_byte_to_int (b : byte) : int_to_byte (byte_to_int b) = Some b.
Proof.
  unfold int_to_byte. pose proof (byte_to_int_range b) as Hb.
  replace (0 <=? byte_to_int b) with true by (symmetry; apply Z.leb_le; lia).
  replace (byte_to_int b <? 256) with true by (symmetry; apply Z.ltb_lt; lia).
  simpl. unfold byte_to_int. rewrite N2Z.id. apply Byte.of_to_N.
Qed.

Lemma int_to_byte_Some (z : Z) :
  0 <= z < 256 -> exists b, int_to_byte z = Some b /\ byte_to_int b = z.
Proof.
  intros Hz. unfold int_to_byte.
  replace (0 <=? z) with true by (symmetry; apply Z.leb_le; lia).
  replace (z <? 256) with true by (symmetry; apply Z.ltb_lt; lia).
  simpl. destruct (Byte.of_N (Z.to_N z)) as [b|] eqn:E.
  - exists b. split; [reflexivity|].
    unfold byte_to_int. rewrite (Byte.to_of_N _ E). lia.
  - apply Byte.of_N_None_iff in E. lia.
Qed.

(** The mask: [x AND m] lies in [0 .. m] for every integer [x], as soon as
    [m] is not negative. *)
Lemma land_mask_range (x m : Z) : 0 <= m -> 0 <= Z.land x m <= m.
Proof.
  intros Hm. split.
  - apply Z.land_nonneg. now right.
  - pose proof (Z.sub_land_same_l m x) as Hs.
    assert (0 <= Z.land m (Z.lnot x)) by (apply Z.land_nonneg; now left).
    rewrite (Z.land_comm x m). lia.
Qed.

Lemma testbit_byte_high (z n : Z) : 0 <= z < 256 -> 8 <= n -> Z.testbit z n = false.
Proof.
  intros Hz Hn.
  apply (proj1 (Z.bounded_iff_bits_nonneg' 8 z ltac:(lia) ltac:(lia))); [|lia].
  change (2 ^ 8) with 256. lia.
Qed.

Lemma testbit_255 (n : Z) : 0 <= n -> Z.testbit 255 n = (n <? 8).
Proof.
  intros Hn. change 255 with (Z.ones 8).
  destruct (Z.ltb_spec n 8).
  - apply Z.ones_spec_low. lia.
  - apply Z.ones_spec_high. lia.
Qed.

(** The value stored at an odd position fits a byte. *)
Lemma decoded_value_range (k d : Z) :
  0 <= k < 256 -> 0 <= Z.lxor k (Z.land (Z.lnot d) 255) < 256.
Proof.
  intros Hk.
  assert (H0 : 0 <= Z.lxor k (Z.land (Z.lnot d) 255)).
  { apply Z.lxor_nonneg. split; intros _; [|lia].
    apply Z.land_nonneg. right. lia. }
  change 256 with (2 ^ 8).
  apply (proj2 (Z.bounded_iff_bits_nonneg' 8 _ ltac:(lia) H0)).
  intros l Hl. rewrite Z.lxor_spec, Z.land_spec, testbit_255 by lia.
  rewrite (testbit_byte_high k l) by lia.
  destruct (Z.ltb_spec l 8); [lia|]. now rewrite andb_false_r.
Qed.

Lemma encoded_value_range (x : Z) : 0 <= Z.land (Z.lnot x) 255 < 256.
Proof. pose proof (land_mask_range (Z.lnot x) 255). lia. Qed.

(** Decoding an encoded byte with the same key byte gives the plain byte. *)
Lemma decode_encode_byte (k p : Z) :
  0 <= k < 256 -> 0 <= p < 256 ->
  Z.lxor k (Z.land (Z.lnot (Z.land (Z.lnot (Z.lxor k p)) 255)) 255) = p.
Proof.
  intros Hk Hp. apply Z.bits_inj'. intros n Hn.
  rewrite Z.lxor_spec, Z.land_spec, testbit_255 by lia.
  destruct (Z.ltb_spec n 8).
  - rewrite Z.lnot_spec, Z.land_spec, testbit_255 by lia.
    rewrite Z.lnot_spec, Z.lxor_spec by lia.
    destruct (Z.ltb_spec n 8); [|lia].
    destruct (Z.testbit k n), (Z.testbit p n); reflexivity.
  - rewrite (testbit_byte_high k n), (testbit_byte_high p n) by lia.
    now rewrite andb_false_r.
Qed.

Lemma Z_odd_of_nat (i : nat) : Z.odd (Z.of_nat i) = Nat.odd i.
Proof.
  induction i as [|i IH]; [reflexivity|].
  rewrite Nat2Z.inj_succ, Z.odd_succ, Nat.odd_succ, <- Z.negb_odd, IH.
  apply Nat.negb_odd.
Qed.

(** The parity test [(data_idx & 1) != 0]. *)
Lemma land_1_odd (i : nat) : negb (Z.land (Z.of_nat i) 1 =? 0) = Nat.odd i.
Proof.
  change 1 with (Z.ones 1). rewrite Z.land_ones by lia.
  change (2 ^ 1) with 2.
  rewrite Zmod_odd, Z_odd_of_nat. now destruct (Nat.odd i).
Qed.

(** ** The outcome monad and the loop *)

Lemma bind_Return_inv {A B : Type} (m : outcome A) (f : A -> outcome B) (b : B) :
  m ≫= f = Return b -> exists a, m = Return a /\ f a = Return b.
Proof. destruct m as [a|e]; [eauto|discriminate]. Qed.

Lemma for_each_app {S I : Type} (body : S -> I -> outcome S) (l1 l2 : list I) (st : S) :
  for_each body (l1 ++ l2) st = for_each body l1 st ≫= for_each body l2.
Proof.
  revert st. induction l1 as [|i l1 IH]; intros st; simpl; [reflexivity|].
  destruct (body st i) as [st'|e]; [apply IH|reflexivity].
Qed.

(** One more iteration is one more step from the state reached so far. *)
Lemma decrypt_loop_S (key data : bytes) (n : nat) :
  decrypt_loop key data (S n) =
  decrypt_loop key data n ≫= fun st => decrypt_step key (Z.of_nat (length key)) st n.
Proof.
  unfold decrypt_loop. rewrite seq_S, for_each_app. simpl.
  destruct (for_each _ (seq 0 n) (0, data)) as [st|e]; simpl; [|reflexivity].
  now destruct (decrypt_step key (Z.of_nat (length key)) st n).
Qed.

Lemma getitem_nonneg {A : Type} (l : list A) (i : Z) :
  0 <= i ->
  getitem l i = match l !! Z.to_nat i with
                | Some x => Return x
                | None => Raise IndexError
                end.
Proof.
  intros Hi. unfold getitem.
  destruct (Z.ltb_spec i 0); [lia|].
  destruct (Z.ltb_spec i 0); [lia|reflexivity].
Qed.

Lemma getitem_Return_inv {A : Type} (l : list A) (i : Z) (x : A) :
  0 <= i -> getitem l i = Return x -> l !! Z.to_nat i = Some x.
Proof.
  intros Hi. rewrite getitem_nonneg by assumption.
  destruct (l !! Z.to_nat i); [congruence|discriminate].
Qed.

Lemma setitem_in_range (data : bytes) (i : nat) (v : Z) (b : byte) :
  int_to_byte v = Some b -> (i < length data)%nat ->
  setitem data (Z.of_nat i) v = Return (<[i := b]> data).
Proof.
  intros Hb Hi. unfold setitem. rewrite Hb.
  destruct (Z.ltb_spec (Z.of_nat i) 0); [lia|].
  destruct (Z.ltb_spec (Z.of_nat i) 0); [lia|].
  destruct (Z.leb_spec (Z.of_nat (length data)) (Z.of_nat i)); [lia|].
  simpl. now rewrite Nat2Z.id.
Qed.

Lemma decrypt_step_even (key : bytes) (L : Z) (st : Z * bytes) (i : nat) :
  Nat.odd i = false -> decrypt_step key L st i = Return st.
Proof.
  intros Hi. destruct st as [kidx d]. unfold decrypt_step.
  now rewrite land_1_odd, Hi.
Qed.

(** An odd step, when its three reads succeed. *)
Lemma decrypt_step_odd (key : bytes) (L kidx : Z) (d : bytes) (i : nat) (k k' dv : byte) :
  Nat.odd i = true -> 0 <= kidx ->
  key !! Z.to_nat kidx = Some k ->
  0 <= Z.land (byte_to_int k + Z.of_nat i + kidx) (L - 1) ->
  key !! Z.to_nat (Z.land (byte_to_int k + Z.of_nat i + kidx) (L - 1)) = Some k' ->
  d !! i = Some dv ->
  exists b, byte_to_int b = Z.lxor (byte_to_int k') (Z.land (Z.lnot (byte_to_int dv)) 255)
    /\ decrypt_step key L (kidx, d) i =
       Return (Z.land (byte_to_int k + Z.of_nat i + kidx) (L - 1), <[i := b]> d).
Proof.
  intros Hi Hk0 Hk Hk0' Hk' Hd.
  destruct (int_to_byte_Some (Z.lxor (byte_to_int k') (Z.land (Z.lnot (byte_to_int dv)) 255)))
    as (b & Hb & Hbv).
  { apply decoded_value_range, byte_to_int_range. }
  exists b. split; [exact Hbv|].
  unfold decrypt_step. rewrite land_1_odd, Hi. simpl.
  rewrite (getitem_nonneg key kidx Hk0), Hk. simpl.
  rewrite (getitem_nonneg key _ Hk0'), Hk'. simpl.
  rewrite (getitem_nonneg d (Z.of_nat i)) by lia. rewrite Nat2Z.id, Hd. simpl.
  rewrite (setitem_in_range d i _ b Hb); [reflexivity|].
  now apply lookup_lt_Some in Hd.
Qed.

(** An odd step that returns made its three reads. *)
Lemma decrypt_step_odd_inv (key : bytes) (L kidx : Z) (d : bytes) (i : nat) (st' : Z * bytes) :
  Nat.odd i = true -> 0 <= kidx ->
  decrypt_step key L (kidx, d) i = Return st' ->
  exists k k' dv b,
    key !! Z.to_nat kidx = Some k
    /\ 0 <= Z.land (byte_to_int k + Z.of_nat i + kidx) (L - 1)
    /\ key !! Z.to_nat (Z.land (byte_to_int k + Z.of_nat i + kidx) (L - 1)) = Some k'
    /\ d !! i = Some dv
    /\ byte_to_int b = Z.lxor (byte_to_int k') (Z.land (Z.lnot (byte_to_int dv)) 255)
    /\ st' = (Z.land (byte_to_int k + Z.of_nat i + kidx) (L - 1), <[i := b]> d).
Proof.
  intros Hi Hk0 Hst.
  unfold decrypt_step in Hst. rewrite land_1_odd, Hi in Hst. simpl in Hst.
  apply bind_Return_inv in Hst as (k & Hk & Hst).
  apply getitem_Return_inv in Hk; [|assumption].
  assert (Hk0' : 0 <= Z.land (byte_to_int k + Z.of_nat i + kidx) (L - 1)).
  { apply Z.land_nonneg. left. pose proof (byte_to_int_range k). lia. }
  apply bind_Return_inv in Hst as (k' & Hk' & Hst).
  apply getitem_Return_inv in Hk'; [|assumption].
  apply bind_Return_inv in Hst as (dv & Hd & Hst).
  apply getitem_Return_inv in Hd; [|lia]. rewrite Nat2Z.id in Hd.
  destruct (decrypt_step_odd key L kidx d i k k' dv Hi Hk0 Hk Hk0' Hk' Hd) as (b & Hb & Hstep).
  exists k, k', dv, b. repeat split; try assumption.
  unfold decrypt_step in Hstep. rewrite land_1_odd, Hi in Hstep. simpl in Hstep.
  rewrite (getitem_nonneg key kidx Hk0), Hk in Hstep. simpl in Hstep.
  rewrite (getitem_nonneg key _ Hk0'), Hk' in Hstep. simpl in Hstep.
  rewrite (getitem_nonneg d (Z.of_nat i)) in Hstep by lia.
  rewrite Nat2Z.id, Hd in Hstep. simpl in Hstep.
  congruence.
Qed.

(** The invariant holds after every number of iterations that return. *)
Lemma decrypt_loop_inv (key data : bytes) (n : nat) (kidx : Z) (d : bytes) :
  decrypt_loop key data n = Return (kidx, d) -> loop_inv key data n kidx d.
Proof.
  revert kidx d. induction n as [|n IH]; intros kidx d Hrun.
  - unfold decrypt_loop in Hrun. simpl in Hrun. injection Hrun as <- <-.
    repeat split; try reflexivity; try lia.
  - rewrite decrypt_loop_S in Hrun.
    apply bind_Return_inv in Hrun as ([kidx0 d0] & Hrun0 & Hstep).
    destruct (IH _ _ Hrun0) as (Hk0 & Hcur & Hlen & Hrest & Hdone).
    destruct (Nat.odd n) eqn:Hodd.
    + apply decrypt_step_odd_inv in Hstep as (k & k' & dv & b & Hk & Hk0' & Hk' & Hd & Hb & Hst);
        [|assumption|assumption].
      injection Hst as -> ->.
      assert (Hn : (n < length d0)%nat) by now apply lookup_lt_Some in Hd.
      assert (Hcur' : spec_keyIdx key (S n)
                      = Some (Z.land (byte_to_int k + Z.of_nat n + kidx0)
                                     (Z.of_nat (length key) - 1))).
      { simpl. rewrite Hcur. simpl. rewrite Hodd, Hk. reflexivity. }
      repeat split.
      * assumption.
      * exact Hcur'.
      * now rewrite length_insert.
      * intros j Hj. rewrite list_lookup_insert_ne by lia. apply Hrest. lia.
      * intros j Hj. destruct (decide (j = n)) as [->|Hne].
        -- unfold decoded_at. rewrite Hodd.
           exists (Z.land (byte_to_int k + Z.of_nat n + kidx0) (Z.of_nat (length key) - 1)), k', dv.
           repeat split; try assumption.
           ++ rewrite <- (Hrest n) by lia. exact Hd.
           ++ rewrite list_lookup_insert_eq by assumption. simpl. now rewrite Hb.
        -- assert (Hj' : (j < n)%nat) by lia.
           specialize (Hdone j Hj'). unfold decoded_at in *.
           rewrite list_lookup_insert_ne by lia. exact Hdone.
    + rewrite decrypt_step_even in Hstep by assumption.
      injection Hstep as <- <-.
      repeat split.
      * assumption.
      * simpl. rewrite Hcur. simpl. now rewrite Hodd.
      * assumption.
      * intros j Hj. apply Hrest. lia.
      * intros j Hj. destruct (decide (j = n)) as [->|Hne].
        -- unfold decoded_at. rewrite Hodd. apply Hrest. lia.
        -- apply Hdone. lia.
Qed.

(** With a key that is not empty the cursor stays inside the key and no
    iteration raises. *)
Lemma decrypt_loop_total (key data : bytes) (n : nat) :
  key <> [] -> (n <= length data)%nat ->
  exists kidx d,
    decrypt_loop key data n = Return (kidx, d)
    /\ 0 <= kidx < Z.of_nat (length key)
    /\ length d = length data.
Proof.
  intros Hkey. assert (Hlen : (0 < length key)%nat) by (destruct key; [congruence|simpl; lia]).
  induction n as [|n IH]; intros Hn.
  - exists 0, data. unfold decrypt_loop. simpl. repeat split; lia.
  - destruct IH as (kidx & d & Hrun & Hk & Hd); [lia|].
    rewrite decrypt_loop_S, Hrun. unfold mbind, outcome_bind. cbv beta iota.
    destruct (Nat.odd n) eqn:Hodd.
    + destruct (lookup_lt_is_Some_2 key (Z.to_nat kidx)) as [k Hkk]; [lia|].
      pose proof (land_mask_range (byte_to_int k + Z.of_nat n + kidx)
                    (Z.of_nat (length key) - 1) ltac:(lia)) as Hm.
      destruct (lookup_lt_is_Some_2 key
                  (Z.to_nat (Z.land (byte_to_int k + Z.of_nat n + kidx)
                                    (Z.of_nat (length key) - 1)))) as [k' Hkk']; [lia|].
      destruct (lookup_lt_is_Some_2 d n) as [dv Hdv]; [lia|].
      destruct (decrypt_step_odd key (Z.of_nat (length key)) kidx d n k k' dv)
        as (b & _ & Hstep); try assumption; try lia.
      eexists _, _. split; [exact Hstep|]. split; [lia|].
      now rewrite length_insert.
    + rewrite decrypt_step_even by assumption. eauto.
Qed.

(** What a call that returns a buffer went through. *)
Lemma decrypt_content_Some (enc key header out : bytes) :
  decrypt_content enc key header = Return (Some out) ->
  take (length header) enc = header
  /\ exists kidx,
       decrypt_loop key (drop (length header) enc) (length (drop (length header) enc))
       = Return (kidx, out).
Proof.
  unfold decrypt_content. case_bool_decide as Hh; simpl; [|discriminate].
  intros H. split; [assumption|].
  case_bool_decide as Hd; simpl in H.
  - injection H as <-. rewrite Hd. exists 0. reflexivity.
  - apply bind_Return_inv in H as ([kidx d] & Hrun & Hret).
    injection Hret as <-. eauto.
Qed.

Lemma decrypt_content_None (enc key header : bytes) :
  decrypt_content enc key header = Return None <-> take (length header) enc <> header.
Proof.
  unfold decrypt_content. case_bool_decide as Hh; simpl.
  - split; [|congruence]. intros H.
    case_bool_decide; simpl in H; [discriminate|].
    apply bind_Return_inv in H as (st & _ & H). discriminate.
  - split; [auto|reflexivity].
Qed.

Lemma decrypt_content_matched (enc key header out : bytes) (kidx : Z) :
  take (length header) enc = header ->
  decrypt_loop key (drop (length header) enc) (length (drop (length header) enc))
  = Return (kidx, out) ->
  decrypt_content enc key header = Return (Some out).
Proof.
  intros Hh Hrun. unfold decrypt_content.
  rewrite (bool_decide_eq_true_2 _ Hh). simpl.
  case_bool_decide as Hd; simpl.
  - rewrite Hd in Hrun. unfold decrypt_loop in Hrun. simpl in Hrun.
    injection Hrun as _ <-. now rewrite Hd.
  - now rewrite Hrun.
Qed.

Lemma byte_to_int_inj (a b : byte) : byte_to_int a = byte_to_int b -> a = b.
Proof.
  intros H. pose proof (int_to_byte_to_int a) as Ha.
  rewrite H, int_to_byte_to_int in Ha. congruence.
Qed.

(** ** The cipher engine: the stated properties *)

(** C1. A call that returns a decoded buffer followed the recurrence: the
    header is the prefix of the input, the cursor starts at 0, the output
    is as long as the body, and at every odd position [i] the cursor
    becomes [(key[keyIdx] + i + keyIdx) AND (keyLen - 1)] and the output
    byte is the key byte under the new cursor XOR ((NOT input byte) AND
    0xFF). On header 0x4142, key [01 02] and body [10 20] the result is
    [10 DE]. *)
Theorem decrypt_content_recurrence :
  (forall enc key header out : bytes,
      decrypt_content enc key header = Return (Some out) ->
      let body := drop (length header) enc in
      take (length header) enc = header
      /\ spec_keyIdx key 0 = Some 0
      /\ length out = length body
      /\ forall i : nat, Nat.odd i = true -> (i < length body)%nat ->
           exists (prev keyIdx : Z) (kp k d : byte),
             spec_keyIdx key i = Some prev
             /\ key !! Z.to_nat prev = Some kp
             /\ keyIdx = Z.land (byte_to_int kp + Z.of_nat i + prev)
                                (Z.of_nat (length key) - 1)
             /\ spec_keyIdx key (S i) = Some keyIdx
             /\ key !! Z.to_nat keyIdx = Some k
             /\ body !! i = Some d
             /\ byte_to_int <$> (out !! i)
                = Some (Z.lxor (byte_to_int k) (Z.land (Z.lnot (byte_to_int d)) 255)))
  /\ decrypt_content ([x41; x42] ++ [x10; x20]) [x01; x02] [x41; x42]
     = Return (Some [x10; xde]).
Proof.
  split; [|reflexivity].
  intros enc key header out Hdec body.
  apply decrypt_content_Some in Hdec as (Hh & kidx & Hrun).
  apply decrypt_loop_inv in Hrun as (_ & _ & Hlen & _ & Hdone).
  repeat split; try assumption.
  intros i Hodd Hi. specialize (Hdone i Hi). unfold decoded_at in Hdone.
  rewrite Hodd in Hdone. destruct Hdone as (c & k & d & Hc & Hk & Hd & Hout).
  pose proof Hc as Hc'. simpl in Hc'.
  destruct (spec_keyIdx key i) as [prev|] eqn:Hprev; [|discriminate]. simpl in Hc'.
  rewrite Hodd in Hc'.
  destruct (key !! Z.to_nat prev) as [kp|] eqn:Hkp; [|discriminate]. simpl in Hc'.
  injection Hc' as Hc'.
  exists prev, c, kp, k, d. repeat split; try assumption. now symmetry.
Qed.

Lemma decrypt_content_recurrence_witness :
  take (length [x41; x42]) [x41; x42; x10; x20] = [x41; x42]
  /\ spec_keyIdx [x01; x02] 0 = Some 0
  /\ length [x10; xde] = length (drop (length [x41; x42]) [x41; x42; x10; x20])
  /\ exists (prev keyIdx : Z) (kp k d : byte),
       spec_keyIdx [x01; x02] 1 = Some prev
       /\ [x01; x02] !! Z.to_nat prev = Some kp
       /\ keyIdx = Z.land (byte_to_int kp + Z.of_nat 1 + prev)
                          (Z.of_nat (length [x01; x02]) - 1)
       /\ spec_keyIdx [x01; x02] 2 = Some keyIdx
       /\ [x01; x02] !! Z.to_nat keyIdx = Some k
       /\ drop (length [x41; x42]) [x41; x42; x10; x20] !! 1%nat = Some d
       /\ byte_to_int <$> ([x10; xde] !! 1%nat)
          = Some (Z.lxor (byte_to_int k) (Z.land (Z.lnot (byte_to_int d)) 255)).
Proof.
  destruct (proj1 decrypt_content_recurrence
              [x41; x42; x10; x20] [x01; x02] [x41; x42] [x10; xde] eq_refl)
    as (Hh & H0 & Hlen & Hodd).
  repeat split; try assumption.
  apply (Hodd 1%nat); [reflexivity|simpl; lia].
Defined.

(** C8. In a call that returns a decoded buffer, every even position of
    the output holds the byte the body (the input after the header) has at
    that position, and the output is as long as the body. *)
Theorem decrypt_content_even_unchanged (enc key header out : bytes) (i : nat) :
  decrypt_content enc key header = Return (Some out) ->
  Nat.even i = true ->
  length out = length (drop (length header) enc)
  /\ out !! i = drop (length header) enc !! i.
Proof.
  intros Hdec Heven.
  apply decrypt_content_Some in Hdec as (Hh & kidx & Hrun).
  apply decrypt_loop_inv in Hrun as (_ & _ & Hlen & Hrest & Hdone).
  split; [assumption|].
  destruct (Nat.lt_ge_cases i (length (drop (length header) enc))) as [Hi|Hi].
  - specialize (Hdone i Hi). unfold decoded_at in Hdone.
    rewrite <- Nat.negb_even, Heven in Hdone. exact Hdone.
  - now apply Hrest.
Qed.

Lemma decrypt_content_even_unchanged_witness :
  length [x10; xde] = length (drop (length [x41; x42]) [x41; x42; x10; x20])
  /\ [x10; xde] !! 0%nat = drop (length [x41; x42]) [x41; x42; x10; x20] !! 0%nat.
Proof.
  apply (decrypt_content_even_unchanged [x41; x42; x10; x20] [x01; x02] [x41; x42] [x10; xde] 0);
    reflexivity.
Defined.

(** C3. An input whose first [len(header)] bytes are not the header, and so
    every input shorter than the header, gives [None] whatever the key;
    and the header comparison is the only test that gives [None]. *)
Theorem decrypt_content_header_gating (enc key header : bytes) :
  (take (length header) enc <> header -> decrypt_content enc key header = Return None)
  /\ ((length enc < length header)%nat -> decrypt_content enc key header = Return None)
  /\ (decrypt_content enc key header = Return None -> take (length header) enc <> header).
Proof.
  split; [|split].
  - apply decrypt_content_None.
  - intros Hlen. apply decrypt_content_None. intros Heq.
    apply (f_equal length) in Heq. rewrite length_take in Heq. lia.
  - apply decrypt_content_None.
Qed.

Lemma decrypt_content_header_gating_witness :
  decrypt_content [x43; x42; x10] [x01] [x41; x42] = Return None
  /\ decrypt_content [x41] [] [x41; x42] = Return None
  /\ take (length [x41; x42]) [x41] <> [x41; x42].
Proof.
  split; [|split].
  - apply (proj1 (decrypt_content_header_gating [x43; x42; x10] [x01] [x41; x42])).
    simpl. discriminate.
  - apply (proj1 (proj2 (decrypt_content_header_gating [x41] [] [x41; x42]))).
    simpl. lia.
  - apply (proj2 (proj2 (decrypt_content_header_gating [x41] [] [x41; x42]))).
    reflexivity.
Defined.

(** C9. With a key that is not empty, of any length, every prefix of the
    loop's iterations returns with the cursor inside the key, so no key
    access is out of bounds; the call returns, and returns a buffer as long
    as the body when the header matches. The mask keeps every integer
    inside [0 .. keyLen - 1] as soon as [keyLen >= 1]. No test on the
    length is made: on the key [01 02 03] the masked recurrence and the one
    with a true remainder give different outputs. *)
Theorem decrypt_content_nonempty_key_safe :
  (forall enc key header : bytes,
      key <> [] ->
      let body := drop (length header) enc in
      (forall n : nat, (n <= length body)%nat ->
         exists (key_idx : Z) (d : bytes),
           decrypt_loop key body n = Return (key_idx, d)
           /\ 0 <= key_idx < Z.of_nat (length key))
      /\ (exists r, decrypt_content enc key header = Return r)
      /\ (take (length header) enc = header ->
          exists out, decrypt_content enc key header = Return (Some out)
                      /\ length out = length body))
  /\ (forall x keyLen : Z, 1 <= keyLen -> 0 <= Z.land x (keyLen - 1) < keyLen)
  /\ decrypt_content [x00; x00; x00; x00] [x01; x02; x03] []
     <> spec_decode_mod [x00; x00; x00; x00] [x01; x02; x03] [].
Proof.
  split; [|split].
  - intros enc key header Hkey body.
    assert (Hmatched : take (length header) enc = header ->
              exists out, decrypt_content enc key header = Return (Some out)
                          /\ length out = length body).
    { intros Hh.
      destruct (decrypt_loop_total key body (length body) Hkey (Nat.le_refl _))
        as (kidx & d & Hrun & _ & Hlen).
      exists d. split; [|assumption].
      now apply (decrypt_content_matched enc key header d kidx). }
    split; [|split].
    + intros n Hn.
      destruct (decrypt_loop_total key body n Hkey Hn) as (kidx & d & Hrun & Hk & _).
      eauto.
    + destruct (decide (take (length header) enc = header)) as [Hh|Hh].
      * destruct (Hmatched Hh) as (out & Hout & _). eauto.
      * exists None. now apply decrypt_content_None.
    + exact Hmatched.
  - intros x keyLen HL.
    pose proof (land_mask_range x (keyLen - 1) ltac:(lia)). lia.
  - vm_compute. discriminate.
Qed.

Lemma decrypt_content_nonempty_key_safe_witness :
  (exists (key_idx : Z) (d : bytes),
      decrypt_loop [x01; x02; x03] [x10; x20; x30; x40] 4 = Return (key_idx, d)
      /\ 0 <= key_idx < 3)
  /\ (exists r, decrypt_content [x41; x42; x10; x20; x30; x40] [x01; x02; x03] [x41; x42]
                = Return r)
  /\ (exists out, decrypt_content [x41; x42; x10; x20; x30; x40] [x01; x02; x03] [x41; x42]
                  = Return (Some out)
                  /\ length out = 4%nat)
  /\ 0 <= Z.land 8 (3 - 1) < 3.
Proof.
  destruct (proj1 decrypt_content_nonempty_key_safe
              [x41; x42; x10; x20; x30; x40] [x01; x02; x03] [x41; x42])
    as (Hloop & Hret & Hmatch); [discriminate|].
  split; [|split; [|split]].
  - apply (Hloop 4%nat). simpl. lia.
  - exact Hret.
  - apply Hmatch. reflexivity.
  - apply (proj1 (proj2 decrypt_content_nonempty_key_safe) 8 3). lia.
Defined.

(** ** The round trip through the specification's encoder *)

Lemma int_to_byte_inv (z : Z) (b : byte) : int_to_byte z = Some b -> byte_to_int b = z.
Proof.
  unfold int_to_byte.
  destruct (Z.leb_spec 0 z); simpl; [|discriminate].
  destruct (Z.ltb_spec z 256); [|discriminate].
  intros E. unfold byte_to_int. rewrite (Byte.to_of_N _ E). lia.
Qed.

(** What the encoder stores at position [j] of its output, for an input
    that starts at position [i] of the stream. *)
Lemma spec_encode_from_pointwise (key plain : bytes) :
  forall (i : nat) (kidx : Z) (enc : bytes),
    spec_encode_from key i kidx plain = Some enc ->
    spec_keyIdx key i = Some kidx ->
    length enc = length plain
    /\ forall (j : nat) (p : byte), plain !! j = Some p ->
         if Nat.odd (i + j) then
           exists (c : Z) (k e : byte),
             spec_keyIdx key (S (i + j)) = Some c
             /\ key !! Z.to_nat c = Some k
             /\ enc !! j = Some e
             /\ byte_to_int e = Z.land (Z.lnot (Z.lxor (byte_to_int k) (byte_to_int p))) 255
         else enc !! j = Some p.
Proof.
  induction plain as [|p0 plain IH]; intros i kidx enc Henc Hcur.
  - injection Henc as <-. split; [reflexivity|]. intros j p Hj. discriminate.
  - simpl in Henc. destruct (Nat.odd i) eqn:Hodd.
    + apply bind_Some in Henc as (k & Hk & Henc).
      apply bind_Some in Henc as (k' & Hk' & Henc).
      apply bind_Some in Henc as (e & He & Henc).
      apply bind_Some in Henc as (rest & Hrest & Henc).
      injection Henc as <-.
      assert (Hcur' : spec_keyIdx key (S i)
                      = Some (Z.land (byte_to_int k + Z.of_nat i + kidx)
                                     (Z.of_nat (length key) - 1))).
      { simpl. rewrite Hcur. simpl. now rewrite Hodd, Hk. }
      destruct (IH _ _ _ Hrest Hcur') as (Hlen & Hpt).
      split; [simpl; now rewrite Hlen|].
      intros [|j] p Hj.
      * injection Hj as <-. rewrite Nat.add_0_r, Hodd.
        eexists _, k', e. repeat split; try eassumption.
        now apply int_to_byte_inv.
      * rewrite Nat.add_succ_r. apply (Hpt j p Hj).
    + apply bind_Some in Henc as (rest & Hrest & Henc).
      injection Henc as <-.
      assert (Hcur' : spec_keyIdx key (S i) = Some kidx).
      { simpl. rewrite Hcur. simpl. now rewrite Hodd. }
      destruct (IH _ _ _ Hrest Hcur') as (Hlen & Hpt).
      split; [simpl; now rewrite Hlen|].
      intros [|j] p Hj.
      * injection Hj as <-. now rewrite Nat.add_0_r, Hodd.
      * rewrite Nat.add_succ_r. apply (Hpt j p Hj).
Qed.

(** With a key that is not empty the encoder is defined on every input. *)
Lemma spec_encode_from_total (key plain : bytes) :
  key <> [] ->
  forall (i : nat) (kidx : Z),
    0 <= kidx < Z.of_nat (length key) ->
    exists enc, spec_encode_from key i kidx plain = Some enc.
Proof.
  intros Hkey.
  assert (Hlen : (0 < length key)%nat) by (destruct key; [congruence|simpl; lia]).
  induction plain as [|p plain IH]; intros i kidx Hk; simpl; [eauto|].
  destruct (Nat.odd i).
  - destruct (lookup_lt_is_Some_2 key (Z.to_nat kidx)) as [k Hkk]; [lia|].
    rewrite Hkk. simpl.
    pose proof (land_mask_range (byte_to_int k + Z.of_nat i + kidx)
                  (Z.of_nat (length key) - 1) ltac:(lia)) as Hm.
    destruct (lookup_lt_is_Some_2 key
                (Z.to_nat (Z.land (byte_to_int k + Z.of_nat i + kidx)
                                  (Z.of_nat (length key) - 1)))) as [k' Hkk']; [lia|].
    rewrite Hkk'. simpl.
    destruct (int_to_byte_Some
                (Z.land (Z.lnot (Z.lxor (byte_to_int k') (byte_to_int p))) 255)
                (encoded_value_range _)) as (e & He & _).
    rewrite He. simpl.
    destruct (IH (S i) (Z.land (byte_to_int k + Z.of_nat i + kidx)
                               (Z.of_nat (length key) - 1))) as [rest Hrest]; [lia|].
    rewrite Hrest. simpl. eauto.
  - destruct (IH (S i) kidx Hk) as [rest Hrest]. rewrite Hrest. simpl. eauto.
Qed.

(** C2. For every plaintext, every key that is not empty and every header,
    the specification's encoder is defined and decoding the header followed
    by the encoded plaintext gives the plaintext back. *)
Theorem decrypt_content_round_trip (plain key header : bytes) :
  key <> [] ->
  exists encoded,
    spec_encode plain key = Some encoded
    /\ decrypt_content (header ++ encoded) key header = Return (Some plain).
Proof.
  intros Hkey.
  assert (Hlen : (0 < length key)%nat) by (destruct key; [congruence|simpl; lia]).
  destruct (spec_encode_from_total key plain Hkey 0 0 ltac:(lia)) as [enc Henc].
  exists enc. split; [exact Henc|].
  destruct (spec_encode_from_pointwise key plain 0 0 enc Henc eq_refl) as (Hl & Hpt).
  assert (Hh : take (length header) (header ++ enc) = header) by apply take_app_length.
  assert (Hd : drop (length header) (header ++ enc) = enc) by apply drop_app_length.
  destruct (decrypt_loop_total key enc (length enc) Hkey (Nat.le_refl _))
    as (kidx & out & Hrun & _ & Hlo).
  assert (Hdec : decrypt_content (header ++ enc) key header = Return (Some out)).
  { apply (decrypt_content_matched _ _ _ _ kidx); [assumption|]. now rewrite Hd. }
  rewrite Hdec. do 2 f_equal.
  apply decrypt_loop_inv in Hrun as (_ & _ & _ & _ & Hdone).
  apply list_eq. intros j.
  destruct (plain !! j) as [p|] eqn:Hp.
  - assert (Hj : (j < length enc)%nat) by (rewrite Hl; now apply lookup_lt_Some in Hp).
    specialize (Hdone j Hj). specialize (Hpt j p Hp).
    change (0 + j)%nat with j in Hpt.
    unfold decoded_at in Hdone. destruct (Nat.odd j).
    + destruct Hdone as (c & k & dv & Hc & Hk & Hdv & Hout).
      destruct Hpt as (c' & k' & e & Hc' & Hk' & He & Hev).
      assert (c' = c) by congruence. subst c'.
      assert (k' = k) by congruence. subst k'.
      assert (e = dv) by congruence. subst e.
      destruct (out !! j) as [o|]; [|discriminate]. simpl in Hout.
      injection Hout as Hout. f_equal. apply byte_to_int_inj.
      rewrite Hout, Hev.
      apply decode_encode_byte; apply byte_to_int_range.
    + congruence.
  - apply lookup_ge_None in Hp. apply lookup_ge_None. lia.
Qed.

Lemma decrypt_content_round_trip_witness :
  exists encoded,
    spec_encode [x10; xde; x33] [x01; x02; x03] = Some encoded
    /\ decrypt_content ([x41; x42] ++ encoded) [x01; x02; x03] [x41; x42]
       = Return (Some [x10; xde; x33]).
Proof.
  apply (decrypt_content_round_trip [x10; xde; x33] [x01; x02; x03] [x41; x42]).
  discriminate.
Defined.

(** ** The cipher engine: further properties *)

(** Decoding a decoded byte with the same key byte gives the input byte. *)
Lemma decode_decode_byte (k d : Z) :
  0 <= k < 256 -> 0 <= d < 256 ->
  Z.lxor k (Z.land (Z.lnot (Z.lxor k (Z.land (Z.lnot d) 255))) 255) = d.
Proof.
  intros Hk Hd. apply Z.bits_inj'. intros n Hn.
  rewrite Z.lxor_spec, Z.land_spec, testbit_255 by lia.
  destruct (Z.ltb_spec n 8).
  - rewrite Z.lnot_spec, Z.lxor_spec, Z.land_spec, testbit_255 by lia.
    rewrite Z.lnot_spec by lia.
    destruct (Z.ltb_spec n 8); [|lia].
    destruct (Z.testbit k n), (Z.testbit d n); reflexivity.
  - rewrite (testbit_byte_high k n), (testbit_byte_high d n) by lia.
    now rewrite andb_false_r.
Qed.

(** A loop that returns after [n] iterations returned after each smaller
    number of iterations. *)
Lemma decrypt_loop_returns_before (key data : bytes) (n m : nat) (st : Z * bytes) :
  decrypt_loop key data n = Return st -> (m <= n)%nat ->
  exists st', decrypt_loop key data m = Return st'.
Proof.
  revert st. induction n as [|n IH]; intros st Hrun Hm.
  - assert (m = 0%nat) by lia. subst m. eauto.
  - destruct (decide (m = S n)) as [->|Hne]; [eauto|].
    rewrite decrypt_loop_S in Hrun.
    apply bind_Return_inv in Hrun as (st0 & Hrun0 & _).
    apply (IH st0 Hrun0). lia.
Qed.

(** The cursor does not depend on the data: a loop that returns on one
    buffer returns, with the same cursor, on every buffer that is long
    enough. *)
Lemma decrypt_loop_cursor_transfer (key data data' : bytes) (n : nat) :
  forall (kidx : Z) (d : bytes),
    decrypt_loop key data n = Return (kidx, d) ->
    (n <= length data')%nat ->
    exists d', decrypt_loop key data' n = Return (kidx, d').
Proof.
  induction n as [|n IH]; intros kidx d Hrun Hn.
  - unfold decrypt_loop in *. simpl in *. injection Hrun as <- _. eauto.
  - rewrite decrypt_loop_S in Hrun.
    apply bind_Return_inv in Hrun as ([kidx0 d0] & Hrun0 & Hstep).
    destruct (IH kidx0 d0 Hrun0 ltac:(lia)) as [d0' Hrun0'].
    destruct (decrypt_loop_inv _ _ _ _ _ Hrun0) as (Hk0 & _).
    destruct (decrypt_loop_inv _ _ _ _ _ Hrun0') as (_ & _ & Hlen' & _).
    rewrite decrypt_loop_S, Hrun0'. unfold mbind, outcome_bind. cbv beta iota.
    destruct (Nat.odd n) eqn:Hodd.
    + apply decrypt_step_odd_inv in Hstep
        as (k & k' & dv & b & Hk & Hk0' & Hk' & _ & _ & Hst); [|assumption|assumption].
      injection Hst as -> _.
      destruct (lookup_lt_is_Some_2 d0' n) as [dv' Hdv']; [lia|].
      destruct (decrypt_step_odd key (Z.of_nat (length key)) kidx0 d0' n k k' dv'
                  Hodd Hk0 Hk Hk0' Hk' Hdv') as (b' & _ & Hstep').
      rewrite Hstep'. eauto.
    + rewrite decrypt_step_even in Hstep |- * by assumption.
      injection Hstep as <- _. eauto.
Qed.

(** Two decoded positions over equal input bytes hold equal bytes. *)
Lemma decoded_at_agree (key data1 data2 out1 out2 : bytes) (j : nat) :
  decoded_at key data1 out1 j -> decoded_at key data2 out2 j ->
  data1 !! j = data2 !! j -> out1 !! j = out2 !! j.
Proof.
  unfold decoded_at. destruct (Nat.odd j); [|congruence].
  intros (c1 & k1 & d1 & Hc1 & Hk1 & Hd1 & Ho1) (c2 & k2 & d2 & Hc2 & Hk2 & Hd2 & Ho2) Hd.
  assert (c2 = c1) by congruence. subst c2.
  assert (k2 = k1) by congruence. subst k2.
  assert (d2 = d1) by congruence. subst d2.
  destruct (out1 !! j) as [o1|], (out2 !! j) as [o2|]; try discriminate.
  simpl in Ho1, Ho2. f_equal. apply byte_to_int_inj. congruence.
Qed.

(** X1. The transform is its own inverse: decoding the header followed by
    a decoded buffer gives back the body that was decoded. *)
Theorem decrypt_content_involution (enc key header out : bytes) :
  decrypt_content enc key header = Return (Some out) ->
  decrypt_content (header ++ out) key header
  = Return (Some (drop (length header) enc)).
Proof.
  intros Hdec. apply decrypt_content_Some in Hdec as (Hh & kidx & Hrun).
  set (body := drop (length header) enc) in *.
  destruct (decrypt_loop_inv _ _ _ _ _ Hrun) as (_ & _ & Hlen & _ & Hdone).
  destruct (decrypt_loop_cursor_transfer key body out (length body) kidx out Hrun)
    as [out2 Hrun2]; [lia|].
  rewrite <- Hlen in Hrun2.
  destruct (decrypt_loop_inv _ _ _ _ _ Hrun2) as (_ & _ & Hlen2 & _ & Hdone2).
  assert (Hdec2 : decrypt_content (header ++ out) key header = Return (Some out2)).
  { apply (decrypt_content_matched _ _ _ _ kidx); [apply take_app_length|].
    now rewrite drop_app_length. }
  rewrite Hdec2. do 2 f_equal. apply list_eq. intros j.
  destruct (Nat.lt_ge_cases j (length body)) as [Hj|Hj].
  - specialize (Hdone j Hj). specialize (Hdone2 j ltac:(lia)).
    unfold decoded_at in *. destruct (Nat.odd j); [|congruence].
    destruct Hdone as (c & k & dv & Hc & Hk & Hdv & Ho).
    destruct Hdone2 as (c2 & k2 & dv2 & Hc2 & Hk2 & Hdv2 & Ho2).
    assert (c2 = c) by congruence. subst c2.
    assert (k2 = k) by congruence. subst k2.
    rewrite Hdv2 in Ho. simpl in Ho. injection Ho as Ho.
    destruct (out2 !! j) as [o|]; [|discriminate]. simpl in Ho2. injection Ho2 as Ho2.
    rewrite Hdv. f_equal. apply byte_to_int_inj.
    rewrite Ho2, Ho. apply decode_decode_byte; apply byte_to_int_range.
  - rewrite (lookup_ge_None_2 out2) by lia. now rewrite lookup_ge_None_2.
Qed.

Lemma decrypt_content_involution_witness :
  decrypt_content ([x41; x42] ++ [x10; xde]) [x01; x02] [x41; x42]
  = Return (Some (drop (length [x41; x42]) [x41; x42; x10; x20])).
Proof.
  apply (decrypt_content_involution [x41; x42; x10; x20] [x01; x02] [x41; x42] [x10; xde]).
  reflexivity.
Defined.

(** With the empty key the second iteration raises. *)
Lemma decrypt_loop_empty_key (data : bytes) (n : nat) :
  (2 <= n)%nat -> decrypt_loop [] data n = Raise IndexError.
Proof.
  intros Hn. destruct n as [|[|m]]; try lia. reflexivity.
Qed.

(** X2. The only exception [decrypt_content] raises is [IndexError], and
    it raises it exactly when the key is empty, the header matches and the
    body has two bytes or more. *)
Theorem decrypt_content_raises (enc key header : bytes) (e : exn) :
  decrypt_content enc key header = Raise e
  <-> e = IndexError /\ key = [] /\ take (length header) enc = header
      /\ (2 <= length (drop (length header) enc))%nat.
Proof.
  split.
  - unfold decrypt_content. case_bool_decide as Hh; simpl; [|discriminate].
    case_bool_decide as Hd; simpl; [discriminate|]. intros Hraise.
    set (data := drop (length header) enc) in *.
    destruct (decide (key = [])) as [->|Hkey].
    + destruct (Nat.lt_ge_cases (length data) 2) as [Hlen|Hlen].
      * destruct data as [|d [|d' data]]; simpl in Hlen; try lia; [congruence|].
        discriminate.
      * rewrite decrypt_loop_empty_key in Hraise by assumption.
        injection Hraise as <-. auto.
    + destruct (decrypt_loop_total key data (length data) Hkey (Nat.le_refl _))
        as (kidx & d & Hrun & _).
      rewrite Hrun in Hraise. discriminate.
  - intros (-> & -> & Hh & Hlen). unfold decrypt_content.
    rewrite (bool_decide_eq_true_2 _ Hh). simpl.
    rewrite bool_decide_eq_false_2.
    + simpl. now rewrite decrypt_loop_empty_key.
    + intros Hnil. rewrite Hnil in Hlen. simpl in Hlen. lia.
Qed.

Lemma decrypt_content_raises_witness :
  decrypt_content [x41; x42; x10; x20] [] [x41; x42] = Raise IndexError.
Proof.
  apply (proj2 (decrypt_content_raises [x41; x42; x10; x20] [] [x41; x42] IndexError)).
  repeat split. simpl. lia.
Defined.

Lemma for_each_ext {S I : Type} (f g : S -> I -> outcome S) (items : list I) :
  (forall st i, f st i = g st i) ->
  forall st, for_each f items st = for_each g items st.
Proof.
  intros Hfg. induction items as [|i items IH]; intros st; simpl; [reflexivity|].
  rewrite Hfg. destruct (g st i); [apply IH|reflexivity].
Qed.

(** For a length that is a power of two the mask is the remainder. *)
Lemma decrypt_step_power_of_two (key : bytes) (n : nat) (st : Z * bytes) (i : nat) :
  decrypt_step key (2 ^ Z.of_nat n) st i = spec_step_mod key (2 ^ Z.of_nat n) st i.
Proof.
  destruct st as [kidx d]. unfold decrypt_step, spec_step_mod.
  destruct (negb (Z.land (Z.of_nat i) 1 =? 0)); [|reflexivity].
  destruct (getitem key kidx) as [k|e]; [|reflexivity]. simpl.
  replace (2 ^ Z.of_nat n - 1) with (Z.ones (Z.of_nat n))
    by (rewrite Z.ones_equiv; lia).
  rewrite Z.land_ones by lia. reflexivity.
Qed.

(** X3. When the length of the key is a power of two, the masked
    recurrence of the code is the recurrence with a true remainder: the
    two decoders agree on every input. *)
Theorem decrypt_content_power_of_two (enc key header : bytes) (n : nat) :
  length key = (2 ^ n)%nat ->
  decrypt_content enc key header = spec_decode_mod enc key header.
Proof.
  intros Hlen. unfold decrypt_content, spec_decode_mod.
  destruct (negb (bool_decide (take (length header) enc = header))); [reflexivity|].
  set (data := drop (length header) enc).
  assert (Hloop : decrypt_loop key data (length data)
                  = for_each (spec_step_mod key (Z.of_nat (length key)))
                      (seq 0 (length data)) (0, data)).
  { unfold decrypt_loop. apply for_each_ext. intros st i.
    rewrite Hlen, Nat2Z.inj_pow. apply decrypt_step_power_of_two. }
  cbv zeta. rewrite <- Hloop. case_bool_decide as Hd; simpl; [|reflexivity].
  unfold data in *. rewrite Hd. reflexivity.
Qed.

Lemma decrypt_content_power_of_two_witness :
  decrypt_content [x41; x42; x10; x20; x30; x40] [x01; x02; x03; x04] [x41; x42]
  = spec_decode_mod [x41; x42; x10; x20; x30; x40] [x01; x02; x03; x04] [x41; x42].
Proof.
  apply (decrypt_content_power_of_two _ _ _ 2). reflexivity.
Defined.

(** X4. An output byte depends on the key, on its position and on the
    input byte at that position only: two decoded bodies that agree at a
    position give outputs that agree there, whatever the other bytes and
    the headers are. *)
Theorem decrypt_content_local (enc1 enc2 key header1 header2 out1 out2 : bytes)
    (j : nat) :
  decrypt_content enc1 key header1 = Return (Some out1) ->
  decrypt_content enc2 key header2 = Return (Some out2) ->
  drop (length header1) enc1 !! j = drop (length header2) enc2 !! j ->
  out1 !! j = out2 !! j.
Proof.
  intros H1 H2 Hj.
  apply decrypt_content_Some in H1 as (_ & k1 & Hrun1).
  apply decrypt_content_Some in H2 as (_ & k2 & Hrun2).
  apply decrypt_loop_inv in Hrun1 as (_ & _ & Hlen1 & _ & Hdone1).
  apply decrypt_loop_inv in Hrun2 as (_ & _ & Hlen2 & _ & Hdone2).
  destruct (drop (length header1) enc1 !! j) as [d|] eqn:Hd.
  - symmetry in Hj. pose proof (lookup_lt_Some _ _ _ Hd) as Hlt1.
    pose proof (lookup_lt_Some _ _ _ Hj) as Hlt2.
    apply (decoded_at_agree key _ _ _ _ j (Hdone1 j Hlt1) (Hdone2 j Hlt2)).
    congruence.
  - symmetry in Hj. apply lookup_ge_None in Hd, Hj.
    rewrite (lookup_ge_None_2 out1), (lookup_ge_None_2 out2) by lia. reflexivity.
Qed.

Lemma decrypt_content_local_witness :
  [x10; xde] !! 1%nat = [x77; xde; x55] !! 1%nat.
Proof.
  apply (decrypt_content_local [x41; x42; x10; x20] [x43; x77; x20; x55] [x01; x02]
           [x41; x42] [x43] [x10; xde] [x77; xde; x55] 1); reflexivity.
Defined.

(** X5. Truncating the body truncates the output: the first [n] bytes of
    a decoded buffer are the decoding of the first [n] bytes of the body. *)
Theorem decrypt_content_truncate (enc key header out : bytes) (n : nat) :
  decrypt_content enc key header = Return (Some out) ->
  decrypt_content (header ++ take n (drop (length header) enc)) key header
  = Return (Some (take n out)).
Proof.
  intros Hdec. apply decrypt_content_Some in Hdec as (Hh & kidx & Hrun).
  set (body := drop (length header) enc) in *.
  destruct (decrypt_loop_inv _ _ _ _ _ Hrun) as (_ & _ & Hlen & _ & Hdone).
  destruct (decrypt_loop_returns_before key body (length body) (length (take n body))
              _ Hrun) as [[kidx' d'] Hrun'].
  { rewrite length_take. lia. }
  destruct (decrypt_loop_cursor_transfer key body (take n body) _ kidx' d' Hrun'
              (Nat.le_refl _)) as [out' Hrun2].
  destruct (decrypt_loop_inv _ _ _ _ _ Hrun2) as (_ & _ & Hlen2 & _ & Hdone2).
  assert (Hdec2 : decrypt_content (header ++ take n body) key header
                  = Return (Some out')).
  { apply (decrypt_content_matched _ _ _ _ kidx'); [apply take_app_length|].
    now rewrite drop_app_length. }
  rewrite Hdec2. do 2 f_equal. apply list_eq. intros j.
  rewrite length_take in Hlen2.
  destruct (Nat.lt_ge_cases j (n `min` length body)) as [Hj|Hj].
  - rewrite lookup_take_lt by lia.
    apply (decoded_at_agree key (take n body) body out' out j).
    + apply Hdone2. rewrite length_take. lia.
    + apply Hdone. lia.
    + apply lookup_take_lt. lia.
  - rewrite (lookup_ge_None_2 out') by lia.
    symmetry. apply lookup_ge_None_2. rewrite length_take. lia.
Qed.

Lemma decrypt_content_truncate_witness :
  decrypt_content ([x41; x42] ++ take 1 (drop (length [x41; x42]) [x41; x42; x10; x20]))
    [x01; x02] [x41; x42]
  = Return (Some (take 1 [x10; xde])).
Proof.
  apply (decrypt_content_truncate [x41; x42; x10; x20] [x01; x02] [x41; x42] [x10; xde] 1).
  reflexivity.
Defined.

(** ** Strings and paths *)

Lemma append_nil_l (b : string) : EmptyString +:+ b = b.
Proof. reflexivity. Qed.

Lemma append_cons (x : ascii) (a b : string) : String x a +:+ b = String x (a +:+ b).
Proof. reflexivity. Qed.

Lemma string_app_assoc (a b c : string) : (a +:+ b) +:+ c = a +:+ (b +:+ c).
Proof.
  induction a as [|x a IH]; [reflexivity|]. rewrite !append_cons. now rewrite IH.
Qed.

Lemma string_take_drop (n : nat) (s : string) : string_take n s +:+ string_drop n s = s.
Proof.
  revert n. induction s as [|c s IH]; intros [|n]; simpl; try reflexivity.
  rewrite append_cons. now rewrite IH.
Qed.

Lemma string_drop_length (n : nat) (s : string) :
  String.length (string_drop n s) = (String.length s - n)%nat.
Proof.
  revert n. induction s as [|c s IH]; intros [|n]; simpl; try reflexivity. apply IH.
Qed.

Lemma contains_char_app (c : ascii) (a b : string) :
  contains_char c (a +:+ b) = contains_char c a || contains_char c b.
Proof.
  induction a as [|x a IH]; [reflexivity|].
  rewrite append_cons. simpl. now rewrite IH, orb_assoc.
Qed.

Lemma contains_char_drop (c : ascii) (n : nat) (s : string) :
  contains_char c s = false -> contains_char c (string_drop n s) = false.
Proof.
  revert n. induction s as [|x s IH]; intros [|n] H; simpl in *; try assumption.
  apply orb_false_iff in H as [_ H]. now apply IH.
Qed.

(** [rfind] points at an occurrence of the character. *)
Lemma rfind_Some (c : ascii) (s : string) (i : nat) :
  rfind c s = Some i ->
  (i < String.length s)%nat /\ exists rest, string_drop i s = String c rest.
Proof.
  revert i. induction s as [|x s IH]; intros i H; simpl in H; [discriminate|].
  destruct (rfind c s) as [j|] eqn:Hj.
  - injection H as <-. destruct (IH j eq_refl) as (Hlt & rest & Hrest).
    simpl. split; [lia|eauto].
  - destruct (Ascii.eqb_spec x c) as [->|]; [|discriminate].
    injection H as <-. simpl. split; [lia|eauto].
Qed.

(** The suffix of a name is empty, or starts with a dot and ends the name. *)
Lemma name_suffix_spec (name : string) :
  name_suffix name = EmptyString
  \/ (exists rest, name_suffix name = String "." rest)
     /\ string_take (String.length name - String.length (name_suffix name)) name
        +:+ name_suffix name = name.
Proof.
  unfold name_suffix. destruct (rfind "." name) as [i|] eqn:Hi; [|now left].
  destruct ((0 <? i)%nat && (i <? String.length name - 1)%nat); [|now left].
  right. destruct (rfind_Some _ _ _ Hi) as (Hlt & rest & Hrest).
  split; [eauto|].
  rewrite string_drop_length.
  replace (String.length name - (String.length name - i))%nat with i by lia.
  apply string_take_drop.
Qed.

Lemma name_suffix_no_sep (name : string) :
  contains_char "/" name = false -> contains_char "/" (name_suffix name) = false.
Proof.
  intros H. unfold name_suffix. destruct (rfind "." name) as [i|]; [|reflexivity].
  destruct ((0 <? i)%nat && (i <? String.length name - 1)%nat); [|reflexivity].
  now apply contains_char_drop.
Qed.

Lemma split_sep_no_sep (s : string) :
  contains_char "/" s = false -> split_sep s = [s].
Proof.
  induction s as [|c s IH]; intros H; simpl in *; [reflexivity|].
  apply orb_false_iff in H as [Hc Hs]. rewrite Hc, (IH Hs). reflexivity.
Qed.

Lemma valid_name_spec (s : string) :
  valid_name s = true ->
  s <> EmptyString /\ s <> "."%string /\ contains_char "/" s = false.
Proof.
  unfold valid_name. intros H.
  apply andb_true_iff in H as [H H3]. apply andb_true_iff in H as [H1 H2].
  apply negb_true_iff in H1, H2, H3.
  apply String.eqb_neq in H1, H2. auto.
Qed.

Lemma valid_name_not_root (s : string) : valid_name s = true -> s <> "/"%string.
Proof.
  intros H ->. apply valid_name_spec in H as (_ & _ & H). discriminate.
Qed.

(** [Path(file)] for a valid name is that one component. *)
Lemma parse_path_valid_name (file : string) :
  valid_name file = true -> parse_path file = [file].
Proof.
  intros H. destruct (valid_name_spec file H) as (Hne & Hdot & Hsep).
  unfold parse_path. rewrite split_sep_no_sep by assumption.
  assert (Hstart : startswith_char "/" file = false).
  { destruct file as [|c file]; [reflexivity|]. simpl in *.
    now apply orb_false_iff in Hsep as [Hc _]. }
  rewrite Hstart. simpl. apply filter_singleton_True; [exact []|auto].
Qed.

(** A path made of valid names is relative. *)
Lemma is_absolute_valid_names (p : path) :
  forallb valid_name p = true -> is_absolute p = false.
Proof.
  intros H. unfold is_absolute. apply bool_decide_eq_false_2.
  destruct p as [|s p]; [discriminate|]. simpl in *.
  apply andb_true_iff in H as [Hs _]. intros [= ->]. now apply (valid_name_not_root "/").
Qed.

Lemma path_name_snoc (root : path) (file : string) :
  file <> "/"%string -> path_name (root ++ [file]) = file.
Proof.
  intros Hf. unfold path_name. rewrite last_snoc.
  rewrite bool_decide_eq_false_2; [reflexivity|].
  intros Heq. apply (f_equal last) in Heq. rewrite last_snoc in Heq.
  simpl in Heq. congruence.
Qed.

(** The suffix the code hands to [with_suffix] passes its checks. *)
Lemma decoded_suffix_accepted (file : string) :
  contains_char "/" file = false ->
  let suffix := name_suffix file +:+ ".decoded" in
  contains_char "/" suffix = false
  /\ (negb (String.eqb suffix EmptyString) && negb (startswith_char "." suffix))
     || String.eqb suffix "." = false.
Proof.
  intros Hsep suffix. unfold suffix. split.
  - rewrite contains_char_app, name_suffix_no_sep by assumption. reflexivity.
  - destruct (name_suffix_spec file) as [->|[[rest ->] _]]; [reflexivity|].
    rewrite append_cons. simpl.
    destruct rest; reflexivity.
Qed.

(** Replacing the suffix by itself followed by [".decoded"] appends
    [".decoded"] to the name. *)
Lemma decoded_name (file : string) :
  (if String.eqb (name_suffix file) EmptyString
   then file +:+ (name_suffix file +:+ ".decoded")
   else string_take (String.length file - String.length (name_suffix file)) file
        +:+ (name_suffix file +:+ ".decoded"))
  = file +:+ ".decoded".
Proof.
  destruct (name_suffix_spec file) as [Hs|[[rest Hs] Hcut]].
  - rewrite Hs. reflexivity.
  - assert (Hneq : String.eqb (name_suffix file) EmptyString = false)
      by (rewrite Hs; reflexivity).
    rewrite Hneq, <- string_app_assoc, Hcut. reflexivity.
Qed.

Lemma with_suffix_decoded (root : path) (file : string) :
  valid_name file = true ->
  with_suffix (root ++ [file]) (path_suffix (root ++ [file]) +:+ ".decoded")
  = Return (root ++ [file +:+ ".decoded"]).
Proof.
  intros Hv. destruct (valid_name_spec file Hv) as (Hne & _ & Hsep).
  pose proof (valid_name_not_root file Hv) as Hroot.
  unfold with_suffix, path_suffix. rewrite path_name_snoc by assumption.
  destruct (decoded_suffix_accepted file Hsep) as [H1 H2].
  rewrite H1, H2.
  rewrite (proj2 (String.eqb_neq file EmptyString) Hne).
  rewrite decoded_name, removelast_last. reflexivity.
Qed.

Lemma string_length_append (a b : string) :
  String.length (a +:+ b) = (String.length a + String.length b)%nat.
Proof.
  induction a as [|x a IH]; [reflexivity|]. rewrite append_cons. simpl. now rewrite IH.
Qed.

(** Appending [".decoded"] changes the name. *)
Lemma append_decoded_neq (file : string) : file +:+ ".decoded" <> file.
Proof.
  intros H. apply (f_equal String.length) in H.
  rewrite string_length_append in H. simpl in H. lia.
Qed.

(** The task of a matched file of a well-formed walk entry. *)
Lemma file_task_spec (input_dir output_dir root_path : path) (file : string) :
  take (length input_dir) root_path = input_dir ->
  forallb valid_name (drop (length input_dir) root_path) = true ->
  valid_name file = true ->
  file_task input_dir output_dir root_path file
  = Return (spec_task input_dir output_dir (root_path, file)).
Proof.
  intros Hpre Hsub Hv. unfold file_task, spec_task, spec_output_path. simpl.
  rewrite (parse_path_valid_name file Hv).
  assert (Hrel : is_absolute [file] = false).
  { apply is_absolute_valid_names. simpl. now rewrite Hv. }
  assert (Hjoin : joinpath root_path [file] = root_path ++ [file])
    by (unfold joinpath; now rewrite Hrel).
  rewrite !Hjoin.
  assert (Hsplit : root_path ++ [file]
                   = input_dir ++ (drop (length input_dir) root_path ++ [file])).
  { rewrite app_assoc. f_equal.
    rewrite <- (take_drop (length input_dir) root_path) at 1. now rewrite Hpre. }
  assert (Hrelsub : is_absolute (drop (length input_dir) root_path ++ [file]) = false).
  { apply is_absolute_valid_names. rewrite forallb_app, Hsub. simpl. now rewrite Hv. }
  assert (Hdrop : drop (length input_dir) (root_path ++ [file])
                  = drop (length input_dir) root_path ++ [file]).
  { rewrite Hsplit at 1. apply drop_app_length. }
  assert (Hrt : relative_to (root_path ++ [file]) input_dir
                = Return (drop (length input_dir) (root_path ++ [file]))).
  { unfold relative_to. destruct (length input_dir =? 0)%nat eqn:Hn.
    - apply Nat.eqb_eq in Hn. rewrite Hn in Hrelsub.
      change (drop 0 root_path) with root_path in Hrelsub. now rewrite Hrelsub.
    - assert (Htake : take (length input_dir) (root_path ++ [file]) = input_dir)
        by (rewrite Hsplit; apply take_app_length).
      rewrite (bool_decide_eq_true_2 _ Htake). reflexivity. }
  rewrite Hrt. simpl. case_bool_decide as Hdir; simpl.
  - unfold joinpath. rewrite Hdrop, Hrelsub. reflexivity.
  - rewrite with_suffix_decoded by assumption. reflexivity.
Qed.

(** ** The batch walker: the list of tasks *)

(** The inner loop, over the files of one directory of the walk. *)
Lemma collect_directory_spec (input_dir output_dir root_path : path) (extension : string)
    (dirs files : list string) :
  take (length input_dir) root_path = input_dir ->
  forallb valid_name (drop (length input_dir) root_path) = true ->
  forallb valid_name files = true ->
  forall acc : list (path * path),
    collect_directory input_dir output_dir extension acc (root_path, dirs, files)
    = Return (acc ++ (spec_task input_dir output_dir
                        <$> (pair root_path
                               <$> filter (fun file => endswith file extension = true) files))).
Proof.
  intros Hpre Hsub. unfold collect_directory.
  induction files as [|file files IH]; intros Hfiles acc.
  - simpl. now rewrite app_nil_r.
  - simpl in Hfiles. apply andb_true_iff in Hfiles as [Hv Hfiles]. simpl.
    unfold collect_file at 1.
    destruct (endswith file extension) eqn:Hext.
    + rewrite (file_task_spec _ _ _ _ Hpre Hsub Hv). simpl.
      rewrite (IH Hfiles). rewrite filter_cons_True by assumption.
      simpl. now rewrite <- app_assoc.
    + rewrite (IH Hfiles). rewrite filter_cons_False by congruence. reflexivity.
Qed.

Lemma collect_files_from (input_dir output_dir : path) (extension : string)
    (walk : list (path * list string * list string)) :
  walk_ok input_dir walk = true ->
  forall acc : list (path * path),
    for_each (collect_directory input_dir output_dir extension) walk acc
    = Return (acc ++ (spec_task input_dir output_dir <$> matched_files extension walk)).
Proof.
  induction walk as [|[[root_path dirs] files] walk IH]; intros Hok acc.
  - simpl. now rewrite app_nil_r.
  - simpl in Hok. apply andb_true_iff in Hok as [Hentry Hok].
    apply andb_true_iff in Hentry as [Hentry Hfiles].
    apply andb_true_iff in Hentry as [Hpre Hsub].
    apply bool_decide_eq_true_1 in Hpre.
    cbn [for_each]. rewrite (collect_directory_spec _ _ _ _ dirs _ Hpre Hsub Hfiles).
    rewrite (IH Hok). cbn [matched_files flat_map].
    rewrite fmap_app. now rewrite <- app_assoc.
Qed.

(** On a well-formed walk the two loops raise nothing and list the task
    of every matched file, in the order of the walk. *)
Lemma collect_files_spec (input_dir output_dir : path) (extension : string)
    (walk : list (path * list string * list string)) :
  walk_ok input_dir walk = true ->
  collect_files input_dir output_dir extension walk
  = Return (spec_task input_dir output_dir <$> matched_files extension walk).
Proof.
  intros Hok. unfold collect_files. now rewrite (collect_files_from _ _ _ _ Hok).
Qed.

(** Every matched file of a well-formed walk lies under [input_dir]. *)
Lemma matched_files_under (input_dir : path) (extension : string)
    (walk : list (path * list string * list string)) :
  walk_ok input_dir walk = true ->
  Forall (fun m : path * string => take (length input_dir) m.1 = input_dir)
         (matched_files extension walk).
Proof.
  induction walk as [|[[root_path dirs] files] walk IH]; intros Hok.
  - constructor.
  - simpl in Hok. apply andb_true_iff in Hok as [Hentry Hok].
    apply andb_true_iff in Hentry as [Hentry _].
    apply andb_true_iff in Hentry as [Hpre _].
    apply bool_decide_eq_true_1 in Hpre.
    cbn [matched_files flat_map]. apply Forall_app. split; [|now apply IH].
    apply Forall_fmap, Forall_forall. intros file _. exact Hpre.
Qed.

(** C7. On a well-formed walk, the list of tasks has one task per matched
    file, in order. For the matched file [file] of the directory
    [input_dir/sub], the input path is [input_dir/sub/file]; when
    [output_dir] differs from [input_dir] the output path is
    [output_dir/sub/file], the same relative path under [output_dir]; when
    they are equal the output path is [input_dir/sub/file.decoded], which
    is not the input path. *)
Theorem batch_output_paths (input_dir output_dir : path) (extension : string)
    (walk : list (path * list string * list string)) :
  walk_ok input_dir walk = true ->
  exists tasks : list (path * path),
    collect_files input_dir output_dir extension walk = Return tasks
    /\ length tasks = length (matched_files extension walk)
    /\ forall (i : nat) (root_path : path) (file : string),
         matched_files extension walk !! i = Some (root_path, file) ->
         exists sub : path,
           root_path = input_dir ++ sub
           /\ (output_dir <> input_dir ->
               tasks !! i = Some (input_dir ++ sub ++ [file], output_dir ++ sub ++ [file]))
           /\ (output_dir = input_dir ->
               tasks !! i = Some (input_dir ++ sub ++ [file],
                                  input_dir ++ sub ++ [file +:+ ".decoded"])
               /\ input_dir ++ sub ++ [file +:+ ".decoded"]
                  <> input_dir ++ sub ++ [file]).
Proof.
  intros Hok. eexists. split; [now apply collect_files_spec|].
  split; [now rewrite length_fmap|].
  intros i root_path file Hi.
  pose proof (matched_files_under input_dir extension walk Hok) as Hunder.
  rewrite Forall_forall in Hunder.
  assert (Hpre : take (length input_dir) root_path = input_dir).
  { apply (Hunder (root_path, file)). now apply list_elem_of_lookup_2 in Hi. }
  exists (drop (length input_dir) root_path).
  assert (Hroot : root_path = input_dir ++ drop (length input_dir) root_path).
  { rewrite <- (take_drop (length input_dir) root_path) at 1. now rewrite Hpre. }
  split; [exact Hroot|].
  rewrite list_lookup_fmap, Hi. unfold spec_task, spec_output_path. simpl.
  split.
  - intros Hne. rewrite (bool_decide_eq_true_2 _ Hne).
    rewrite Hroot at 1 2. rewrite <- !app_assoc, drop_app_length. reflexivity.
  - intros Heq. split.
    + rewrite bool_decide_eq_false_2 by (intros Hne; now apply Hne).
      rewrite Hroot at 1 2. now rewrite <- !app_assoc.
    + intros Habs. apply app_inv_head in Habs. apply app_inj_tail in Habs as [_ Habs].
      now apply (append_decoded_neq file).
Qed.

Lemma batch_output_paths_witness :
  (exists tasks : list (path * path),
      collect_files ["in"%string] ["out"%string] ".php" sample_walk = Return tasks
      /\ length tasks = length (matched_files ".php" sample_walk)
      /\ forall (i : nat) (root_path : path) (file : string),
           matched_files ".php" sample_walk !! i = Some (root_path, file) ->
           exists sub : path,
             root_path = ["in"%string] ++ sub
             /\ (["out"%string] <> ["in"%string] ->
                 tasks !! i = Some (["in"%string] ++ sub ++ [file],
                                    ["out"%string] ++ sub ++ [file]))
             /\ (["out"%string] = ["in"%string] ->
                 tasks !! i = Some (["in"%string] ++ sub ++ [file],
                                    ["in"%string] ++ sub ++ [file +:+ ".decoded"])
                 /\ ["in"%string] ++ sub ++ [file +:+ ".decoded"]
                    <> ["in"%string] ++ sub ++ [file])).
Proof.
  apply (batch_output_paths ["in"%string] ["out"%string] ".php" sample_walk).
  reflexivity.
Defined.

Lemma string_app_inv_tail (a b c : string) : a +:+ c = b +:+ c -> a = b.
Proof.
  revert b. induction a as [|x a IH]; intros b H.
  - destruct b as [|y b]; [reflexivity|].
    apply (f_equal String.length) in H.
    rewrite append_nil_l, append_cons in H. simpl in H.
    rewrite string_length_append in H. lia.
  - destruct b as [|y b].
    + apply (f_equal String.length) in H.
      rewrite append_nil_l, append_cons in H. simpl in H.
      rewrite string_length_append in H. lia.
    + rewrite !append_cons in H. injection H as -> H. f_equal. now apply IH.
Qed.

(** Two matched files under the input directory with the same output path
    are the same file of the same directory. *)
Lemma spec_output_path_inj (input_dir output_dir : path) (m1 m2 : path * string) :
  take (length input_dir) m1.1 = input_dir ->
  take (length input_dir) m2.1 = input_dir ->
  spec_output_path input_dir output_dir m1.1 m1.2
  = spec_output_path input_dir output_dir m2.1 m2.2 ->
  m1 = m2.
Proof.
  destruct m1 as [root1 file1], m2 as [root2 file2]. simpl. intros H1 H2 Ho.
  assert (Hin : root1 ++ [file1] = root2 ++ [file2]).
  { unfold spec_output_path in Ho. case_bool_decide as Hdir.
    - apply app_inv_head in Ho.
      assert (Hlen : forall root file,
                 take (length input_dir) root = input_dir ->
                 take (length input_dir) (root ++ [file]) = input_dir).
      { intros root file Hpre.
        rewrite <- (take_drop (length input_dir) root), <- app_assoc.
        rewrite Hpre. apply take_app_length. }
      rewrite <- (take_drop (length input_dir) (root1 ++ [file1])).
      rewrite <- (take_drop (length input_dir) (root2 ++ [file2])).
      rewrite Ho. now rewrite !Hlen.
    - apply app_inj_tail in Ho as [-> Hf].
      apply string_app_inv_tail in Hf. now subst. }
  apply app_inj_tail in Hin as [-> ->]. reflexivity.
Qed.

(** X14. On a well-formed walk that lists no file twice, as [os.walk]
    does (each directory once, each name once in it), two different tasks
    have different input paths and different output paths, in the mirrored
    mode and in place: no output path is computed twice. *)
Theorem batch_outputs_distinct (input_dir output_dir : path) (extension : string)
    (walk : list (path * list string * list string)) (tasks : list (path * path))
    (i j : nat) (task1 task2 : path * path) :
  walk_ok input_dir walk = true ->
  NoDup (matched_files extension walk) ->
  collect_files input_dir output_dir extension walk = Return tasks ->
  i <> j ->
  tasks !! i = Some task1 ->
  tasks !! j = Some task2 ->
  task1.1 <> task2.1 /\ task1.2 <> task2.2.
Proof.
  intros Hok Hnodup Hcollect Hij Hi Hj.
  rewrite (collect_files_spec _ _ _ _ Hok) in Hcollect. injection Hcollect as <-.
  pose proof (matched_files_under input_dir extension walk Hok) as Hunder.
  rewrite Forall_forall in Hunder.
  rewrite list_lookup_fmap in Hi, Hj.
  destruct (matched_files extension walk !! i) as [m1|] eqn:Hm1; [|discriminate].
  destruct (matched_files extension walk !! j) as [m2|] eqn:Hm2; [|discriminate].
  injection Hi as <-. injection Hj as <-.
  assert (Hne : m1 <> m2).
  { intros ->. apply Hij. exact (NoDup_lookup _ _ _ _ Hnodup Hm1 Hm2). }
  pose proof (Hunder _ (list_elem_of_lookup_2 _ _ _ Hm1)) as H1.
  pose proof (Hunder _ (list_elem_of_lookup_2 _ _ _ Hm2)) as H2.
  unfold spec_task. simpl. split.
  - intros Hin. apply Hne. destruct m1 as [r1 f1], m2 as [r2 f2]. simpl in Hin.
    apply app_inj_tail in Hin as [-> ->]. reflexivity.
  - intros Hout. apply Hne. now apply (spec_output_path_inj input_dir output_dir).
Qed.

(** ** The file system operations *)

Lemma fs_extends_refl (fs : gmap path node) : fs_extends fs fs.
Proof. intros q n H. exact H. Qed.

Lemma fs_extends_trans (fs1 fs2 fs3 : gmap path node) :
  fs_extends fs1 fs2 -> fs_extends fs2 fs3 -> fs_extends fs1 fs3.
Proof. intros H12 H23 q n H. apply H23, H12, H. Qed.

Lemma same_kind_refl (n : node) : same_kind n n.
Proof. now destruct n. Qed.

Lemma same_kind_trans (n1 n2 n3 : node) :
  same_kind n1 n2 -> same_kind n2 n3 -> same_kind n1 n3.
Proof. destruct n1, n2, n3; simpl; tauto. Qed.

Lemma fs_keeps_kinds_refl (fs : gmap path node) : fs_keeps_kinds fs fs.
Proof. intros q n H. exists n. split; [exact H|apply same_kind_refl]. Qed.

Lemma fs_keeps_kinds_trans (fs1 fs2 fs3 : gmap path node) :
  fs_keeps_kinds fs1 fs2 -> fs_keeps_kinds fs2 fs3 -> fs_keeps_kinds fs1 fs3.
Proof.
  intros H12 H23 q n H. destruct (H12 q n H) as (n2 & H2 & Hk2).
  destruct (H23 q n2 H2) as (n3 & H3 & Hk3).
  exists n3. split; [exact H3|]. now apply (same_kind_trans n n2 n3).
Qed.

Lemma fs_extends_keeps_kinds (fs fs' : gmap path node) :
  fs_extends fs fs' -> fs_keeps_kinds fs fs'.
Proof. intros H q n Hq. exists n. split; [now apply H|apply same_kind_refl]. Qed.

(** An insertion is seen at its path, unless the path is the current
    directory or the root, and nowhere else. *)
Lemma fs_lookup_insert_ne (fs : gmap path node) (p q : path) (n : node) :
  q <> p -> fs_lookup (<[p := n]> fs) q = fs_lookup fs q.
Proof.
  intros Hne. unfold fs_lookup. case_bool_decide; [reflexivity|].
  now rewrite lookup_insert_ne.
Qed.

Lemma fs_lookup_insert_eq (fs : gmap path node) (p : path) (n : node) :
  fs_lookup fs p <> Some Dir -> fs_lookup (<[p := n]> fs) p = Some n.
Proof.
  unfold fs_lookup. case_bool_decide; [congruence|].
  intros _. apply lookup_insert_eq.
Qed.

(** [os.mkdir] creates a directory at a path that was free. *)
Lemma os_mkdir_Return (p : path) (fs fs' : gmap path node) :
  os_mkdir p fs = Return fs' ->
  fs_lookup fs p = None /\ fs' = <[p := Dir]> fs.
Proof.
  unfold os_mkdir. destruct (fs_lookup fs p) as [n|]; [discriminate|].
  destruct (fs_lookup fs (parent p)) as [[c|]|]; try discriminate.
  intros [= <-]. auto.
Qed.

Lemma os_mkdir_extends (p : path) (fs fs' : gmap path node) :
  os_mkdir p fs = Return fs' -> fs_extends fs fs' /\ is_dir fs' p = true.
Proof.
  intros H. apply os_mkdir_Return in H as [Hfree ->]. split.
  - intros q n Hq. rewrite fs_lookup_insert_ne; [exact Hq|]. congruence.
  - unfold is_dir. rewrite fs_lookup_insert_eq; [reflexivity|]. congruence.
Qed.

(** [mkdir(parents=True, exist_ok=True)], when it returns, has added
    directories only and the path is then a directory. *)
Lemma mkdir_rec_extends (fuel : nat) :
  forall (p : path) (fs fs' : gmap path node),
    mkdir_rec fuel p fs = Return fs' ->
    fs_extends fs fs' /\ is_dir fs' p = true.
Proof.
  induction fuel as [|fuel IH]; intros p fs fs' H; simpl in H.
  - destruct (os_mkdir p fs) as [fs1|e] eqn:Hmk.
    + injection H as <-. now apply os_mkdir_extends.
    + destruct e; try discriminate;
        (destruct (is_dir fs p) eqn:Hd; [|discriminate]);
        injection H as <-; (split; [apply fs_extends_refl|exact Hd]).
  - destruct (os_mkdir p fs) as [fs1|e] eqn:Hmk.
    + injection H as <-. now apply os_mkdir_extends.
    + destruct e;
        try (destruct (is_dir fs p) eqn:Hd; [|discriminate];
             injection H as <-; (split; [apply fs_extends_refl|exact Hd])).
      case_bool_decide; [discriminate|].
      apply bind_Return_inv in H as (fs1 & Hrec & H).
      destruct (IH _ _ _ Hrec) as [Hext1 _].
      destruct (os_mkdir p fs1) as [fs2|e] eqn:Hmk2.
      * injection H as <-. destruct (os_mkdir_extends _ _ _ Hmk2) as [Hext2 Hd].
        split; [now apply (fs_extends_trans fs fs1 fs2)|exact Hd].
      * destruct (is_dir fs1 p) eqn:Hd; [|discriminate].
        injection H as <-. auto.
Qed.


(** A write that returns has put the file at its path. *)
Lemma fs_write_Return (p : path) (data : bytes) (fs fs' : gmap path node) :
  fs_write p data fs = Return fs' ->
  fs' = <[p := File data]> fs /\ fs_lookup fs p <> Some Dir.
Proof.
  unfold fs_write. destruct (fs_lookup fs p) as [[c|]|] eqn:Hp.
  - intros [= <-]. split; [reflexivity|discriminate].
  - discriminate.
  - destruct (fs_lookup fs (parent p)) as [[c|]|]; try discriminate.
    intros [= <-]. split; [reflexivity|discriminate].
Qed.

Lemma mkdir_parents_extends (p : path) (w : world) :
  fs_extends (w_fs w) (w_fs (mkdir_parents p w).2).
Proof.
  unfold mkdir_parents. destruct (mkdir_rec (length p) p (w_fs w)) as [fs'|e] eqn:H; simpl.
  - now apply mkdir_rec_extends in H as [H _].
  - apply fs_extends_refl.
Qed.

(** A write leaves every other path alone, and keeps a file a file. *)
Lemma write_bytes_frame (p : path) (data : bytes) (w : world) :
  (forall q, q <> p -> fs_lookup (w_fs (write_bytes p data w).2) q = fs_lookup (w_fs w) q)
  /\ fs_keeps_kinds (w_fs w) (w_fs (write_bytes p data w).2)
  /\ ((write_bytes p data w).1 = Return tt ->
      fs_lookup (w_fs (write_bytes p data w).2) p = Some (File data)
      /\ w_fs (write_bytes p data w).2 = <[p := File data]> (w_fs w)).
Proof.
  unfold write_bytes. destruct (fs_write p data (w_fs w)) as [fs'|e] eqn:H; simpl.
  - apply fs_write_Return in H as [-> Hnd]. split; [|split].
    + intros q Hq. now apply fs_lookup_insert_ne.
    + intros q n Hq. destruct (decide (q = p)) as [->|Hne].
      * exists (File data). rewrite fs_lookup_insert_eq by assumption.
        split; [reflexivity|]. destruct n; [exact I|congruence].
      * exists n. rewrite fs_lookup_insert_ne by assumption.
        split; [exact Hq|apply same_kind_refl].
    + intros _. split; [now apply fs_lookup_insert_eq|reflexivity].
  - split; [|split]; [reflexivity|apply fs_keeps_kinds_refl|discriminate].
Qed.


(** A path that is absent and goes through a regular file cannot be
    read: the error is [NotADirectoryError]. *)
Lemma fs_read_through_file (p : path) (fs : gmap path node) :
  fs_lookup fs p = None -> through_file fs p = true ->
  fs_read p fs = Raise NotADirectoryError.
Proof. intros Hp Ht. unfold fs_read, absent_error. now rewrite Hp, Ht. Qed.


(** A path that is not a directory is not its own parent. *)
Lemma parent_neq (p : path) (fs : gmap path node) :
  fs_lookup fs p <> Some Dir -> parent p <> p.
Proof.
  unfold fs_lookup, parent. case_bool_decide as Hsp; [congruence|]. intros _.
  case_bool_decide as Hroot; [tauto|].
  intros Heq. apply (f_equal length) in Heq.
  destruct (decide (p = [])) as [->|Hne]; [tauto|].
  rewrite (app_removelast_last EmptyString Hne) in Heq at 2.
  rewrite length_app in Heq. simpl in Heq. lia.
Qed.

(** ** The console *)

Lemma events_since_refl (w : world) : events_since w w = [].
Proof. unfold events_since. apply drop_all. Qed.

Lemma events_since_log_event (w w' : world) (e : event) (evs : list event) :
  w_log w' = w_log w ++ evs ->
  w_log (log_event e w') = w_log w ++ (evs ++ [e]).
Proof. intros H. unfold log_event. simpl. now rewrite H, app_assoc. Qed.

Lemma events_since_app (w w' : world) (evs : list event) :
  w_log w' = w_log w ++ evs -> events_since w w' = evs.
Proof. intros H. unfold events_since. rewrite H. apply drop_app_length. Qed.

(** A print either shows the line or raises and shows nothing. *)
Lemma console_print_run (m : message) (w : world) :
  interpolated m = true ->
  console_print m w
  = match markup_error m with
    | None => (Return tt, log_event (EvPrint m) w)
    | Some text => (Raise (MarkupError text), w)
    end.
Proof. intros Hm. unfold console_print. now rewrite Hm. Qed.

Lemma console_print_constant (m : message) (w : world) :
  interpolated m = false -> console_print m w = (Return tt, log_event (EvPrint m) w).
Proof. intros Hm. unfold console_print. now rewrite Hm. Qed.

Lemma console_print_fs (m : message) (w : world) :
  w_fs (console_print m w).2 = w_fs w.
Proof.
  unfold console_print. now destruct (if interpolated m then markup_error m else None).
Qed.

(** The log only grows. *)
Lemma log_event_prefix (e : event) (w : world) :
  w_log w `prefix_of` w_log (log_event e w).
Proof. now exists [e]. Qed.

Lemma console_print_prefix (m : message) (w : world) :
  w_log w `prefix_of` w_log (console_print m w).2.
Proof.
  unfold console_print.
  destruct (if interpolated m then markup_error m else None);
    [reflexivity|apply log_event_prefix].
Qed.

(** ** The file decoder: its branches *)

(** The handler: the error line and [False], or the exception of the
    print. *)
Lemma report_error_run (input_file : path) (e : exn) (w : world) :
  report_error input_file e w
  = match markup_error (MsgError input_file e) with
    | None => (Return false, log_event (EvPrint (MsgError input_file e)) w)
    | Some text => (Raise (MarkupError text), w)
    end.
Proof.
  unfold report_error, mbind, io_bind.
  rewrite console_print_run by reflexivity.
  now destruct (markup_error (MsgError input_file e)).
Qed.

Lemma report_error_fs (input_file : path) (e : exn) (w : world) :
  w_fs (report_error input_file e w).2 = w_fs w.
Proof.
  rewrite report_error_run. now destruct (markup_error (MsgError input_file e)).
Qed.

Lemma report_error_failed (input_file : path) (e : exn) (w : world) :
  failed (report_error input_file e w).1.
Proof.
  rewrite report_error_run. unfold failed.
  destruct (markup_error (MsgError input_file e)); simpl; eauto.
Qed.

(** What the handler adds to the log: nothing, or its line. *)
Lemma report_error_log (input_file : path) (e : exn) (w : world) :
  w_log (report_error input_file e w).2 = w_log w
  \/ w_log (report_error input_file e w).2
     = w_log w ++ [EvPrint (MsgError input_file e)].
Proof.
  rewrite report_error_run. destruct (markup_error (MsgError input_file e)); auto.
Qed.

(** The skip branch: the skip line, or the handler on the exception of
    its print. *)
Lemma decrypt_file_skipped (w : world) (input_file output_file : path)
    (key header : bytes) :
  is_Some (fs_lookup (w_fs w) output_file) ->
  decrypt_file input_file output_file key header false w
  = match markup_error (MsgSkipping input_file output_file) with
    | None =>
        (Return false,
         log_event (EvPrint (MsgSkipping input_file output_file))
           (log_event (EvExists output_file) w))
    | Some text =>
        report_error input_file (MarkupError text) (log_event (EvExists output_file) w)
    end.
Proof.
  intros Hex. unfold decrypt_file, try_except, mbind at 1, io_bind at 1, path_exists.
  simpl. rewrite (bool_decide_eq_true_2 _ Hex).
  unfold mbind, io_bind. rewrite console_print_run by reflexivity.
  now destruct (markup_error (MsgSkipping input_file output_file)).
Qed.

(** The other branches: the read, the decoding, and the write when the
    decoded buffer is not empty. *)
Lemma decrypt_file_not_skipped (w : world) (input_file output_file : path)
    (key header : bytes) (overwrite : bool) :
  overwrite = true \/ fs_lookup (w_fs w) output_file = None ->
  decrypt_file input_file output_file key header overwrite w
  = let w1 := log_event (EvRead input_file) (after_check output_file overwrite w) in
    match fs_read input_file (w_fs w) ≫= (fun c => decrypt_content c key header) with
    | Raise e => report_error input_file e w1
    | Return (Some ((_ :: _) as data)) =>
        match mkdir_parents (parent output_file) w1 with
        | (Return _, w2) =>
            match write_bytes output_file data w2 with
            | (Return _, w3) => (Return true, w3)
            | (Raise e, w3) => report_error input_file e w3
            end
        | (Raise e, w2) => report_error input_file e w2
        end
    | Return _ => (Return false, w1)
    end.
Proof.
  intros Hns.
  assert (Hfs : w_fs (after_check output_file overwrite w) = w_fs w)
    by (unfold after_check; now destruct overwrite).
  assert (Hchk : (if negb overwrite then path_exists output_file else (mret false : io bool)) w
                 = (Return false, after_check output_file overwrite w)).
  { unfold after_check. destruct overwrite; [reflexivity|]. simpl.
    destruct Hns as [|Hnone]; [discriminate|].
    unfold path_exists. rewrite bool_decide_eq_false_2; [reflexivity|].
    rewrite Hnone. intros [? ?]. discriminate. }
  unfold decrypt_file, try_except, mbind at 1, io_bind at 1. rewrite Hchk.
  unfold mbind at 1, io_bind at 1, read_bytes. rewrite Hfs.
  destruct (fs_read input_file (w_fs w)) as [c|e]; [|reflexivity].
  unfold mbind at 1, io_bind at 1, lift.
  change (Return c ≫= (fun c0 => decrypt_content c0 key header))
    with (decrypt_content c key header).
  destruct (decrypt_content c key header) as [[[|b data]|]|e]; try reflexivity.
  unfold mbind at 1, io_bind at 1. cbv zeta.
  destruct (mkdir_parents _ _) as [[[]|e] w2]; [|reflexivity].
  unfold mbind at 1, io_bind at 1.
  destruct (write_bytes _ _ _) as [[[]|e] w3]; reflexivity.
Qed.

Lemma after_check_log (output_file : path) (overwrite : bool) (w : world) :
  w_log (after_check output_file overwrite w)
  = w_log w ++ (if overwrite then [] else [EvExists output_file]).
Proof. destruct overwrite; simpl; [now rewrite app_nil_r|reflexivity]. Qed.

Lemma after_check_fs (output_file : path) (overwrite : bool) (w : world) :
  w_fs (after_check output_file overwrite w) = w_fs w.
Proof. now destruct overwrite. Qed.

(** On the skip branch the call fails, the file system is the same and
    the log gains the test and at most one line. *)
Lemma decrypt_file_skip_run (w : world) (input_file output_file : path)
    (key header : bytes) :
  is_Some (fs_lookup (w_fs w) output_file) ->
  let r := decrypt_file input_file output_file key header false w in
  failed r.1
  /\ w_fs r.2 = w_fs w
  /\ exists tail : list event,
       events_since w r.2 = EvExists output_file :: tail
       /\ existsb is_mutation tail = false
       /\ existsb is_read tail = false.
Proof.
  intros Hex r. unfold r. rewrite decrypt_file_skipped by assumption.
  destruct (markup_error (MsgSkipping input_file output_file)) as [text|].
  - split; [apply report_error_failed|]. split; [now rewrite report_error_fs|].
    destruct (report_error_log input_file (MarkupError text)
                (log_event (EvExists output_file) w)) as [Hlog|Hlog].
    + exists []. split; [|auto]. apply events_since_app. now rewrite Hlog.
    + exists [EvPrint (MsgError input_file (MarkupError text))]. split; [|auto].
      apply events_since_app. rewrite Hlog. simpl. now rewrite <- app_assoc.
  - split; [now left|]. split; [reflexivity|].
    exists [EvPrint (MsgSkipping input_file output_file)]. split; [|auto].
    apply events_since_app. simpl. now rewrite <- app_assoc.
Qed.

(** A run that was not skipped and did not reach the write leaves the file
    system alone and logs the test, the read and at most one message. *)
Lemma no_write_branch (w : world) (input_file output_file : path) (overwrite : bool)
    (tail : list event) :
  existsb is_mutation tail = false ->
  let w1 := log_event (EvRead input_file) (after_check output_file overwrite w) in
  forall w', w_fs w' = w_fs w1 -> w_log w' = w_log w1 ++ tail ->
    w_fs w' = w_fs w /\ existsb is_mutation (events_since w w') = false.
Proof.
  intros Htail w1 w' Hfs Hlog. split.
  - rewrite Hfs. unfold w1. simpl. apply after_check_fs.
  - rewrite (events_since_app w w'
               ((if overwrite then [] else [EvExists output_file])
                ++ [EvRead input_file] ++ tail)).
    + rewrite !existsb_app, Htail. now destruct overwrite.
    + rewrite Hlog. unfold w1, log_event. simpl.
      rewrite after_check_log, <- !app_assoc. reflexivity.
Qed.

(** The same after the handler ran. *)
Lemma no_write_branch_reported (w : world) (input_file output_file : path)
    (overwrite : bool) (e : exn) :
  let w1 := log_event (EvRead input_file) (after_check output_file overwrite w) in
  let r := report_error input_file e w1 in
  failed r.1 /\ w_fs r.2 = w_fs w /\ existsb is_mutation (events_since w r.2) = false.
Proof.
  intros w1 r. split; [apply report_error_failed|].
  destruct (report_error_log input_file e w1) as [Hlog|Hlog].
  - apply (no_write_branch w input_file output_file overwrite []);
      [reflexivity|apply report_error_fs|]. fold w1. now rewrite app_nil_r.
  - apply (no_write_branch w input_file output_file overwrite
             [EvPrint (MsgError input_file e)]);
      [reflexivity|apply report_error_fs|exact Hlog].
Qed.

(** ** The file decoder: the stated properties *)

(** C5. With [overwrite] false and a file at the output path, the call
    reads no file and leaves the file system, and so that file's bytes, as
    they were. When the console renders the skip line the call returns
    [False], having logged the existence test and that line only. When the
    console rejects the skip line (a path holding a closing tag, as
    [d[/x].php]), the exception is caught and the handler prints its error
    line: if that line renders the call still returns [False]; if the
    console rejects it too, the call raises [MarkupError] and returns
    nothing. *)
Theorem decrypt_file_skip_semantics (w : world) (input_file output_file : path)
    (key header content : bytes) :
  fs_lookup (w_fs w) output_file = Some (File content) ->
  let r := decrypt_file input_file output_file key header false w in
  (existsb is_read (events_since w r.2) = false
   /\ w_fs r.2 = w_fs w
   /\ fs_lookup (w_fs r.2) output_file = Some (File content))
  /\ (markup_error (MsgSkipping input_file output_file) = None ->
      r.1 = Return false
      /\ events_since w r.2
         = [EvExists output_file; EvPrint (MsgSkipping input_file output_file)])
  /\ (forall text : string,
        markup_error (MsgSkipping input_file output_file) = Some text ->
        markup_error (MsgError input_file (MarkupError text)) = None ->
        r.1 = Return false
        /\ events_since w r.2
           = [EvExists output_file; EvPrint (MsgError input_file (MarkupError text))])
  /\ (forall text text' : string,
        markup_error (MsgSkipping input_file output_file) = Some text ->
        markup_error (MsgError input_file (MarkupError text)) = Some text' ->
        r = (Raise (MarkupError text'), log_event (EvExists output_file) w)).
Proof.
  intros Hfile r.
  assert (Hex : is_Some (fs_lookup (w_fs w) output_file)) by (rewrite Hfile; eauto).
  split; [|split; [|split]].
  - destruct (decrypt_file_skip_run w input_file output_file key header Hex)
      as (_ & Hfs & tail & Hev & _ & Hread). fold r in Hfs, Hev.
    rewrite Hev, Hfs. simpl. auto.
  - intros Hok. unfold r. rewrite decrypt_file_skipped, Hok by assumption.
    split; [reflexivity|]. apply events_since_app. simpl. now rewrite <- app_assoc.
  - intros text Hskip Herr. unfold r.
    rewrite decrypt_file_skipped, Hskip, report_error_run, Herr by assumption.
    split; [reflexivity|]. apply events_since_app. simpl. now rewrite <- app_assoc.
  - intros text text' Hskip Herr. unfold r.
    now rewrite decrypt_file_skipped, Hskip, report_error_run, Herr by assumption.
Qed.

(** C4. An input that is exactly the header decodes to the empty buffer,
    which is not [None]. When the decoding of the file's content gives
    [None] and when it gives the empty buffer, [decrypt_file] does the
    same: a call that reaches the decoding returns [False] with the read as
    the last thing logged, and changes nothing in the file system. Such a
    call never returns [True]; when it is skipped instead (the content is
    then not read), it returns [False] too if the skip line renders. *)
Theorem zero_length_decode :
  (forall key header : bytes,
      decrypt_content header key header = Return (Some [])
      /\ decrypt_content header key header <> Return None)
  /\ (forall (w : world) (input_file output_file : path) (key header : bytes)
             (overwrite : bool) (content : bytes),
        fs_read input_file (w_fs w) = Return content ->
        decrypt_content content key header = Return None
        \/ decrypt_content content key header = Return (Some []) ->
        let r := decrypt_file input_file output_file key header overwrite w in
        (overwrite = true \/ fs_lookup (w_fs w) output_file = None ->
         r = (Return false,
              log_event (EvRead input_file) (after_check output_file overwrite w)))
        /\ (markup_error (MsgSkipping input_file output_file) = None ->
            r.1 = Return false)
        /\ failed r.1
        /\ w_fs r.2 = w_fs w).
Proof.
  split.
  - intros key header.
    assert (H : decrypt_content header key header = Return (Some [])).
    { unfold decrypt_content. rewrite firstn_all, skipn_all.
      rewrite bool_decide_eq_true_2 by reflexivity. reflexivity. }
    rewrite H. split; [reflexivity|discriminate].
  - intros w input_file output_file key header overwrite content Hread Hdec r.
    assert (Hrun : overwrite = true \/ fs_lookup (w_fs w) output_file = None ->
              r = (Return false,
                   log_event (EvRead input_file) (after_check output_file overwrite w))).
    { intros Hns. unfold r. rewrite decrypt_file_not_skipped by assumption.
      rewrite Hread. simpl. now destruct Hdec as [-> | ->]. }
    split; [exact Hrun|].
    destruct overwrite; [|destruct (fs_lookup (w_fs w) output_file) as [nd|] eqn:Hout].
    + rewrite Hrun by now left. simpl. repeat split. now left.
    + assert (Hex : is_Some (fs_lookup (w_fs w) output_file)) by (rewrite Hout; eauto).
      destruct (decrypt_file_skip_run w input_file output_file key header Hex)
        as (Hfail & Hfs & _). fold r in Hfail, Hfs.
      split; [|split; assumption].
      intros Hok. unfold r. now rewrite decrypt_file_skipped, Hok by assumption.
    + rewrite Hrun by now right. simpl. repeat split. now left.
Qed.

(** A call either fails without touching the file system, or is on the
    branch where the content decoded to a buffer that is not empty. *)
Lemma decrypt_file_cases (w : world) (input_file output_file : path)
    (key header : bytes) (overwrite : bool) :
  let r := decrypt_file input_file output_file key header overwrite w in
  (failed r.1
   /\ w_fs r.2 = w_fs w
   /\ existsb is_mutation (events_since w r.2) = false)
  \/ ((overwrite = true \/ fs_lookup (w_fs w) output_file = None)
      /\ exists content data : bytes,
           fs_read input_file (w_fs w) = Return content
           /\ decrypt_content content key header = Return (Some data)
           /\ data <> []).
Proof.
  intros r.
  assert (Hskip : overwrite = false -> is_Some (fs_lookup (w_fs w) output_file) ->
            failed r.1 /\ w_fs r.2 = w_fs w
            /\ existsb is_mutation (events_since w r.2) = false).
  { intros -> Hex.
    destruct (decrypt_file_skip_run w input_file output_file key header Hex)
      as (Hfail & Hfs & tail & Hev & Hmut & _). fold r in Hfail, Hfs, Hev.
    rewrite Hev. simpl. auto. }
  assert (Hrun : overwrite = true \/ fs_lookup (w_fs w) output_file = None ->
            (failed r.1 /\ w_fs r.2 = w_fs w
             /\ existsb is_mutation (events_since w r.2) = false)
            \/ exists content data : bytes,
                 fs_read input_file (w_fs w) = Return content
                 /\ decrypt_content content key header = Return (Some data)
                 /\ data <> []).
  { intros Hns. unfold r. rewrite decrypt_file_not_skipped by assumption. cbv zeta.
    destruct (fs_read input_file (w_fs w) ≫= (fun c => decrypt_content c key header))
      as [[[|b data]|]|e] eqn:Hdec.
    - left. split; [now left|].
      apply (no_write_branch w input_file output_file overwrite []);
        [reflexivity|reflexivity|now rewrite app_nil_r].
    - right. apply bind_Return_inv in Hdec as (c & Hc & Hdec).
      exists c, (b :: data). repeat split; try assumption. discriminate.
    - left. split; [now left|].
      apply (no_write_branch w input_file output_file overwrite []);
        [reflexivity|reflexivity|now rewrite app_nil_r].
    - left. apply no_write_branch_reported. }
  destruct overwrite.
  - destruct (Hrun (or_introl eq_refl)) as [H|H]; [now left|right; split; auto].
  - destruct (fs_lookup (w_fs w) output_file) as [nd|] eqn:Hout.
    + left. apply Hskip; eauto.
    + destruct (Hrun (or_intror eq_refl)) as [H|H]; [now left|right; split; auto].
Qed.

(** C10. When the output exists and [overwrite] is false, when the header
    does not match, or when the decoded buffer is empty, the call does not
    succeed: the file system is what it was and no directory creation or
    write was attempted. The call then returns [False], except that on the
    skip branch it raises when the console rejects the skip line and the
    error line. A change of the file system, or an attempt at one, happens
    only after the content decoded to a buffer that is not empty (and the
    call was not skipped). *)
Theorem decrypt_file_failure_atomic (w : world) (input_file output_file : path)
    (key header : bytes) (overwrite : bool) :
  let r := decrypt_file input_file output_file key header overwrite w in
  ((overwrite = false /\ is_Some (fs_lookup (w_fs w) output_file))
   \/ (exists content, fs_read input_file (w_fs w) = Return content
                       /\ decrypt_content content key header = Return None)
   \/ (exists content, fs_read input_file (w_fs w) = Return content
                       /\ decrypt_content content key header = Return (Some [])) ->
   w_fs r.2 = w_fs w
   /\ fs_lookup (w_fs r.2) output_file = fs_lookup (w_fs w) output_file
   /\ existsb is_mutation (events_since w r.2) = false
   /\ r.1 <> Return true
   /\ failed r.1
   /\ (overwrite = true \/ fs_lookup (w_fs w) output_file = None
       \/ markup_error (MsgSkipping input_file output_file) = None ->
       r.1 = Return false))
  /\ (w_fs r.2 <> w_fs w \/ existsb is_mutation (events_since w r.2) = true ->
      (overwrite = true \/ fs_lookup (w_fs w) output_file = None)
      /\ exists content data : bytes,
           fs_read input_file (w_fs w) = Return content
           /\ decrypt_content content key header = Return (Some data)
           /\ data <> []).
Proof.
  intros r. pose proof (decrypt_file_cases w input_file output_file key header overwrite)
    as Hcases. fold r in Hcases. split.
  - intros Hcause.
    destruct Hcases as [(Hr & Hfs & Hev)|(Hns & c & data & Hc & Hdec & Hne)].
    + split; [exact Hfs|]. split; [now rewrite Hfs|]. split; [exact Hev|].
      split; [destruct Hr as [Hr|[text Hr]]; rewrite Hr; discriminate|].
      split; [exact Hr|]. intros Hside.
      assert (Hns : overwrite = true \/ fs_lookup (w_fs w) output_file = None ->
                r.1 = Return false).
      { intros Hns. unfold r. rewrite decrypt_file_not_skipped by assumption. cbv zeta.
        destruct Hcause as [(Hov & Hex)|[(c' & Hc' & Hd')|(c' & Hc' & Hd')]].
        - exfalso. destruct Hns as [Hov'|Hnone]; [congruence|].
          rewrite Hnone in Hex. destruct Hex as [? ?]. discriminate.
        - rewrite Hc'. simpl. now rewrite Hd'.
        - rewrite Hc'. simpl. now rewrite Hd'. }
      destruct Hside as [Hov|[Hnone|Hok]]; [now apply Hns; left|now apply Hns; right|].
      destruct overwrite; [now apply Hns; left|].
      destruct (fs_lookup (w_fs w) output_file) as [nd|] eqn:Hout;
        [|now apply Hns; right].
      unfold r. rewrite decrypt_file_skipped, Hok by (rewrite Hout; eauto). reflexivity.
    + exfalso. destruct Hcause as [(Hov & Hex)|[(c' & Hc' & Hd')|(c' & Hc' & Hd')]].
      * destruct Hns as [Hov'|Hnone]; [congruence|].
        rewrite Hnone in Hex. destruct Hex as [? ?]. discriminate.
      * rewrite Hc in Hc'. injection Hc' as <-. congruence.
      * rewrite Hc in Hc'. injection Hc' as <-. congruence.
  - intros Hchange.
    destruct Hcases as [(Hr & Hfs & Hev)|H]; [|exact H].
    exfalso. destruct Hchange as [Hne|Hmut]; [now apply Hne|].
    rewrite Hev in Hmut. discriminate.
Qed.

(** ** The file decoder: further properties *)

(** The branch that writes, in full: the directory creation, then the
    write, each of which may raise and hand over to the handler. *)
Lemma decrypt_file_write_branch (w : world) (input_file output_file : path)
    (key header : bytes) (overwrite : bool) (content data : bytes) :
  overwrite = true \/ fs_lookup (w_fs w) output_file = None ->
  fs_read input_file (w_fs w) = Return content ->
  decrypt_content content key header = Return (Some data) ->
  data <> [] ->
  let w1 := log_event (EvRead input_file) (after_check output_file overwrite w) in
  decrypt_file input_file output_file key header overwrite w
  = match mkdir_rec (length (parent output_file)) (parent output_file) (w_fs w) with
    | Raise e =>
        report_error input_file e
          (World (w_fs w) (w_log w1 ++ [EvMkdir (parent output_file)]))
    | Return fs2 =>
        match fs_write output_file data fs2 with
        | Raise e =>
            report_error input_file e
              (World fs2
                 (w_log w1 ++ [EvMkdir (parent output_file); EvWrite output_file data]))
        | Return fs3 =>
            (Return true,
             World fs3
               (w_log w1 ++ [EvMkdir (parent output_file); EvWrite output_file data]))
        end
    end.
Proof.
  intros Hns Hread Hdec Hne. cbv zeta.
  rewrite decrypt_file_not_skipped by assumption. cbv zeta.
  rewrite Hread. change (Return content ≫= (fun c => decrypt_content c key header))
    with (decrypt_content content key header). rewrite Hdec.
  destruct data as [|b data]; [congruence|].
  unfold mkdir_parents, write_bytes, log_event. simpl. rewrite !after_check_fs.
  destruct (mkdir_rec _ _ (w_fs w)) as [fs2|e]; simpl.
  - destruct (fs_write output_file (b :: data) fs2) as [fs3|e]; simpl;
      now rewrite <- !app_assoc.
  - reflexivity.
Qed.

(** What a [True] result went through: the directory creation and the
    write both returned. *)
Lemma decrypt_file_true_run (w : world) (input_file output_file : path)
    (key header : bytes) (overwrite : bool) :
  (decrypt_file input_file output_file key header overwrite w).1 = Return true ->
  exists (content data : bytes) (fs2 fs3 : gmap path node),
    (overwrite = true \/ fs_lookup (w_fs w) output_file = None)
    /\ fs_read input_file (w_fs w) = Return content
    /\ decrypt_content content key header = Return (Some data)
    /\ data <> []
    /\ mkdir_rec (length (parent output_file)) (parent output_file) (w_fs w) = Return fs2
    /\ fs_write output_file data fs2 = Return fs3
    /\ decrypt_file input_file output_file key header overwrite w
       = (Return true,
          World fs3
            (w_log (log_event (EvRead input_file) (after_check output_file overwrite w))
             ++ [EvMkdir (parent output_file); EvWrite output_file data])).
Proof.
  intros Htrue.
  assert (Hnot : forall e w0, (report_error input_file e w0).1 <> Return true).
  { intros e w0 H. destruct (report_error_failed input_file e w0) as [Hf|[text Hf]];
      rewrite Hf in H; discriminate. }
  destruct (decrypt_file_cases w input_file output_file key header overwrite)
    as [([Hfalse|[text Hfalse]] & _)|(Hns & content & data & Hread & Hdec & Hne)];
    [congruence|congruence|].
  pose proof (decrypt_file_write_branch _ _ _ _ _ _ _ _ Hns Hread Hdec Hne) as Hrun.
  cbv zeta in Hrun. rewrite Hrun in Htrue |- *.
  destruct (mkdir_rec _ _ (w_fs w)) as [fs2|e] eqn:Hmk; [|now apply Hnot in Htrue].
  destruct (fs_write output_file data fs2) as [fs3|e] eqn:Hw; [|now apply Hnot in Htrue].
  exists content, data, fs2, fs3. repeat split; assumption || reflexivity.
Qed.

(** X6. When [decrypt_file] returns [True], the input file was read, its
    content decoded to a buffer that is not empty, the output path now
    holds exactly that buffer, and the write is the last thing logged. *)
Theorem decrypt_file_true (w : world) (input_file output_file : path)
    (key header : bytes) (overwrite : bool) :
  let r := decrypt_file input_file output_file key header overwrite w in
  r.1 = Return true ->
  exists content data : bytes,
    fs_read input_file (w_fs w) = Return content
    /\ decrypt_content content key header = Return (Some data)
    /\ data <> []
    /\ (overwrite = true \/ fs_lookup (w_fs w) output_file = None)
    /\ fs_lookup (w_fs r.2) output_file = Some (File data)
    /\ last (w_log r.2) = Some (EvWrite output_file data).
Proof.
  intros r Htrue.
  destruct (decrypt_file_true_run _ _ _ _ _ _ Htrue)
    as (content & data & fs2 & fs3 & Hns & Hread & Hdec & Hne & Hmk & Hw & Hrun).
  exists content, data. unfold r. rewrite Hrun. simpl.
  apply fs_write_Return in Hw as [-> Hnd].
  repeat split; try assumption.
  - now apply fs_lookup_insert_eq.
  - rewrite last_app. reflexivity.
Qed.




(** X9. An exception raised by the read or by the decoding (a missing
    input, an input under a regular file, an input that is a directory, an
    empty key) is caught and handed to the handler, and nothing changes in
    the file system. When the console renders the error line, the call
    returns [False] and that line, with the input path and the exception,
    is logged last. When the console rejects it, the call raises the
    [MarkupError] of the print and the read stays the last thing logged. *)
Theorem decrypt_file_reports_exception (w : world) (input_file output_file : path)
    (key header : bytes) (overwrite : bool) (e : exn) :
  overwrite = true \/ fs_lookup (w_fs w) output_file = None ->
  fs_read input_file (w_fs w) ≫= (fun c => decrypt_content c key header) = Raise e ->
  let r := decrypt_file input_file output_file key header overwrite w in
  w_fs r.2 = w_fs w
  /\ existsb is_mutation (events_since w r.2) = false
  /\ (markup_error (MsgError input_file e) = None ->
      r.1 = Return false
      /\ last (w_log r.2) = Some (EvPrint (MsgError input_file e)))
  /\ (forall text : string,
        markup_error (MsgError input_file e) = Some text ->
        r.1 = Raise (MarkupError text)
        /\ last (w_log r.2) = Some (EvRead input_file)).
Proof.
  intros Hns Hraise r. unfold r.
  rewrite decrypt_file_not_skipped by assumption. cbv zeta. rewrite Hraise.
  destruct (no_write_branch_reported w input_file output_file overwrite e)
    as (_ & Hfs & Hmut).
  split; [exact Hfs|]. split; [exact Hmut|].
  rewrite report_error_run. split.
  - intros ->. simpl. split; [reflexivity|apply last_snoc].
  - intros text ->. simpl. split; [reflexivity|apply last_snoc].
Qed.

(** What a call does to the file system: it adds directories, and then
    possibly puts the output file. *)
Lemma decrypt_file_fs_effect (w : world) (input_file output_file : path)
    (key header : bytes) (overwrite : bool) :
  exists fs2 : gmap path node,
    fs_extends (w_fs w) fs2
    /\ (w_fs (decrypt_file input_file output_file key header overwrite w).2 = fs2
        \/ exists data : bytes,
             w_fs (decrypt_file input_file output_file key header overwrite w).2
             = <[output_file := File data]> fs2
             /\ fs_lookup fs2 output_file <> Some Dir
             /\ (overwrite = true \/ fs_lookup (w_fs w) output_file = None)).
Proof.
  destruct (decrypt_file_cases w input_file output_file key header overwrite)
    as [(_ & Hfs & _)|(Hns & content & data & Hread & Hdec & Hne)].
  - exists (w_fs w). split; [apply fs_extends_refl|now left].
  - rewrite (decrypt_file_write_branch _ _ _ _ _ _ _ _ Hns Hread Hdec Hne).
    destruct (mkdir_rec _ _ (w_fs w)) as [fs2|e] eqn:Hmk.
    + apply mkdir_rec_extends in Hmk as [Hext _]. exists fs2. split; [exact Hext|].
      destruct (fs_write output_file data fs2) as [fs3|e] eqn:Hw.
      * apply fs_write_Return in Hw as [-> Hnd]. right. exists data. auto.
      * left. now rewrite report_error_fs.
    + exists (w_fs w). split; [apply fs_extends_refl|]. left. now rewrite report_error_fs.
Qed.

Lemma decrypt_file_keeps_kinds (w : world) (input_file output_file : path)
    (key header : bytes) (overwrite : bool) :
  fs_keeps_kinds (w_fs w)
    (w_fs (decrypt_file input_file output_file key header overwrite w).2).
Proof.
  destruct (decrypt_file_fs_effect w input_file output_file key header overwrite)
    as (fs2 & Hext & [Hfs | (data & Hfs & Hnd & _)]); rewrite Hfs.
  - now apply fs_extends_keeps_kinds.
  - intros q n Hq. apply Hext in Hq. destruct (decide (q = output_file)) as [->|Hne].
    + exists (File data). rewrite fs_lookup_insert_eq by assumption.
      split; [reflexivity|]. destruct n; [exact I|congruence].
    + exists n. rewrite fs_lookup_insert_ne by assumption.
      split; [exact Hq|apply same_kind_refl].
Qed.

(** Without [overwrite] a call changes no existing entry. *)
Lemma decrypt_file_extends (w : world) (input_file output_file : path)
    (key header : bytes) :
  fs_extends (w_fs w)
    (w_fs (decrypt_file input_file output_file key header false w).2).
Proof.
  intros q n Hq.
  destruct (decrypt_file_fs_effect w input_file output_file key header false)
    as (fs2 & Hext & [Hfs | (data & Hfs & Hnd & Hns)]); rewrite Hfs.
  - now apply Hext.
  - rewrite fs_lookup_insert_ne; [now apply Hext|].
    intros ->. destruct Hns as [|Hnone]; congruence.
Qed.

(** X10. [decrypt_file] never removes an entry of the file system and
    never turns a file into a directory or a directory into a file; with
    [overwrite] false it leaves every existing entry exactly as it was: no
    existing file is modified. This holds also when the call raises. *)
Theorem decrypt_file_preserves (w : world) (input_file output_file : path)
    (key header : bytes) (overwrite : bool) :
  let fs' := w_fs (decrypt_file input_file output_file key header overwrite w).2 in
  fs_keeps_kinds (w_fs w) fs'
  /\ (overwrite = false -> fs_extends (w_fs w) fs').
Proof.
  cbv zeta. split.
  - apply decrypt_file_keeps_kinds.
  - intros ->. apply decrypt_file_extends.
Qed.

(** X11. After a call that returned [True], the same call without
    [overwrite] is skipped: it reads nothing, changes nothing and does not
    succeed; it returns [False], with the skip line logged last, when the
    console renders that line. *)
Theorem decrypt_file_rerun_skipped (w : world) (input_file output_file : path)
    (key header : bytes) (overwrite : bool) :
  let r := decrypt_file input_file output_file key header overwrite w in
  r.1 = Return true ->
  let r' := decrypt_file input_file output_file key header false r.2 in
  w_fs r'.2 = w_fs r.2
  /\ existsb is_read (events_since r.2 r'.2) = false
  /\ failed r'.1
  /\ (markup_error (MsgSkipping input_file output_file) = None ->
      r'.1 = Return false
      /\ last (w_log r'.2) = Some (EvPrint (MsgSkipping input_file output_file))).
Proof.
  intros r Htrue r'.
  destruct (decrypt_file_true_run _ _ _ _ _ _ Htrue)
    as (content & data & fs2 & fs3 & _ & _ & _ & _ & _ & Hw & Hrun).
  assert (Hout : is_Some (fs_lookup (w_fs r.2) output_file)).
  { exists (File data). unfold r. rewrite Hrun. simpl.
    apply fs_write_Return in Hw as [-> Hnd]. now apply fs_lookup_insert_eq. }
  destruct (decrypt_file_skip_run r.2 input_file output_file key header Hout)
    as (Hfail & Hfs & tail & Hev & _ & Hread). fold r' in Hfail, Hfs, Hev.
  split; [exact Hfs|]. split; [now rewrite Hev|]. split; [exact Hfail|].
  intros Hok. unfold r'. rewrite decrypt_file_skipped, Hok by assumption.
  split; [reflexivity|apply last_snoc].
Qed.

(** ** The batch walker: the decoding loop *)

Lemma mkdir_parents_fs_only (p : path) (w w0 : world) :
  w_fs w = w_fs w0 ->
  (mkdir_parents p w).1 = (mkdir_parents p w0).1
  /\ w_fs (mkdir_parents p w).2 = w_fs (mkdir_parents p w0).2.
Proof.
  intros H. unfold mkdir_parents. rewrite H.
  destruct (mkdir_rec (length p) p (w_fs w0)); simpl; auto.
Qed.

Lemma write_bytes_fs_only (p : path) (data : bytes) (w w0 : world) :
  w_fs w = w_fs w0 ->
  (write_bytes p data w).1 = (write_bytes p data w0).1
  /\ w_fs (write_bytes p data w).2 = w_fs (write_bytes p data w0).2.
Proof.
  intros H. unfold write_bytes. rewrite H.
  destruct (fs_write p data (w_fs w0)); simpl; auto.
Qed.

Lemma report_error_fs_only (input_file : path) (e : exn) (w w0 : world) :
  w_fs w = w_fs w0 ->
  (report_error input_file e w).1 = (report_error input_file e w0).1
  /\ w_fs (report_error input_file e w).2 = w_fs (report_error input_file e w0).2.
Proof.
  intros H. rewrite !report_error_run.
  destruct (markup_error (MsgError input_file e)); simpl; auto.
Qed.

(** What [decrypt_file] returns or raises, and the file system it leaves,
    depend on the file system only, not on the log. *)
Lemma decrypt_file_fs_only (w w0 : world) (input_file output_file : path)
    (key header : bytes) (overwrite : bool) :
  w_fs w = w_fs w0 ->
  (decrypt_file input_file output_file key header overwrite w).1
  = (decrypt_file input_file output_file key header overwrite w0).1
  /\ w_fs (decrypt_file input_file output_file key header overwrite w).2
     = w_fs (decrypt_file input_file output_file key header overwrite w0).2.
Proof.
  intros Hfs.
  assert (Hrun : overwrite = true \/ fs_lookup (w_fs w) output_file = None ->
            (decrypt_file input_file output_file key header overwrite w).1
            = (decrypt_file input_file output_file key header overwrite w0).1
            /\ w_fs (decrypt_file input_file output_file key header overwrite w).2
               = w_fs (decrypt_file input_file output_file key header overwrite w0).2).
  { intros Hns.
    rewrite (decrypt_file_not_skipped w) by assumption.
    rewrite (decrypt_file_not_skipped w0) by (now rewrite <- Hfs).
    cbv zeta. rewrite <- Hfs.
    assert (Hfs1 : w_fs (log_event (EvRead input_file) (after_check output_file overwrite w))
                   = w_fs (log_event (EvRead input_file) (after_check output_file overwrite w0)))
      by (simpl; now rewrite !after_check_fs).
    destruct (fs_read input_file (w_fs w) ≫= (fun c => decrypt_content c key header))
      as [[[|b data]|]|e]; try (simpl; now rewrite ?after_check_fs).
    - destruct (mkdir_parents_fs_only (parent output_file) _ _ Hfs1) as [Hm1 Hm2].
      destruct (mkdir_parents (parent output_file)
                  (log_event (EvRead input_file) (after_check output_file overwrite w)))
        as [[[]|e] w2];
      destruct (mkdir_parents (parent output_file)
                  (log_event (EvRead input_file) (after_check output_file overwrite w0)))
        as [[[]|e0] w2']; simpl in Hm1, Hm2; try discriminate.
      + destruct (write_bytes_fs_only output_file (b :: data) _ _ Hm2) as [Hw1 Hw2].
        destruct (write_bytes output_file (b :: data) w2) as [[[]|e] w3];
        destruct (write_bytes output_file (b :: data) w2') as [[[]|e0] w3'];
          simpl in Hw1, Hw2; try discriminate.
        * auto.
        * injection Hw1 as <-. now apply report_error_fs_only.
      + injection Hm1 as <-. now apply report_error_fs_only.
    - now apply report_error_fs_only. }
  destruct overwrite.
  - apply Hrun. now left.
  - destruct (fs_lookup (w_fs w) output_file) as [nd|] eqn:Hout.
    + rewrite (decrypt_file_skipped w) by (rewrite Hout; eauto).
      rewrite (decrypt_file_skipped w0) by (rewrite <- Hfs, Hout; eauto).
      destruct (markup_error (MsgSkipping input_file output_file)); [|auto].
      now apply report_error_fs_only.
    + apply Hrun. now right.
Qed.

(** When the console renders the lines of a task, the call returns. *)
Lemma report_error_returns (input_file : path) (e : exn) (w : world) :
  markup_error (MsgError input_file e) = None ->
  (report_error input_file e w).1 = Return false.
Proof. intros H. now rewrite report_error_run, H. Qed.

Lemma decrypt_file_returns (w : world) (input_file output_file : path)
    (key header : bytes) (overwrite : bool) :
  task_renders (input_file, output_file) ->
  exists b : bool,
    (decrypt_file input_file output_file key header overwrite w).1 = Return b.
Proof.
  intros [Hskip Herr]. simpl in Hskip, Herr.
  destruct (decrypt_file_cases w input_file output_file key header overwrite)
    as [(Hfail & _)|(Hns & content & data & Hread & Hdec & Hne)].
  - destruct Hfail as [Hf|[text Hf]]; [eauto|]. exfalso.
    destruct overwrite; [|destruct (fs_lookup (w_fs w) output_file) as [nd|] eqn:Hout].
    + rewrite decrypt_file_not_skipped in Hf by now left. cbv zeta in Hf.
      destruct (fs_read input_file (w_fs w) ≫= (fun c => decrypt_content c key header))
        as [[[|b data]|]|e]; try discriminate.
      * destruct (mkdir_parents _ _) as [[[]|e] w2].
        -- destruct (write_bytes _ _ _) as [[[]|e] w3]; [discriminate|].
           rewrite report_error_returns in Hf by auto. discriminate.
        -- rewrite report_error_returns in Hf by auto. discriminate.
      * rewrite report_error_returns in Hf by auto. discriminate.
    + rewrite decrypt_file_skipped, Hskip in Hf by (rewrite Hout; eauto). discriminate.
    + rewrite decrypt_file_not_skipped in Hf by now right. cbv zeta in Hf.
      destruct (fs_read input_file (w_fs w) ≫= (fun c => decrypt_content c key header))
        as [[[|b data]|]|e]; try discriminate.
      * destruct (mkdir_parents _ _) as [[[]|e] w2].
        -- destruct (write_bytes _ _ _) as [[[]|e] w3]; [discriminate|].
           rewrite report_error_returns in Hf by auto. discriminate.
        -- rewrite report_error_returns in Hf by auto. discriminate.
      * rewrite report_error_returns in Hf by auto. discriminate.
  - rewrite (decrypt_file_write_branch _ _ _ _ _ _ _ _ Hns Hread Hdec Hne).
    destruct (mkdir_rec _ _ (w_fs w)) as [fs2|e].
    + destruct (fs_write output_file data fs2) as [fs3|e]; [now exists true|].
      exists false. now apply report_error_returns.
    + exists false. now apply report_error_returns.
Qed.

(** One iteration of the decoding loop: the description, the call, and
    then, unless the call raised, the count and the completion. *)
Lemma process_step_run (key header : bytes) (overwrite : bool) (success_count idx : nat)
    (input_file output_file : path) (w : world) :
  process_step key header overwrite success_count (idx, (input_file, output_file)) w
  = let d := decrypt_file input_file output_file key header overwrite
               (log_event (EvProgressDescription (path_name input_file)) w) in
    match d.1 with
    | Return ok =>
        (Return (if ok then S success_count else success_count),
         log_event (EvProgressCompleted (idx + 1)) d.2)
    | Raise e => (Raise e, d.2)
    end.
Proof.
  unfold process_step, mbind, io_bind, emit. cbv beta iota zeta.
  destruct (decrypt_file input_file output_file key header overwrite _) as [[ok|e] w2];
    reflexivity.
Qed.

(** The count grows by one exactly when [decrypt_file] returns [True];
    what the iteration does to the file system is what the call does. *)
Lemma process_step_spec (key header : bytes) (overwrite : bool) (success_count idx : nat)
    (input_file output_file : path) (w : world) :
  let s := process_step key header overwrite success_count
             (idx, (input_file, output_file)) w in
  w_fs s.2
  = w_fs (decrypt_file input_file output_file key header overwrite (World (w_fs w) [])).2
  /\ forall c : nat,
       s.1 = Return c ->
       c = (success_count
            + successes (decode_outcomes key header overwrite
                           [(input_file, output_file)] (w_fs w)))%nat.
Proof.
  cbv zeta. rewrite process_step_run. cbv zeta.
  destruct (decrypt_file_fs_only
              (log_event (EvProgressDescription (path_name input_file)) w)
              (World (w_fs w) []) input_file output_file key header overwrite eq_refl)
    as (Hres & Hfs).
  simpl. rewrite <- Hres.
  destruct (decrypt_file input_file output_file key header overwrite
              (log_event (EvProgressDescription (path_name input_file)) w))
    as [[ok|e] w2]; simpl in *.
  - split; [exact Hfs|]. intros c [= <-]. unfold successes.
    destruct ok; simpl; lia.
  - split; [exact Hfs|]. discriminate.
Qed.

Lemma successes_app (l1 l2 : list bool) :
  successes (l1 ++ l2) = (successes l1 + successes l2)%nat.
Proof. unfold successes. now rewrite filter_app, length_app. Qed.

Lemma successes_le (l : list bool) : (successes l <= length l)%nat.
Proof. unfold successes. apply length_filter. Qed.

Lemma decode_outcomes_length (key header : bytes) (overwrite : bool)
    (tasks : list (path * path)) :
  forall fs, length (decode_outcomes key header overwrite tasks fs) = length tasks.
Proof.
  induction tasks as [|[i o] tasks IH]; intros fs; simpl; [reflexivity|].
  now rewrite IH.
Qed.

(** The decoding loop: when it returns, the final count is the initial one
    plus the number of tasks on which [decrypt_file] returned [True]. *)
Lemma process_loop_spec (key header : bytes) (overwrite : bool)
    (items : list (nat * (path * path))) :
  forall (success_count c : nat) (w w' : world),
    io_for_each (process_step key header overwrite) items success_count w
    = (Return c, w') ->
    c = (success_count
         + successes (decode_outcomes key header overwrite (snd <$> items) (w_fs w)))%nat.
Proof.
  induction items as [|[idx [input_file output_file]] items IH]; intros c0 c w w' Hrun.
  - simpl in Hrun. injection Hrun as <- _. simpl. unfold successes. simpl. lia.
  - cbn [io_for_each] in Hrun. unfold mbind at 1, io_bind at 1 in Hrun.
    destruct (process_step_spec key header overwrite c0 idx input_file output_file w)
      as (Hfs & Hcount). cbv zeta in Hfs, Hcount.
    destruct (process_step key header overwrite c0 (idx, (input_file, output_file)) w)
      as [[c1|e] w1]; [|discriminate].
    simpl in Hfs, Hcount. apply IH in Hrun. rewrite Hrun, (Hcount c1 eq_refl), Hfs.
    change (snd <$> (idx, (input_file, output_file)) :: items)
      with ([(input_file, output_file)] ++ (snd <$> items)).
    cbn [app decode_outcomes].
    change (?b :: ?l) with ([b] ++ l) at 2.
    rewrite successes_app. lia.
Qed.

(** The loop returns when the console renders the lines of every task. *)
Lemma process_loop_returns (key header : bytes) (overwrite : bool)
    (items : list (nat * (path * path))) :
  Forall task_renders (snd <$> items) ->
  forall (success_count : nat) (w : world),
  exists (c : nat) (w' : world),
    io_for_each (process_step key header overwrite) items success_count w
    = (Return c, w').
Proof.
  induction items as [|[idx [input_file output_file]] items IH]; intros Hall c0 w.
  - exists c0, w. reflexivity.
  - rewrite fmap_cons in Hall. apply Forall_cons in Hall as [Htask Hall].
    cbn [io_for_each]. unfold mbind at 1, io_bind at 1.
    rewrite process_step_run. cbv zeta.
    destruct (decrypt_file_returns
                (log_event (EvProgressDescription (path_name input_file)) w)
                input_file output_file key header overwrite Htask) as [ok Hok].
    rewrite Hok. apply IH. exact Hall.
Qed.

Lemma snd_imap_pair {A : Type} (l : list A) :
  snd <$> imap (fun (idx : nat) (x : A) => (idx, x)) l = l.
Proof.
  rewrite fmap_imap.
  rewrite (imap_ext _ (const id) l) by reflexivity.
  rewrite imap_const. apply list_fmap_id.
Qed.

Lemma mkdir_parents_prefix (p : path) (w : world) :
  w_log w `prefix_of` w_log (mkdir_parents p w).2.
Proof.
  unfold mkdir_parents. destruct (mkdir_rec (length p) p (w_fs w)); now exists [EvMkdir p].
Qed.

Lemma write_bytes_prefix (p : path) (data : bytes) (w : world) :
  w_log w `prefix_of` w_log (write_bytes p data w).2.
Proof.
  unfold write_bytes. destruct (fs_write p data (w_fs w)); now exists [EvWrite p data].
Qed.

Lemma report_error_prefix (input_file : path) (e : exn) (w : world) :
  w_log w `prefix_of` w_log (report_error input_file e w).2.
Proof.
  destruct (report_error_log input_file e w) as [-> | ->];
    [reflexivity|now eexists].
Qed.

Lemma decrypt_file_prefix (w : world) (input_file output_file : path)
    (key header : bytes) (overwrite : bool) :
  w_log w `prefix_of` w_log (decrypt_file input_file output_file key header overwrite w).2.
Proof.
  assert (Hchk : w_log w `prefix_of`
                 w_log (log_event (EvRead input_file) (after_check output_file overwrite w))).
  { etrans; [|apply log_event_prefix]. rewrite after_check_log. now eexists. }
  assert (Hrun : overwrite = true \/ fs_lookup (w_fs w) output_file = None ->
            w_log w `prefix_of`
            w_log (decrypt_file input_file output_file key header overwrite w).2).
  { intros Hns. rewrite decrypt_file_not_skipped by assumption. cbv zeta.
    destruct (fs_read input_file (w_fs w) ≫= (fun c => decrypt_content c key header))
      as [[[|b data]|]|e]; simpl; try assumption.
    - pose proof (mkdir_parents_prefix (parent output_file)
                    (log_event (EvRead input_file) (after_check output_file overwrite w)))
        as Hm.
      destruct (mkdir_parents (parent output_file) _) as [[[]|e] w2]; simpl in Hm.
      + pose proof (write_bytes_prefix output_file (b :: data) w2) as Hw.
        destruct (write_bytes output_file (b :: data) w2) as [[[]|e] w3]; simpl in *.
        * etrans; [exact Hchk|]. etrans; [exact Hm|exact Hw].
        * etrans; [exact Hchk|]. etrans; [exact Hm|]. etrans; [exact Hw|].
          apply report_error_prefix.
      + etrans; [exact Hchk|]. etrans; [exact Hm|]. apply report_error_prefix.
    - etrans; [exact Hchk|]. apply report_error_prefix. }
  destruct overwrite.
  - apply Hrun. now left.
  - destruct (fs_lookup (w_fs w) output_file) as [nd|] eqn:Hout.
    + rewrite decrypt_file_skipped by (rewrite Hout; eauto).
      destruct (markup_error (MsgSkipping input_file output_file)).
      * etrans; [apply (log_event_prefix (EvExists output_file))|].
        apply report_error_prefix.
      * exists [EvExists output_file; EvPrint (MsgSkipping input_file output_file)].
        simpl. now rewrite <- app_assoc.
    + apply Hrun. now right.
Qed.

Lemma process_step_prefix (key header : bytes) (overwrite : bool) (success_count : nat)
    (item : nat * (path * path)) (w : world) :
  w_log w `prefix_of` w_log (process_step key header overwrite success_count item w).2.
Proof.
  destruct item as [idx [input_file output_file]].
  pose proof (decrypt_file_prefix
                (log_event (EvProgressDescription (path_name input_file)) w)
                input_file output_file key header overwrite) as Hd.
  rewrite process_step_run. cbv zeta.
  destruct (decrypt_file input_file output_file key header overwrite _) as [[b|e] w2];
    simpl in *.
  - etrans; [apply log_event_prefix|]. etrans; [exact Hd|]. apply log_event_prefix.
  - etrans; [apply log_event_prefix|]. exact Hd.
Qed.

Lemma process_loop_prefix (key header : bytes) (overwrite : bool)
    (items : list (nat * (path * path))) :
  forall (success_count : nat) (w : world),
    w_log w `prefix_of`
    w_log (io_for_each (process_step key header overwrite) items success_count w).2.
Proof.
  induction items as [|item items IH]; intros c w; [reflexivity|].
  cbn [io_for_each]. unfold mbind at 1, io_bind at 1.
  pose proof (process_step_prefix key header overwrite c item w) as Hs.
  destruct (process_step key header overwrite c item w) as [[c'|e] w1]; simpl in *.
  - etrans; [exact Hs|]. apply IH.
  - exact Hs.
Qed.

(** ** The batch walker: the stated properties *)

(** With no task, [process_directory] prints one line and returns, or
    raises what the print raises; nothing else happens. *)
Lemma process_directory_empty
    (os_walk : gmap path node -> path -> list (path * list string * list string))
    (input_dir output_dir : path) (key header : bytes) (extension : string)
    (overwrite : bool) (w : world) :
  collect_files input_dir output_dir extension (os_walk (w_fs w) input_dir) = Return [] ->
  process_directory os_walk input_dir output_dir key header extension overwrite w
  = match markup_error (MsgNoFiles extension) with
    | None => (Return (0%nat, 0%nat), log_event (EvPrint (MsgNoFiles extension)) w)
    | Some text => (Raise (MarkupError text), w)
    end.
Proof.
  intros Hcollect. unfold process_directory. rewrite Hcollect.
  unfold mbind at 1, io_bind at 1, lift. cbv beta iota zeta. simpl.
  unfold mbind, io_bind. rewrite console_print_run by reflexivity.
  now destruct (markup_error (MsgNoFiles extension)).
Qed.

(** With tasks, it runs the loop between the start and the stop of the
    progress bar, and returns the count of the loop with the number of
    tasks, or raises what the loop raises. *)
Lemma process_directory_run
    (os_walk : gmap path node -> path -> list (path * list string * list string))
    (input_dir output_dir : path) (key header : bytes) (extension : string)
    (overwrite : bool) (w : world) (tasks : list (path * path)) :
  collect_files input_dir output_dir extension (os_walk (w_fs w) input_dir)
  = Return tasks ->
  tasks <> [] ->
  process_directory os_walk input_dir output_dir key header extension overwrite w
  = let l := io_for_each (process_step key header overwrite)
               (imap (fun (idx : nat) (task : path * path) => (idx, task)) tasks) 0%nat
               (log_event (EvProgressAddTask (length tasks))
                  (log_event EvProgressStart w)) in
    (match l.1 with
     | Return success_count => Return (success_count, length tasks)
     | Raise e => Raise e
     end,
     log_event EvProgressStop l.2).
Proof.
  intros Hcollect Hne. unfold process_directory. rewrite Hcollect.
  unfold mbind at 1, io_bind at 1, lift. cbv beta iota zeta.
  destruct (length tasks =? 0)%nat eqn:Hn.
  { apply Nat.eqb_eq in Hn. now apply length_zero_iff_nil in Hn. }
  unfold with_progress, mbind, io_bind, emit, mret, io_ret. cbv beta iota zeta.
  destruct (io_for_each _ _ _ _) as [[c|e] w3]; reflexivity.
Qed.

(** On a well-formed walk, the pair [process_directory] returns, when it
    returns: the number of [True] results and the number of matched
    files. *)
Lemma process_directory_counts
    (os_walk : gmap path node -> path -> list (path * list string * list string))
    (input_dir output_dir : path) (key header : bytes) (extension : string)
    (overwrite : bool) (w : world) (counts : nat * nat) :
  walk_ok input_dir (os_walk (w_fs w) input_dir) = true ->
  (process_directory os_walk input_dir output_dir key header extension overwrite w).1
  = Return counts ->
  counts
  = (successes
       (decode_outcomes key header overwrite
          (spec_task input_dir output_dir
             <$> matched_files extension (os_walk (w_fs w) input_dir))
          (w_fs w)),
     length (matched_files extension (os_walk (w_fs w) input_dir))).
Proof.
  intros Hok.
  pose proof (collect_files_spec input_dir output_dir extension _ Hok) as Hcollect.
  set (tasks := spec_task input_dir output_dir
                  <$> matched_files extension (os_walk (w_fs w) input_dir)) in *.
  assert (Hlen : length tasks
                 = length (matched_files extension (os_walk (w_fs w) input_dir)))
    by (unfold tasks; now rewrite length_fmap).
  rewrite <- Hlen.
  destruct (decide (tasks = [])) as [Hnil|Hne].
  - pose proof Hcollect as Hrun. rewrite Hnil in Hrun.
    apply (process_directory_empty os_walk _ _ key header _ overwrite) in Hrun.
    rewrite Hrun, Hnil.
    destruct (markup_error (MsgNoFiles extension)); [discriminate|].
    now intros [= <-].
  - rewrite (process_directory_run os_walk _ _ key header _ overwrite w tasks Hcollect Hne).
    cbv zeta.
    set (items := imap (fun (idx : nat) (task : path * path) => (idx, task)) tasks).
    set (w2 := log_event (EvProgressAddTask (length tasks))
                 (log_event EvProgressStart w)).
    assert (Hsnd : snd <$> items = tasks) by apply snd_imap_pair.
    destruct (io_for_each (process_step key header overwrite) items 0%nat w2)
      as [[c|e] w3] eqn:Hloop; [|discriminate].
    simpl. intros [= <-].
    apply process_loop_spec in Hloop. rewrite Hsnd in Hloop. now rewrite Hloop.
Qed.

(** It returns when the console renders the lines it may print. *)
Lemma process_directory_returns
    (os_walk : gmap path node -> path -> list (path * list string * list string))
    (input_dir output_dir : path) (key header : bytes) (extension : string)
    (overwrite : bool) (w : world) (tasks : list (path * path)) :
  collect_files input_dir output_dir extension (os_walk (w_fs w) input_dir)
  = Return tasks ->
  markup_error (MsgNoFiles extension) = None ->
  Forall task_renders tasks ->
  exists counts : nat * nat,
    (process_directory os_walk input_dir output_dir key header extension overwrite w).1
    = Return counts.
Proof.
  intros Hcollect Hnone Hall.
  destruct (decide (tasks = [])) as [Hnil|Hne].
  - rewrite Hnil in Hcollect.
    rewrite (process_directory_empty os_walk _ _ key header _ overwrite w Hcollect), Hnone.
    now eexists.
  - rewrite (process_directory_run os_walk _ _ key header _ overwrite w tasks Hcollect Hne).
    cbv zeta.
    set (items := imap (fun (idx : nat) (task : path * path) => (idx, task)) tasks).
    assert (Hsnd : snd <$> items = tasks) by apply snd_imap_pair.
    rewrite <- Hsnd in Hall.
    destruct (process_loop_returns key header overwrite items Hall 0%nat
                (log_event (EvProgressAddTask (length tasks))
                   (log_event EvProgressStart w))) as (c & w3 & Hloop).
    rewrite Hloop. now eexists.
Qed.

(** C6. On a well-formed walk with [N] matched files, of which [K] make
    [decrypt_file] return [True] when the files are taken one after the
    other: whenever [process_directory] returns, it returns [(K, N)], and
    it does return when the console renders the lines it may print. With
    no matched file it prints one line, without starting the progress bar,
    and returns [(0, 0)]; but when the console rejects that line (an
    extension holding a closing tag, as [[/x]]) it raises [MarkupError]
    and returns nothing. With matched files the progress bar is started
    first. *)
Theorem batch_accounting
    (os_walk : gmap path node -> path -> list (path * list string * list string))
    (input_dir output_dir : path) (key header : bytes) (extension : string)
    (overwrite : bool) (w : world) :
  walk_ok input_dir (os_walk (w_fs w) input_dir) = true ->
  exists tasks : list (path * path),
    collect_files input_dir output_dir extension (os_walk (w_fs w) input_dir)
    = Return tasks
    /\ let N := length (matched_files extension (os_walk (w_fs w) input_dir)) in
       let K := successes (decode_outcomes key header overwrite tasks (w_fs w)) in
       let r := process_directory os_walk input_dir output_dir key header
                  extension overwrite w in
       length tasks = N
       /\ (K <= N)%nat
       /\ (forall counts : nat * nat, r.1 = Return counts -> counts = (K, N))
       /\ (markup_error (MsgNoFiles extension) = None ->
           Forall task_renders tasks ->
           r.1 = Return (K, N))
       /\ (N = 0%nat ->
           r = match markup_error (MsgNoFiles extension) with
               | None => (Return (0%nat, 0%nat),
                          log_event (EvPrint (MsgNoFiles extension)) w)
               | Some text => (Raise (MarkupError text), w)
               end)
       /\ (N <> 0%nat ->
           exists evs, events_since w r.2
                       = EvProgressStart :: EvProgressAddTask N :: evs).
Proof.
  intros Hok.
  exists (spec_task input_dir output_dir
            <$> matched_files extension (os_walk (w_fs w) input_dir)).
  pose proof (collect_files_spec input_dir output_dir extension _ Hok) as Hcollect.
  split; [exact Hcollect|].
  pose proof (fun counts =>
                process_directory_counts os_walk input_dir output_dir key header
                  extension overwrite w counts Hok) as Hcounts.
  set (tasks := spec_task input_dir output_dir
                  <$> matched_files extension (os_walk (w_fs w) input_dir)) in *.
  assert (Hlen : length tasks
                 = length (matched_files extension (os_walk (w_fs w) input_dir)))
    by (unfold tasks; now rewrite length_fmap).
  cbv zeta. rewrite <- Hlen in *.
  split; [reflexivity|]. split.
  { etrans; [apply successes_le|]. now rewrite decode_outcomes_length. }
  split; [exact Hcounts|]. split; [|split].
  - intros Hnone Hall.
    destruct (process_directory_returns os_walk _ _ key header _ overwrite w tasks
                Hcollect Hnone Hall) as [counts Hret].
    rewrite Hret. f_equal. now apply Hcounts.
  - intros Hzero. apply length_zero_iff_nil in Hzero. rewrite Hzero in Hcollect.
    apply (process_directory_empty os_walk _ _ key header _ overwrite w Hcollect).
  - intros Hpos.
    assert (Hne : tasks <> []) by (intros Hnil; now rewrite Hnil in Hpos).
    rewrite (process_directory_run os_walk _ _ key header _ overwrite w tasks Hcollect Hne).
    cbv zeta.
    pose proof (process_loop_prefix key header overwrite
                  (imap (fun (idx : nat) (task : path * path) => (idx, task)) tasks)
                  0%nat
                  (log_event (EvProgressAddTask (length tasks))
                     (log_event EvProgressStart w))) as [k Hk].
    exists (k ++ [EvProgressStop]). apply events_since_app.
    simpl. rewrite Hk. simpl. now rewrite <- !app_assoc.
Qed.

(** ** What a run keeps of the file system *)

Section Keeps.

Variable R : gmap path node -> gmap path node -> Prop.
Hypothesis R_refl : forall fs, R fs fs.
Hypothesis R_trans : forall fs1 fs2 fs3, R fs1 fs2 -> R fs2 fs3 -> R fs1 fs3.

Lemma keeps_ret {A : Type} (a : A) : keeps R (mret a : io A).
Proof. intros w. apply R_refl. Qed.

Lemma keeps_lift {A : Type} (o : outcome A) : keeps R (lift o).
Proof. intros w. apply R_refl. Qed.

Lemma keeps_emit (e : event) : keeps R (emit e).
Proof. intros w. apply R_refl. Qed.

Lemma keeps_console_print (m : message) : keeps R (console_print m).
Proof. intros w. rewrite console_print_fs. apply R_refl. Qed.

Lemma keeps_bind {A B : Type} (m : io A) (f : A -> io B) :
  keeps R m -> (forall a, keeps R (f a)) -> keeps R (m ≫= f).
Proof.
  intros Hm Hf w. unfold mbind, io_bind. pose proof (Hm w) as H.
  destruct (m w) as [[a|e] w1]; simpl in *; [|exact H].
  apply (R_trans _ (w_fs w1)); [exact H|apply Hf].
Qed.

Lemma keeps_try_except {A : Type} (m : io A) (handler : exn -> io A) :
  keeps R m -> (forall e, keeps R (handler e)) -> keeps R (try_except m handler).
Proof.
  intros Hm Hh w. unfold try_except. pose proof (Hm w) as H.
  destruct (m w) as [[a|e] w1]; simpl in *; [exact H|].
  apply (R_trans _ (w_fs w1)); [exact H|apply Hh].
Qed.

Lemma keeps_with_progress {A : Type} (body : io A) :
  keeps R body -> keeps R (with_progress body).
Proof. intros Hb w. unfold with_progress. simpl. apply (Hb (log_event EvProgressStart w)). Qed.

Lemma keeps_io_for_each {S I : Type} (body : S -> I -> io S) :
  (forall st i, keeps R (body st i)) ->
  forall (items : list I) (st : S), keeps R (io_for_each body items st).
Proof.
  intros Hbody. induction items as [|i items IH]; intros st.
  - apply keeps_ret.
  - cbn [io_for_each]. apply keeps_bind; [apply Hbody|]. intros st'. apply IH.
Qed.

(** What the callers of [decrypt_file] keep, when [decrypt_file] with
    their value of [overwrite] does. *)
Variable overwrite : bool.
Hypothesis R_file : forall input_file output_file key header,
  keeps R (decrypt_file input_file output_file key header overwrite).

Lemma keeps_main_handler (e : exn) : keeps R (main_handler e).
Proof.
  unfold main_handler. apply keeps_bind; [apply keeps_emit|].
  intros _. apply keeps_console_print.
Qed.

Lemma keeps_process_step (key header : bytes) (success_count : nat)
    (item : nat * (path * path)) :
  keeps R (process_step key header overwrite success_count item).
Proof.
  destruct item as [idx [input_file output_file]]. unfold process_step.
  apply keeps_bind; [apply keeps_emit|]. intros _.
  apply keeps_bind; [apply R_file|]. intros ok.
  apply keeps_bind; [apply keeps_emit|]. intros _. apply keeps_ret.
Qed.

Lemma keeps_process_directory
    (os_walk : gmap path node -> path -> list (path * list string * list string))
    (input_dir output_dir : path) (key header : bytes) (extension : string) :
  keeps R (process_directory os_walk input_dir output_dir key header extension overwrite).
Proof.
  intros w. unfold process_directory.
  apply (keeps_bind (lift _)); [apply keeps_lift|]. intros tasks. cbv zeta.
  destruct (length tasks =? 0)%nat.
  - apply keeps_bind; [apply keeps_console_print|]. intros _. apply keeps_ret.
  - apply keeps_bind; [|intros c; apply keeps_ret].
    apply keeps_with_progress. apply keeps_bind; [apply keeps_emit|]. intros _.
    apply keeps_io_for_each. intros st item. apply keeps_process_step.
Qed.

Lemma keeps_main_file_mode (input_path : path) (output_path : option path)
    (key_bytes header_bytes : bytes) :
  keeps R (main_file_mode input_path output_path key_bytes header_bytes overwrite).
Proof.
  intros w. unfold main_file_mode.
  apply (keeps_bind (lift _)); [apply keeps_lift|]. intros output_file.
  apply keeps_bind; [apply keeps_console_print|]. intros _.
  apply keeps_bind; [apply R_file|]. intros ok.
  destruct ok; apply keeps_console_print.
Qed.

End Keeps.

(** ** The batch walker: further properties *)

(** X13. A batch run never removes an entry of the file system and never
    changes a file into a directory or a directory into a file; without
    [overwrite] it leaves every existing entry exactly as it was. This
    holds whatever [os.walk] yields. *)
Theorem process_directory_preserves
    (os_walk : gmap path node -> path -> list (path * list string * list string))
    (input_dir output_dir : path) (key header : bytes) (extension : string)
    (overwrite : bool) (w : world) :
  let fs' := w_fs (process_directory os_walk input_dir output_dir key header
                     extension overwrite w).2 in
  fs_keeps_kinds (w_fs w) fs'
  /\ (overwrite = false -> fs_extends (w_fs w) fs').
Proof.
  cbv zeta. split.
  - apply (keeps_process_directory fs_keeps_kinds).
    + apply fs_keeps_kinds_refl.
    + apply fs_keeps_kinds_trans.
    + intros i o k h w0. apply decrypt_file_keeps_kinds.
  - intros ->. apply (keeps_process_directory fs_extends).
    + apply fs_extends_refl.
    + apply fs_extends_trans.
    + intros i o k h w0. apply decrypt_file_extends.
Qed.

(** ** The command line: properties *)

(** A string of odd length has no reading as pairs of digits. *)
Lemma unhex_pairs_odd (n : nat) :
  forall s : string,
    (String.length s <= n)%nat -> Nat.odd (String.length s) = true ->
    unhex_pairs s = None.
Proof.
  induction n as [|n IH]; intros s Hn Hodd.
  - destruct s; simpl in *; [discriminate|lia].
  - destruct s as [|a [|b s]]; simpl in *; [discriminate|reflexivity|].
    rewrite (IH s) by (try lia; exact Hodd).
    destruct (hex_digit a); simpl; [|reflexivity].
    destruct (hex_digit b); simpl; [|reflexivity].
    destruct (int_to_byte _); reflexivity.
Qed.

(** The output file of the file mode, for an input [dir/name]: the
    sibling [dir/name.decoded] without [--output], [o/name] when
    [--output] is an existing directory [o], and [o] itself otherwise. *)
Lemma resolve_output_file_spec (fs : gmap path node) (dir : path) (name : string)
    (output_path : option path) :
  valid_name name = true ->
  resolve_output_file fs (dir ++ [name]) output_path
  = Return match output_path with
           | None => dir ++ [name +:+ ".decoded"]
           | Some o => if is_dir fs o then o ++ [name] else o
           end.
Proof.
  intros Hv. unfold resolve_output_file. destruct output_path as [o|].
  - rewrite (path_name_snoc dir name (valid_name_not_root name Hv)).
    rewrite (parse_path_valid_name name Hv).
    assert (Hrel : is_absolute [name] = false).
    { apply is_absolute_valid_names. simpl. now rewrite Hv. }
    unfold joinpath. rewrite Hrel.
    unfold exists_in, is_dir. destruct (fs_lookup fs o) as [[c|]|]; simpl;
      reflexivity.
  - now apply with_suffix_decoded.
Qed.



(** The outer handler: the traceback, then the error line or the
    exception of its print. *)
Lemma main_handler_run (e : exn) (w : world) :
  main_handler e w
  = match markup_error (MsgException e) with
    | None => (Return tt, log_event (EvPrint (MsgException e)) (log_event (EvTraceback e) w))
    | Some text => (Raise (MarkupError text), log_event (EvTraceback e) w)
    end.
Proof.
  unfold main_handler, mbind, io_bind, emit.
  now rewrite console_print_run by reflexivity.
Qed.

Lemma main_handler_fs (e : exn) (w : world) : w_fs (main_handler e w).2 = w_fs w.
Proof. rewrite main_handler_run. now destruct (markup_error (MsgException e)). Qed.

Lemma main_handler_prefix (e : exn) (w : world) :
  w_log w `prefix_of` w_log (main_handler e w).2.
Proof.
  rewrite main_handler_run. destruct (markup_error (MsgException e)).
  - apply log_event_prefix.
  - etrans; apply log_event_prefix.
Qed.

(** The file mode: the start line, the call, and the line that reports
    its result. *)
Lemma main_file_mode_run (input_path : path) (output_path : option path)
    (key_bytes header_bytes : bytes) (overwrite : bool) (w : world) (target : path) :
  resolve_output_file (w_fs w) input_path output_path = Return target ->
  main_file_mode input_path output_path key_bytes header_bytes overwrite w
  = match markup_error (MsgDecryptingFile input_path) with
    | Some text => (Raise (MarkupError text), w)
    | None =>
        let d := decrypt_file input_path target key_bytes header_bytes overwrite
                   (log_event (EvPrint (MsgDecryptingFile input_path)) w) in
        match d.1 with
        | Return true => console_print (MsgSuccess target) d.2
        | Return false => console_print (MsgFailed input_path) d.2
        | Raise e => (Raise e, d.2)
        end
    end.
Proof.
  intros Htarget. unfold main_file_mode. rewrite Htarget.
  unfold mbind at 1, io_bind at 1, lift. cbv beta iota.
  unfold mbind at 1, io_bind at 1. rewrite console_print_run by reflexivity.
  destruct (markup_error (MsgDecryptingFile input_path)); [reflexivity|].
  unfold mbind, io_bind. cbv zeta.
  destruct (decrypt_file input_path target key_bytes header_bytes overwrite _)
    as [[[]|e] w2]; reflexivity.
Qed.

Section MainProperties.

Variable os_walk : gmap path node -> path -> list (path * list string * list string).

(** With a valid key and header, [main] is the mode of its input under
    the outer handler. *)
Lemma main_modes (input_path : path) (output_path : option path)
    (key header ext : string) (overwrite : bool) (w : world)
    (key_bytes header_bytes : bytes) :
  unhexlify key = inr key_bytes ->
  unhexlify header = inr header_bytes ->
  main os_walk input_path output_path key header ext overwrite w
  = try_except
      (if is_file (w_fs w) input_path then
         main_file_mode input_path output_path key_bytes header_bytes overwrite
       else if is_dir (w_fs w) input_path then
         main_dir_mode os_walk input_path output_path key_bytes header_bytes ext overwrite
       else mret tt)
      main_handler w.
Proof.
  intros Hk Hh. unfold main, try_except, main_body. rewrite Hk, Hh.
  destruct (is_file (w_fs w) input_path); [reflexivity|].
  destruct (is_dir (w_fs w) input_path); reflexivity.
Qed.

(** X15. [main] refuses, before anything is read or changed, a key or a
    header that is not valid hexadecimal (every string of odd length is
    one), a directory input whose [--output] is an existing file, and an
    input that is neither a file nor a directory. For a string that
    [unhexlify] rejects with [binascii.Error] it prints the line of line
    126 and returns; for a string that is not ASCII the [ValueError]
    reaches the outer handler, which shows the traceback and then prints
    the error line, or raises if the console rejects that line. In the two
    other cases it prints the line of line 163, or nothing. *)
Theorem main_refusals (input_path : path) (output_path : option path)
    (key header ext : string) (overwrite : bool) (w : world) :
  (forall s : string,
      Nat.odd (String.length s) = true -> exists e, unhexlify s = inl e)
  /\ (unhexlify key = inl BinasciiError
      \/ ((exists key_bytes, unhexlify key = inr key_bytes)
          /\ unhexlify header = inl BinasciiError) ->
      main os_walk input_path output_path key header ext overwrite w
      = (Return tt, log_event (EvPrint MsgInvalidHex) w))
  /\ (unhexlify key = inl NonAscii
      \/ ((exists key_bytes, unhexlify key = inr key_bytes)
          /\ unhexlify header = inl NonAscii) ->
      main os_walk input_path output_path key header ext overwrite w
      = match markup_error (MsgException ValueError) with
        | None =>
            (Return tt,
             log_event (EvPrint (MsgException ValueError))
               (log_event (EvTraceback ValueError) w))
        | Some text =>
            (Raise (MarkupError text), log_event (EvTraceback ValueError) w)
        end)
  /\ (forall (key_bytes header_bytes : bytes) (o : path) (content : bytes),
        unhexlify key = inr key_bytes -> unhexlify header = inr header_bytes ->
        is_file (w_fs w) input_path = false -> is_dir (w_fs w) input_path = true ->
        fs_lookup (w_fs w) o = Some (File content) ->
        main os_walk input_path (Some o) key header ext overwrite w
        = (Return tt, log_event (EvPrint MsgOutputMustBeDirectory) w))
  /\ (forall (key_bytes header_bytes : bytes),
        unhexlify key = inr key_bytes -> unhexlify header = inr header_bytes ->
        is_file (w_fs w) input_path = false -> is_dir (w_fs w) input_path = false ->
        main os_walk input_path output_path key header ext overwrite w = (Return tt, w)).
Proof.
  split; [|split; [|split; [|split]]].
  - intros s Hodd. unfold unhexlify.
    destruct (negb (is_ascii_string s)); [eauto|].
    rewrite (unhex_pairs_odd (String.length s) s) by auto. eauto.
  - intros Hbad. unfold main, try_except, main_body.
    destruct Hbad as [-> | [[kb ->] ->]]; reflexivity.
  - intros Hbad. rewrite <- main_handler_run. unfold main, try_except, main_body.
    destruct Hbad as [-> | [[kb ->] ->]]; reflexivity.
  - intros kb hb o content Hk Hh Hfile Hdir Ho.
    rewrite (main_modes _ _ _ _ _ _ _ kb hb Hk Hh), Hfile, Hdir.
    unfold try_except, main_dir_mode, exists_in, is_dir.
    rewrite Ho. rewrite bool_decide_eq_true_2 by eauto. reflexivity.
  - intros kb hb Hk Hh Hfile Hdir.
    now rewrite (main_modes _ _ _ _ _ _ _ kb hb Hk Hh), Hfile, Hdir.
Qed.

(** What [main] keeps of the file system, when [decrypt_file] keeps it and
    the creation of directories is within the relation. *)
Lemma keeps_main (R : gmap path node -> gmap path node -> Prop)
    (input_path : path) (output_path : option path) (key header ext : string)
    (overwrite : bool) :
  (forall fs, R fs fs) ->
  (forall fs1 fs2 fs3, R fs1 fs2 -> R fs2 fs3 -> R fs1 fs3) ->
  (forall fs fs2, fs_extends fs fs2 -> R fs fs2) ->
  (forall input_file output_file key header,
      keeps R (decrypt_file input_file output_file key header overwrite)) ->
  keeps R (main os_walk input_path output_path key header ext overwrite).
Proof.
  intros Hrefl Htrans Hext Hfile. unfold main.
  apply (keeps_try_except R Htrans); [|intros e; now apply keeps_main_handler].
  intros w. unfold main_body.
  assert (Hprint : forall m, keeps R (console_print m))
    by (intros m; now apply keeps_console_print).
  destruct (unhexlify key) as [[]|kb]; [apply Hrefl|apply Hprint|].
  destruct (unhexlify header) as [[]|hb]; [apply Hrefl|apply Hprint|].
  destruct (is_file (w_fs w) input_path).
  { now apply (keeps_main_file_mode R Hrefl Htrans overwrite). }
  destruct (is_dir (w_fs w) input_path); [|apply Hrefl].
  unfold main_dir_mode.
  destruct (match output_path with
            | Some o => exists_in (w_fs w) o && negb (is_dir (w_fs w) o)
            | None => false
            end); [apply Hprint|].
  apply (keeps_bind R Htrans).
  - intros w0. unfold prepare_output_dir. destruct output_path as [o|]; [|apply Hrefl].
    destruct (negb (exists_in (w_fs w0) o)); [|apply Hrefl].
    apply (keeps_bind R Htrans); [|intros u; now apply keeps_ret].
    intros w1. apply Hext, mkdir_parents_extends.
  - intros output_dir. apply (keeps_bind R Htrans); [apply Hprint|]. intros _.
    apply (keeps_bind R Htrans); [|intros counts; apply Hprint].
    now apply (keeps_process_directory R Hrefl Htrans overwrite).
Qed.

(** X16. A run of [main] never removes an entry of the file system and
    never changes a file into a directory or a directory into a file;
    without [--overwrite] every existing entry is left exactly as it
    was, whatever the arguments and whatever [os.walk] yields. *)
Theorem main_preserves (input_path : path) (output_path : option path)
    (key header ext : string) (overwrite : bool) (w : world) :
  let fs' := w_fs (main os_walk input_path output_path key header ext overwrite w).2 in
  fs_keeps_kinds (w_fs w) fs'
  /\ (overwrite = false -> fs_extends (w_fs w) fs').
Proof.
  cbv zeta. split.
  - apply (keeps_main fs_keeps_kinds).
    + apply fs_keeps_kinds_refl.
    + apply fs_keeps_kinds_trans.
    + apply fs_extends_keeps_kinds.
    + intros i o kb hb w0. apply decrypt_file_keeps_kinds.
  - intros ->. apply (keeps_main fs_extends).
    + apply fs_extends_refl.
    + apply fs_extends_trans.
    + auto.
    + intros i o kb hb w0. apply decrypt_file_extends.
Qed.

(** X17. In the file mode, for an input [dir/name], the output file is
    the sibling [dir/name.decoded] without [--output], [o/name] when
    [--output] is an existing directory [o], and [o] itself otherwise.
    When the console renders the start line, [main] prints it and calls
    [decrypt_file] on the input and that output file; it then prints the
    success with the output path when the call returned [True] and the
    failure with the input path when it returned [False] (if the console
    renders that line), and hands an exception of the call to the outer
    handler. When the console rejects the start line (an input path
    holding a closing tag, as [d[/x].php]), [decrypt_file] is not called:
    the [MarkupError] goes to the outer handler. *)
Theorem main_file_mode_target (dir : path) (name : string) (output_path : option path)
    (key header ext : string) (overwrite : bool) (w : world)
    (key_bytes header_bytes : bytes) :
  unhexlify key = inr key_bytes ->
  unhexlify header = inr header_bytes ->
  valid_name name = true ->
  is_file (w_fs w) (dir ++ [name]) = true ->
  let target := match output_path with
                | None => dir ++ [name +:+ ".decoded"]
                | Some o => if is_dir (w_fs w) o then o ++ [name] else o
                end in
  let d := decrypt_file (dir ++ [name]) target key_bytes header_bytes overwrite
             (log_event (EvPrint (MsgDecryptingFile (dir ++ [name]))) w) in
  let r := main os_walk (dir ++ [name]) output_path key header ext overwrite w in
  (markup_error (MsgDecryptingFile (dir ++ [name])) = None ->
   w_fs r.2 = w_fs d.2
   /\ w_log d.2 `prefix_of` w_log r.2
   /\ (d.1 = Return true -> markup_error (MsgSuccess target) = None ->
       r = (Return tt, log_event (EvPrint (MsgSuccess target)) d.2))
   /\ (d.1 = Return false -> markup_error (MsgFailed (dir ++ [name])) = None ->
       r = (Return tt, log_event (EvPrint (MsgFailed (dir ++ [name]))) d.2))
   /\ (forall e : exn, d.1 = Raise e -> r = main_handler e d.2))
  /\ (forall text : string,
        markup_error (MsgDecryptingFile (dir ++ [name])) = Some text ->
        r = main_handler (MarkupError text) w).
Proof.
  intros Hk Hh Hv Hfile target d r.
  assert (Hr : r = try_except
                     (main_file_mode (dir ++ [name]) output_path key_bytes
                        header_bytes overwrite) main_handler w).
  { unfold r. now rewrite (main_modes _ _ _ _ _ _ _ _ _ Hk Hh), Hfile. }
  pose proof (main_file_mode_run (dir ++ [name]) output_path key_bytes header_bytes
                overwrite w target
                (resolve_output_file_spec _ dir name output_path Hv)) as Hrun.
  cbv zeta in Hrun. fold d in Hrun.
  split.
  - intros Hstart. rewrite Hstart in Hrun.
    assert (Hend : forall m, interpolated m = true ->
              let p := try_except (console_print m) main_handler d.2 in
              w_fs p.2 = w_fs d.2 /\ w_log d.2 `prefix_of` w_log p.2).
    { intros m Hm. unfold try_except. rewrite console_print_run by exact Hm.
      destruct (markup_error m); simpl.
      - split; [apply main_handler_fs|apply main_handler_prefix].
      - split; [reflexivity|apply log_event_prefix]. }
    rewrite Hr. unfold try_except in *. rewrite Hrun.
    destruct d.1 as [[]|e] eqn:Hd.
    + destruct (Hend (MsgSuccess target) eq_refl) as [Hfs Hpre].
      split; [exact Hfs|]. split; [exact Hpre|].
      split; [|split; [discriminate|discriminate]].
      intros _ Hok. now rewrite console_print_run, Hok by reflexivity.
    + destruct (Hend (MsgFailed (dir ++ [name])) eq_refl) as [Hfs Hpre].
      split; [exact Hfs|]. split; [exact Hpre|].
      split; [discriminate|]. split; [|discriminate].
      intros _ Hok. now rewrite console_print_run, Hok by reflexivity.
    + split; [apply main_handler_fs|]. split; [apply main_handler_prefix|].
      split; [discriminate|]. split; [discriminate|].
      now intros e' [= <-].
  - intros text Hstart. rewrite Hstart in Hrun.
    rewrite Hr. unfold try_except. now rewrite Hrun.
Qed.


(** X19. In the directory mode, without [--output] (the run is then in
    place) or with an existing directory as [--output], on a well-formed
    walk, when the console renders the start line: [main] prints it and
    runs [process_directory] on the input directory and that output
    directory. When [process_directory] returns, it returned the count [K]
    of files on which [decrypt_file] returned [True] and the count [N] of
    matched files, with [K <= N], and [main] ends by printing them; when it
    raises, the exception goes to the outer handler. *)
Theorem main_dir_mode_report (input_path : path) (output_path : option path)
    (key header ext : string) (overwrite : bool) (w : world)
    (key_bytes header_bytes : bytes) :
  unhexlify key = inr key_bytes ->
  unhexlify header = inr header_bytes ->
  is_file (w_fs w) input_path = false ->
  is_dir (w_fs w) input_path = true ->
  match output_path with
  | None => True
  | Some o => is_dir (w_fs w) o = true
  end ->
  walk_ok input_path (os_walk (w_fs w) input_path) = true ->
  markup_error (MsgRecursively input_path) = None ->
  let output_dir := default input_path output_path in
  let matched := matched_files ext (os_walk (w_fs w) input_path) in
  let K := successes
             (decode_outcomes key_bytes header_bytes overwrite
                (spec_task input_path output_dir <$> matched) (w_fs w)) in
  let p := process_directory os_walk input_path output_dir key_bytes header_bytes
             ext overwrite (log_event (EvPrint (MsgRecursively input_path)) w) in
  let r := main os_walk input_path output_path key header ext overwrite w in
  (K <= length matched)%nat
  /\ (forall counts : nat * nat,
        p.1 = Return counts ->
        counts = (K, length matched)
        /\ r = (Return tt, log_event (EvPrint (MsgComplete K (length matched))) p.2))
  /\ (forall e : exn, p.1 = Raise e -> r = main_handler e p.2).
Proof.
  intros Hk Hh Hfile Hdir Hout Hok Hstart output_dir matched K p r.
  assert (Hmode : main_dir_mode os_walk input_path output_path key_bytes header_bytes
                    ext overwrite w
                  = match p.1 with
                    | Return counts =>
                        (Return tt, log_event (EvPrint (MsgComplete counts.1 counts.2)) p.2)
                    | Raise e => (Raise e, p.2)
                    end).
  { unfold main_dir_mode.
    assert (Hrej : match output_path with
                   | Some o => exists_in (w_fs w) o && negb (is_dir (w_fs w) o)
                   | None => false
                   end = false).
    { destruct output_path as [o|]; [|reflexivity]. rewrite Hout. apply andb_false_r. }
    rewrite Hrej.
    assert (Hprep : prepare_output_dir input_path output_path w = (Return output_dir, w)).
    { unfold prepare_output_dir, output_dir. destruct output_path as [o|]; [|reflexivity].
      unfold exists_in. unfold is_dir in Hout.
      destruct (fs_lookup (w_fs w) o) as [nd|]; [|discriminate].
      rewrite bool_decide_eq_true_2 by eauto. reflexivity. }
    unfold mbind at 1, io_bind at 1. rewrite Hprep.
    unfold mbind at 1, io_bind at 1. rewrite console_print_run, Hstart by reflexivity.
    unfold mbind, io_bind. fold p.
    destruct p as [[counts|e] w2]; reflexivity. }
  assert (Hr : r = try_except
                     (main_dir_mode os_walk input_path output_path key_bytes
                        header_bytes ext overwrite) main_handler w).
  { unfold r. now rewrite (main_modes _ _ _ _ _ _ _ _ _ Hk Hh), Hfile, Hdir. }
  split; [|split].
  - unfold K. etrans; [apply successes_le|].
    now rewrite decode_outcomes_length, length_fmap.
  - intros counts Hret.
    assert (Hc : counts = (K, length matched)).
    { apply (process_directory_counts os_walk input_path output_dir key_bytes
               header_bytes ext overwrite
               (log_event (EvPrint (MsgRecursively input_path)) w)); assumption. }
    split; [exact Hc|].
    rewrite Hr. unfold try_except. rewrite Hmode, Hret, Hc. reflexivity.
  - intros e Hraise. rewrite Hr. unfold try_except. now rewrite Hmode, Hraise.
Qed.

End MainProperties.

End Console.

(** ** The stated properties on sample inputs *)

Lemma decrypt_file_skip_semantics_witness :
  (let r := decrypt_file sample_markup_error ["d["; "x].php"]%string
              ["out"; "a.php"]%string [x01; x02] [x41; x42] false sample_world in
   r = (Raise (MarkupError "closing tag '[/x]' doesn't match any open tag"),
        log_event (EvExists ["out"; "a.php"]%string) sample_world)
   /\ existsb is_read (events_since sample_world r.2) = false
   /\ fs_lookup (w_fs r.2) ["out"; "a.php"]%string = Some (File [x6f; x6c; x64]))
  /\ (let r := decrypt_file sample_markup_error ["in"; "a.php"]%string
                 ["out"; "a.php"]%string [x01; x02] [x41; x42] false sample_world in
      r.1 = Return false
      /\ events_since sample_world r.2
         = [EvExists ["out"; "a.php"]%string;
            EvPrint (MsgSkipping ["in"; "a.php"]%string ["out"; "a.php"]%string)]).
Proof.
  assert (Hout : fs_lookup (w_fs sample_world) ["out"; "a.php"]%string
                 = Some (File [x6f; x6c; x64])) by (vm_compute; reflexivity).
  split.
  - destruct (decrypt_file_skip_semantics sample_markup_error sample_world
                ["d["; "x].php"]%string ["out"; "a.php"]%string [x01; x02] [x41; x42]
                [x6f; x6c; x64] Hout) as ((Hread & _ & Hfile) & _ & _ & Hraise).
    split; [|split; assumption].
    apply (Hraise "closing tag '[/x]' doesn't match any open tag"%string); reflexivity.
  - apply (decrypt_file_skip_semantics sample_markup_error sample_world
             ["in"; "a.php"]%string ["out"; "a.php"]%string [x01; x02] [x41; x42]
             [x6f; x6c; x64] Hout).
    reflexivity.
Defined.

Lemma zero_length_decode_witness :
  decrypt_file sample_markup_error ["in"; "e.php"]%string ["out"; "e.php"]%string
    [x01; x02] [x41; x42] false sample_world
  = (Return false,
     log_event (EvRead ["in"; "e.php"]%string)
       (after_check ["out"; "e.php"]%string false sample_world))
  /\ decrypt_file sample_markup_error ["in"; "x.php"]%string ["out"; "x.php"]%string
       [x01; x02] [x41; x42] false sample_world
     = (Return false,
        log_event (EvRead ["in"; "x.php"]%string)
          (after_check ["out"; "x.php"]%string false sample_world)).
Proof.
  split.
  - apply (proj2 (zero_length_decode sample_markup_error) sample_world
             ["in"; "e.php"]%string ["out"; "e.php"]%string [x01; x02] [x41; x42]
             false [x41; x42]).
    + vm_compute. reflexivity.
    + right. vm_compute. reflexivity.
    + right. vm_compute. reflexivity.
  - apply (proj2 (zero_length_decode sample_markup_error) sample_world
             ["in"; "x.php"]%string ["out"; "x.php"]%string [x01; x02] [x41; x42]
             false [x43; x44; x10]).
    + vm_compute. reflexivity.
    + left. vm_compute. reflexivity.
    + right. vm_compute. reflexivity.
Defined.

Lemma decrypt_file_failure_atomic_witness :
  (let r := decrypt_file sample_markup_error ["in"; "x.php"]%string
              ["out"; "x.php"]%string [x01; x02] [x41; x42] false sample_world in
   w_fs r.2 = w_fs sample_world
   /\ fs_lookup (w_fs r.2) ["out"; "x.php"]%string
      = fs_lookup (w_fs sample_world) ["out"; "x.php"]%string
   /\ existsb is_mutation (events_since sample_world r.2) = false
   /\ r.1 = Return false)
  /\ (let r := decrypt_file sample_markup_error ["d["; "x].php"]%string
                 ["out"; "a.php"]%string [x01; x02] [x41; x42] false sample_world in
      w_fs r.2 = w_fs sample_world
      /\ existsb is_mutation (events_since sample_world r.2) = false
      /\ r.1 <> Return true)
  /\ ((true = true \/ fs_lookup (w_fs sample_world) ["out"; "a.php"]%string = None)
      /\ exists content data : bytes,
           fs_read ["in"; "a.php"]%string (w_fs sample_world) = Return content
           /\ decrypt_content content [x01; x02] [x41; x42] = Return (Some data)
           /\ data <> []).
Proof.
  split; [|split].
  - destruct (proj1 (decrypt_file_failure_atomic sample_markup_error sample_world
                       ["in"; "x.php"]%string ["out"; "x.php"]%string
                       [x01; x02] [x41; x42] false))
      as (Hfs & Hout & Hmut & _ & _ & Hfalse).
    + right. left. exists [x43; x44; x10]. split; vm_compute; reflexivity.
    + split; [exact Hfs|]. split; [exact Hout|]. split; [exact Hmut|].
      apply Hfalse. right. left. vm_compute. reflexivity.
  - destruct (proj1 (decrypt_file_failure_atomic sample_markup_error sample_world
                       ["d["; "x].php"]%string ["out"; "a.php"]%string
                       [x01; x02] [x41; x42] false))
      as (Hfs & _ & Hmut & Hnot & _).
    + left. split; [reflexivity|]. vm_compute. eauto.
    + split; [exact Hfs|]. split; [exact Hmut|exact Hnot].
  - apply (proj2 (decrypt_file_failure_atomic sample_markup_error sample_world
                    ["in"; "a.php"]%string ["out"; "a.php"]%string
                    [x01; x02] [x41; x42] true)).
    right. vm_compute. reflexivity.
Defined.

Lemma batch_accounting_witness :
  process_directory sample_markup_error sample_os_walk ["in"%string] ["out"%string]
    [x01; x02] [x41; x42] "[/x]" false sample_world
  = (Raise (MarkupError "closing tag '[/x]' doesn't match any open tag"), sample_world)
  /\ (process_directory (fun _ => None) sample_os_walk ["in"%string] ["out"%string]
        [x01; x02] [x41; x42] ".php" true sample_world).1
     = Return (1%nat, 2%nat).
Proof.
  split.
  - destruct (batch_accounting sample_markup_error sample_os_walk ["in"%string]
                ["out"%string] [x01; x02] [x41; x42] "[/x]" false sample_world eq_refl)
      as (tasks & _ & _ & _ & _ & _ & Hzero & _).
    exact (Hzero eq_refl).
  - destruct (batch_accounting (fun _ => None) sample_os_walk ["in"%string]
                ["out"%string] [x01; x02] [x41; x42] ".php" true sample_world eq_refl)
      as (tasks & Htasks & _ & _ & _ & Hret & _).
    injection Htasks as <-. rewrite Hret.
    + vm_compute. reflexivity.
    + reflexivity.
    + repeat constructor.
Defined.

(** ** Further properties on sample inputs *)

Lemma decrypt_file_true_witness :
  exists content data : bytes,
    fs_read ["in"; "a.php"]%string (w_fs sample_world) = Return content
    /\ decrypt_content content [x01; x02] [x41; x42] = Return (Some data)
    /\ data <> []
    /\ (false = true \/ fs_lookup (w_fs sample_world) ["new"; "a.php"]%string = None)
    /\ fs_lookup
         (w_fs (decrypt_file sample_markup_error ["in"; "a.php"]%string
                  ["new"; "a.php"]%string [x01; x02] [x41; x42] false sample_world).2)
         ["new"; "a.php"]%string = Some (File data)
    /\ last (w_log (decrypt_file sample_markup_error ["in"; "a.php"]%string
                      ["new"; "a.php"]%string [x01; x02] [x41; x42] false
                      sample_world).2)
       = Some (EvWrite ["new"; "a.php"]%string data).
Proof.
  apply (decrypt_file_true sample_markup_error sample_world ["in"; "a.php"]%string
           ["new"; "a.php"]%string [x01; x02] [x41; x42] false).
  vm_compute. reflexivity.
Defined.


Lemma decrypt_file_reports_exception_witness :
  (let r := decrypt_file sample_markup_error ["in"; "none.php"]%string
              ["new"; "none.php"]%string [x01; x02] [x41; x42] false sample_world in
   r.1 = Return false
   /\ last (w_log r.2)
      = Some (EvPrint (MsgError ["in"; "none.php"]%string FileNotFoundError)))
  /\ (let r := decrypt_file sample_markup_error ["in"; "a.php"; "z"]%string
                 ["new"; "z"]%string [x01; x02] [x41; x42] false sample_world in
      r.1 = Return false
      /\ last (w_log r.2)
         = Some (EvPrint (MsgError ["in"; "a.php"; "z"]%string NotADirectoryError)))
  /\ (let r := decrypt_file sample_markup_error ["in"; "a.php"]%string
                 ["new"; "a.php"]%string [] [x41; x42] false sample_world in
      r.1 = Return false
      /\ last (w_log r.2) = Some (EvPrint (MsgError ["in"; "a.php"]%string IndexError)))
  /\ (let r := decrypt_file sample_markup_error ["d["; "x].php"]%string
                 ["new"; "x.php"]%string [x01; x02] [x41; x42] false sample_world in
      r.1 = Raise (MarkupError "closing tag '[/x]' doesn't match any open tag")
      /\ last (w_log r.2) = Some (EvRead ["d["; "x].php"]%string)).
Proof.
  split; [|split; [|split]].
  - apply (decrypt_file_reports_exception sample_markup_error sample_world
             ["in"; "none.php"]%string ["new"; "none.php"]%string [x01; x02] [x41; x42]
             false FileNotFoundError).
    + right. vm_compute. reflexivity.
    + vm_compute. reflexivity.
    + reflexivity.
  - apply (decrypt_file_reports_exception sample_markup_error sample_world
             ["in"; "a.php"; "z"]%string ["new"; "z"]%string [x01; x02] [x41; x42]
             false NotADirectoryError).
    + right. vm_compute. reflexivity.
    + vm_compute. reflexivity.
    + reflexivity.
  - apply (decrypt_file_reports_exception sample_markup_error sample_world
             ["in"; "a.php"]%string ["new"; "a.php"]%string [] [x41; x42]
             false IndexError).
    + right. vm_compute. reflexivity.
    + vm_compute. reflexivity.
    + reflexivity.
  - apply (decrypt_file_reports_exception sample_markup_error sample_world
             ["d["; "x].php"]%string ["new"; "x.php"]%string [x01; x02] [x41; x42]
             false FileNotFoundError).
    + right. vm_compute. reflexivity.
    + vm_compute. reflexivity.
    + reflexivity.
Defined.

Lemma decrypt_file_preserves_witness :
  fs_extends (w_fs sample_world)
    (w_fs (decrypt_file sample_markup_error ["in"; "a.php"]%string
             ["new"; "a.php"]%string [x01; x02] [x41; x42] false sample_world).2).
Proof.
  apply (proj2 (decrypt_file_preserves sample_markup_error sample_world
                  ["in"; "a.php"]%string ["new"; "a.php"]%string
                  [x01; x02] [x41; x42] false)).
  reflexivity.
Defined.

Lemma decrypt_file_rerun_skipped_witness :
  let r := decrypt_file sample_markup_error ["in"; "a.php"]%string
             ["new"; "a.php"]%string [x01; x02] [x41; x42] false sample_world in
  let r' := decrypt_file sample_markup_error ["in"; "a.php"]%string
              ["new"; "a.php"]%string [x01; x02] [x41; x42] false r.2 in
  w_fs r'.2 = w_fs r.2
  /\ existsb is_read (events_since r.2 r'.2) = false
  /\ r'.1 = Return false
  /\ last (w_log r'.2)
     = Some (EvPrint (MsgSkipping ["in"; "a.php"]%string ["new"; "a.php"]%string)).
Proof.
  destruct (decrypt_file_rerun_skipped sample_markup_error sample_world
              ["in"; "a.php"]%string ["new"; "a.php"]%string [x01; x02] [x41; x42] false)
    as (Hfs & Hread & _ & Hskip).
  - vm_compute. reflexivity.
  - split; [exact Hfs|]. split; [exact Hread|]. apply Hskip. reflexivity.
Defined.

Lemma process_directory_preserves_witness :
  fs_extends (w_fs sample_world)
    (w_fs (process_directory sample_markup_error sample_os_walk ["in"%string]
             ["new"%string] [x01; x02] [x41; x42] ".php" false sample_world).2).
Proof.
  apply (proj2 (process_directory_preserves sample_markup_error sample_os_walk
                  ["in"%string] ["new"%string] [x01; x02] [x41; x42] ".php" false
                  sample_world)).
  reflexivity.
Defined.

Lemma batch_outputs_distinct_witness :
  ["in"; "a.php"]%string <> ["in"; "s"; "c.php"]%string
  /\ ["in"; "a.php.decoded"]%string <> ["in"; "s"; "c.php.decoded"]%string.
Proof.
  apply (batch_outputs_distinct ["in"%string] ["in"%string] ".php" sample_walk
           [(["in"; "a.php"], ["in"; "a.php.decoded"]);
            (["in"; "s"; "c.php"], ["in"; "s"; "c.php.decoded"])]%string
           0 1 (["in"; "a.php"], ["in"; "a.php.decoded"])%string
           (["in"; "s"; "c.php"], ["in"; "s"; "c.php.decoded"])%string).
  - reflexivity.
  - apply (bool_decide_unpack _). vm_compute. reflexivity.
  - reflexivity.
  - discriminate.
  - reflexivity.
  - reflexivity.
Defined.

Lemma main_refusals_witness :
  main sample_markup_error sample_os_walk ["in"%string] None "0102" "414" ".php" false
    sample_world
  = (Return tt, log_event (EvPrint MsgInvalidHex) sample_world)
  /\ main sample_markup_error sample_os_walk ["in"%string] None "0102" "41é" ".php" false
       sample_world
     = (Return tt,
        log_event (EvPrint (MsgException ValueError))
          (log_event (EvTraceback ValueError) sample_world))
  /\ main sample_markup_error sample_os_walk ["in"%string] (Some ["out"; "a.php"]%string)
       "0102" "4142" ".php" false sample_world
     = (Return tt, log_event (EvPrint MsgOutputMustBeDirectory) sample_world)
  /\ main sample_markup_error sample_os_walk ["nowhere"%string] None "0102" "4142" ".php"
       false sample_world
     = (Return tt, sample_world).
Proof.
  split; [|split; [|split]].
  - apply (proj1 (proj2 (main_refusals sample_markup_error sample_os_walk ["in"%string]
                           None "0102" "414" ".php" false sample_world))).
    right. split; [now exists [x01; x02]|reflexivity].
  - apply (proj1 (proj2 (proj2 (main_refusals sample_markup_error sample_os_walk
                                  ["in"%string] None "0102" "41é" ".php" false
                                  sample_world)))).
    right. split; [now exists [x01; x02]|reflexivity].
  - apply (proj1 (proj2 (proj2 (proj2 (main_refusals sample_markup_error sample_os_walk
                                         ["in"%string] None "0102" "4142" ".php" false
                                         sample_world))))
             [x01; x02] [x41; x42] ["out"; "a.php"]%string [x6f; x6c; x64]);
      vm_compute; reflexivity.
  - apply (proj2 (proj2 (proj2 (proj2 (main_refusals sample_markup_error sample_os_walk
                                         ["nowhere"%string] None "0102" "4142" ".php"
                                         false sample_world))))
             [x01; x02] [x41; x42]); vm_compute; reflexivity.
Defined.

Lemma main_preserves_witness :
  fs_extends (w_fs sample_world)
    (w_fs (main sample_markup_error sample_os_walk ["in"%string]
             (Some ["fresh"; "x"]%string) "0102" "4142" ".php" false sample_world).2).
Proof.
  apply (proj2 (main_preserves sample_markup_error sample_os_walk ["in"%string]
                  (Some ["fresh"; "x"]%string) "0102" "4142" ".php" false sample_world)).
  reflexivity.
Defined.

Lemma main_file_mode_target_witness :
  (let d := decrypt_file sample_markup_error ["in"; "a.php"]%string
              ["out"; "a.php"]%string [x01; x02] [x41; x42] true
              (log_event (EvPrint (MsgDecryptingFile ["in"; "a.php"]%string))
                 sample_world) in
   main sample_markup_error sample_os_walk ["in"; "a.php"]%string (Some ["out"%string])
     "0102" "4142" ".php" true sample_world
   = (Return tt, log_event (EvPrint (MsgSuccess ["out"; "a.php"]%string)) d.2))
  /\ main sample_markup_error sample_os_walk ["d["; "x].php"]%string None
       "0102" "4142" ".php" true
       (World (<[ ["d["; "x].php"]%string := File [x41; x42; x10; x20] ]> sample_fs) [])
     = main_handler sample_markup_error
         (MarkupError "closing tag '[/x]' doesn't match any open tag")
         (World (<[ ["d["; "x].php"]%string := File [x41; x42; x10; x20] ]> sample_fs) []).
Proof.
  split.
  - destruct (main_file_mode_target sample_markup_error sample_os_walk ["in"%string]
                "a.php" (Some ["out"%string]) "0102" "4142" ".php" true sample_world
                [x01; x02] [x41; x42] eq_refl eq_refl eq_refl)
      as [Hrun _]; [vm_compute; reflexivity|].
    destruct (Hrun eq_refl) as (_ & _ & Htrue & _).
    apply Htrue; vm_compute; reflexivity.
  - destruct (main_file_mode_target sample_markup_error sample_os_walk ["d["%string]
                "x].php" None "0102" "4142" ".php" true
                (World (<[ ["d["; "x].php"]%string := File [x41; x42; x10; x20] ]>
                          sample_fs) [])
                [x01; x02] [x41; x42] eq_refl eq_refl eq_refl)
      as [_ Hraise]; [vm_compute; reflexivity|].
    apply Hraise. reflexivity.
Defined.


Lemma main_dir_mode_report_witness :
  let p := process_directory sample_markup_error sample_os_walk ["in"%string]
             ["out"%string] [x01; x02] [x41; x42] ".php" true
             (log_event (EvPrint (MsgRecursively ["in"%string])) sample_world) in
  main sample_markup_error sample_os_walk ["in"%string] (Some ["out"%string])
    "0102" "4142" ".php" true sample_world
  = (Return tt, log_event (EvPrint (MsgComplete 1 2)) p.2).
Proof.
  destruct (main_dir_mode_report sample_markup_error sample_os_walk ["in"%string]
              (Some ["out"%string]) "0102" "4142" ".php" true sample_world
              [x01; x02] [x41; x42] eq_refl eq_refl) as (_ & Hret & _).
  - vm_compute. reflexivity.
  - vm_compute. reflexivity.
  - vm_compute. reflexivity.
  - reflexivity.
  - reflexivity.
  - destruct (Hret (1%nat, 2%nat)) as [Hcounts Hrun]; [vm_compute; reflexivity|].
    exact Hrun.
Defined.

(** ** The model on concrete inputs *)

(** With the empty key the first odd position raises [IndexError]; with no
    odd position the key is never read. *)
Example decrypt_content_empty_key :
  decrypt_content [x41; x42; x10; x20] [] [x41; x42] = Raise IndexError
  /\ decrypt_content [x41; x42; x10] [] [x41; x42] = Return (Some [x10]).
Proof. split; reflexivity. Qed.

(** A key of length 3: the mask [AND 2] and the remainder [mod 3] part at
    position 3. *)
Example decrypt_content_key_of_3 :
  decrypt_content [x00; x00; x00; x00] [x01; x02; x03] []
  = Return (Some [x00; xfc; x00; xfe])
  /\ spec_decode_mod [x00; x00; x00; x00] [x01; x02; x03] []
     = Return (Some [x00; xfc; x00; xfc]).
Proof. split; reflexivity. Qed.

(** A successful call writes the decoded bytes, after making the parent
    directories. *)
Example decrypt_file_sample :
  let r := decrypt_file sample_markup_error ["in"; "a.php"]%string
             ["new"; "sub"; "a.php"]%string [x01; x02] [x41; x42] false sample_world in
  r.1 = Return true
  /\ w_fs r.2 !! ["new"; "sub"; "a.php"]%string = Some (File [x10; xde])
  /\ w_log r.2 = [EvExists ["new"; "sub"; "a.php"]%string;
                  EvRead ["in"; "a.php"]%string;
                  EvMkdir ["new"; "sub"]%string;
                  EvWrite ["new"; "sub"; "a.php"]%string [x10; xde]].
Proof. vm_compute. repeat split. Qed.

(** The tasks of the sample walk, mirrored and in place. *)
Example collect_files_sample :
  collect_files ["in"%string] ["out"%string] ".php" sample_walk
  = Return [(["in"; "a.php"], ["out"; "a.php"]);
            (["in"; "s"; "c.php"], ["out"; "s"; "c.php"])]%string
  /\ collect_files ["in"%string] ["in"%string] ".php" sample_walk
     = Return [(["in"; "a.php"], ["in"; "a.php.decoded"]);
               (["in"; "s"; "c.php"], ["in"; "s"; "c.php.decoded"])]%string.
Proof. split; reflexivity. Qed.

(** On the sample, [in/a.php] decodes when overwriting is allowed and is
    skipped when it is not; [in/s/c.php] cannot be read. *)
Example process_directory_sample :
  (process_directory sample_markup_error sample_os_walk ["in"%string] ["out"%string]
     [x01; x02] [x41; x42] ".php" true sample_world).1 = Return (1%nat, 2%nat)
  /\ (process_directory sample_markup_error sample_os_walk ["in"%string] ["out"%string]
        [x01; x02] [x41; x42] ".php" false sample_world).1 = Return (0%nat, 2%nat)
  /\ (process_directory sample_markup_error sample_os_walk ["in"%string] ["out"%string]
        [x01; x02] [x41; x42] ".txt.gz" false sample_world)
     = (Return (0%nat, 0%nat),
        World sample_fs [EvPrint (MsgNoFiles ".txt.gz")]).
Proof. vm_compute. repeat split. Qed.

(** A matched file under a directory [d[] with the name [x].php] has the
    path [d[/x].php]: with its output present, the skip line and then the
    error line are rejected, [decrypt_file] raises, and the batch run
    stops the progress bar and raises too, before the second file. *)
Example process_directory_markup_error :
  let walk (fs : gmap path node) (top : path) : list (path * list string * list string) :=
    [ (["d["], [], ["x].php"; "y.php"]) ]%string in
  let fs := <[ ["d["; "x].php.decoded"]%string := File [x6f] ]> sample_fs in
  let r := process_directory sample_markup_error walk ["d["%string] ["d["%string]
             [x01; x02] [x41; x42] ".php" false (World fs []) in
  r.1 = Raise (MarkupError "closing tag '[/x]' doesn't match any open tag")
  /\ w_log r.2 = [EvProgressStart; EvProgressAddTask 2;
                  EvProgressDescription "x].php";
                  EvExists ["d["; "x].php.decoded"]%string;
                  EvProgressStop].
Proof. vm_compute. repeat split. Qed.

(** [main] on a file whose path holds a closing tag: the start line is
    rejected, the outer handler shows the traceback, its error line is
    rejected too, and [main] raises; the file is not read. *)
Example main_markup_error :
  let fs := <[ ["d["; "x].php"]%string := File [x41; x42; x10; x20] ]> sample_fs in
  let r := main sample_markup_error sample_os_walk ["d["; "x].php"]%string None
             "0102" "4142" ".php" false (World fs []) in
  r.1 = Raise (MarkupError "closing tag '[/x]' doesn't match any open tag")
  /\ w_log r.2
     = [EvTraceback (MarkupError "closing tag '[/x]' doesn't match any open tag")].
Proof. vm_compute. split; reflexivity. Qed.
